(** * autosub3: region detection and the recognition pipeline

    A shallow embedding of [src/autosub/__init__.py].

    Conventions of the embedding:
    - Frame energies are the integers [audioop.rms] returns.  [Percentile],
      [Detector] and the pipeline read Python floats (times, the silence
      threshold) as exact rationals [Q]; [Numeric] is the detector over an
      arithmetic that is a parameter, with the floats of the code
      ([Number.binary64]) as an instance.
    - A [str] is held as its UTF-8 encoding.
    - A Python call that can raise is a value of [outcome]; [None] is
      [option]'s [None].
    - The external collaborators (ffmpeg, the HTTP endpoint, the JSON
      decoder, [str.upper], [audioop.rms], the formatter registry) are
      parameters of the definitions that use them. *)

From Stdlib Require Import ZArith QArith Qround Lqa Lia List String Ascii Bool.
From Stdlib Require Floats.
From stdpp Require Import base option list sorting gmap strings pretty.

Open Scope Z_scope.
Open Scope Q_scope.

(** ** Exceptions and results *)

Inductive exn : Set :=
| KeyboardInterrupt
| IndexError
| ZeroDivisionError
| TypeError
| CalledProcessError
| ConnectionError
| OtherError.

Inductive outcome (A : Type) : Type :=
| Return (a : A)
| Raise (e : exn).
Arguments Return {A} a.
Arguments Raise {A} e.

#[global] Instance outcome_bind : MBind outcome := fun A B k m =>
  match m with
  | Return a => k a
  | Raise e => Raise e
  end.

#[global] Instance outcome_ret : MRet outcome := @Return.

Definition is_raise {A} (m : outcome A) : bool :=
  match m with Raise _ => true | Return _ => false end.

(** A region is a pair [(start, end)] of times in seconds. *)
Definition region : Type := Q * Q.

(** ** [percentile] *)

Module Percentile.

(** [sorted(arr)] on a list of ints. *)
Definition sorted (arr : list Z) : list Z := merge_sort Z.le arr.

(** [arr[i]] with Python's indexing: a negative index counts from the end,
    an index outside the list raises [IndexError]. *)
Definition py_index (arr : list Z) (i : Z) : outcome Z :=
  let j := if (i <? 0)%Z then (Z.of_nat (length arr) + i)%Z else i in
  if (j <? 0)%Z then Raise IndexError
  else match arr !! Z.to_nat j with
       | Some x => Return x
       | None => Raise IndexError
       end.

(** [int(k)]: truncation towards zero. *)
Definition int_of (k : Q) : Z :=
  if Qle_bool 0 k then Qfloor k else Qceiling k.

Definition percentile (arr : list Z) (percent : Q) : outcome Q :=
  let arr := sorted arr in
  let k := (inject_Z (Z.of_nat (length arr)) - 1) * percent in
  let f := Qfloor k in
  let c := Qceiling k in
  if (f =? c)%Z then
    x ← py_index arr (int_of k); Return (inject_Z x)
  else
    a ← py_index arr f;
    let d0 := inject_Z a * (inject_Z c - k) in
    b ← py_index arr c;
    let d1 := inject_Z b * (k - inject_Z f) in
    Return (d0 + d1).

(** The percentile formula as section 4.1 (step 3) of the specification words
    it, over the order statistics [s] (the energies in non-decreasing
    order): for rank [k = (n-1)*p], the element at [k] when the floor and the
    ceiling of [k] coincide, otherwise the blend of the floor- and
    ceiling-indexed elements weighted by their distance from [k]. *)
Definition order_statistic (s : list Z) (i : Z) : Q :=
  inject_Z (nth (Z.to_nat i) s 0%Z).

Definition standard_percentile (s : list Z) (p : Q) : Q :=
  let k := (inject_Z (Z.of_nat (length s)) - 1) * p in
  if (Qfloor k =? Qceiling k)%Z then order_statistic s (Qfloor k)
  else order_statistic s (Qfloor k) * (inject_Z (Qceiling k) - k)
       + order_statistic s (Qceiling k) * (k - inject_Z (Qfloor k)).

End Percentile.

(** ** [find_speech_regions] *)

Module Detector.

(** The wave file as the reader presents it.  A frame is one sample per
    channel; [rms] is [audioop.rms]. *)
Record wave (frame : Type) : Type := {
  sampwidth : Z;
  framerate : Z;
  nchannels : Z;
  frames : list frame
}.
Arguments sampwidth {frame} _.
Arguments framerate {frame} _.
Arguments nchannels {frame} _.
Arguments frames {frame} _.

(** [n] successive [reader.readframes(frame_width)] calls. *)
Fixpoint readframes {frame} (n : nat) (frame_width : nat) (data : list frame)
  : list (list frame) :=
  match n with
  | O => []
  | S n' => take frame_width data :: readframes n' frame_width (drop frame_width data)
  end.

(** The variables of the sweep loop. *)
Record sweep : Type := {
  elapsed_time : Q;
  regions : list region;
  region_start : option Q
}.

(** Python truthiness of [region_start]: [None] and the number zero are
    false. *)
Definition truthy (rs : option Q) : bool :=
  match rs with
  | Some t => negb (Qeq_bool t 0)
  | None => false
  end.

(** [energy <= threshold] *)
Definition is_silence (threshold : Q) (energy : Z) : bool :=
  Qle_bool (inject_Z energy) threshold.

Section Sweep.
Variables (chunk_duration min_region_size max_region_size threshold : Q).

(** One iteration of [for energy in energies]. *)
Definition step (st : sweep) (energy : Z) : sweep :=
  let is_silence := is_silence threshold energy in
  let now := elapsed_time st in
  let st' :=
    match region_start st with
    | Some start =>
        let max_exceeded :=
          truthy (Some start) && Qle_bool max_region_size (now - start) in
        if (max_exceeded || is_silence) && truthy (Some start) then
          if Qle_bool min_region_size (now - start) then
            {| elapsed_time := now;
               regions := regions st ++ [(start, now)];
               region_start := None |}
          else st
        else if negb (truthy (Some start)) && negb is_silence then
          {| elapsed_time := now;
             regions := regions st;
             region_start := Some now |}
        else st
    | None =>
        if negb is_silence then
          {| elapsed_time := now;
             regions := regions st;
             region_start := Some now |}
        else st
    end in
  {| elapsed_time := elapsed_time st' + chunk_duration;
     regions := regions st';
     region_start := region_start st' |}.

Definition initial : sweep :=
  {| elapsed_time := 0; regions := []; region_start := None |}.

Definition run (st : sweep) (energies : list Z) : sweep :=
  fold_left step energies st.

End Sweep.

(** Lines 186-205 of [find_speech_regions]: the threshold and the sweep,
    given the frame energies.  The specification calls this [detect]. *)
Definition detect (chunk_duration min_region_size max_region_size : Q)
    (energies : list Z) : outcome (list region) :=
  threshold ← Percentile.percentile energies (1 # 5);
  Return (regions (run chunk_duration min_region_size max_region_size
                       threshold initial energies)).

Definition ceil_div (a b : Z) : Z := Qceiling (inject_Z a / inject_Z b).

Definition find_speech_regions {frame} (rms : list frame -> Z -> Z)
    (reader : wave frame) (frame_width : positive)
    (min_region_size max_region_size : Q) : outcome (list region) :=
  let sample_width := sampwidth reader in
  let rate := framerate reader in
  let n_channels := nchannels reader in
  if (rate =? 0)%Z then Raise ZeroDivisionError
  else
    let chunk_duration := inject_Z (Z.pos frame_width) / inject_Z rate in
    let n_chunks :=
      Z.to_nat (ceil_div (Z.of_nat (length (frames reader))) (Z.pos frame_width)) in
    let energies :=
      map (fun chunk => rms chunk (sample_width * n_channels)%Z)
          (readframes n_chunks (Pos.to_nat frame_width) (frames reader)) in
    detect chunk_duration min_region_size max_region_size energies.

(** Time after [n] frames, as the loop accumulates it. *)
Definition advance (chunk_duration : Q) (n : nat) (t : Q) : Q :=
  Nat.iter n (fun x => x + chunk_duration) t.

End Detector.

(** ** The arithmetic of the detector

    [percentile] and the loop of [find_speech_regions] compute on Python
    numbers: the energies are ints, the elapsed time, the start of the open
    region and an interpolated threshold are floats (IEEE 754 binary64).
    [Percentile] and [Detector] above read the floats as exact rationals.
    [Numeric] below is the same code over an [arithmetic] that is a
    parameter, with two instances: [exact], the rationals, and [binary64],
    the floats the code runs on.  What holds of [Numeric] for every
    arithmetic holds of the code as it runs. *)

Module Number.

(** A Python number that is an [int] or a [float]. *)
Inductive number (T : Type) : Type :=
| Int (n : Z)
| Float (x : T).
Arguments Int {T} n.
Arguments Float {T} x.

(** The operations on floats that the detector uses.  [of_int] is the
    conversion that [int * float], [int - float] and [float(n)] apply to an
    int; [geb x y] is [x >= y]; [int_leb n x] is [n <= x] for an int [n],
    which Python decides on the exact values; [is_zero x] is [x == 0], the
    falsity of [x]; [floor], [ceil] and [trunc] are [math.floor],
    [math.ceil] and [int], [None] where they raise. *)
Record arithmetic (T : Type) : Type := {
  of_int : Z -> T;
  add : T -> T -> T;
  sub : T -> T -> T;
  mul : T -> T -> T;
  div : T -> T -> T;
  geb : T -> T -> bool;
  int_leb : Z -> T -> bool;
  is_zero : T -> bool;
  floor : T -> option Z;
  ceil : T -> option Z;
  trunc : T -> option Z
}.
Arguments of_int {T} _ _.
Arguments add {T} _ _ _.
Arguments sub {T} _ _ _.
Arguments mul {T} _ _ _.
Arguments div {T} _ _ _.
Arguments geb {T} _ _ _.
Arguments int_leb {T} _ _ _.
Arguments is_zero {T} _ _.
Arguments floor {T} _ _.
Arguments ceil {T} _ _.
Arguments trunc {T} _ _.

(** Exact rationals. *)
Definition exact : arithmetic Q :=
  {| of_int := inject_Z;
     add := Qplus;
     sub := Qminus;
     mul := Qmult;
     div := Qdiv;
     geb := fun x y => Qle_bool y x;
     int_leb := fun n x => Qle_bool (inject_Z n) x;
     is_zero := fun x => Qeq_bool x 0;
     floor := fun x => Some (Qfloor x);
     ceil := fun x => Some (Qceiling x);
     trunc := fun x => Some (Percentile.int_of x) |}.

(** IEEE 754 binary64, on the primitive floats.  The float of an int is the
    nearest float, ties to even (Python raises [OverflowError] where this
    gives an infinity, beyond [1.8e308]). *)
Definition float_of_int (n : Z) : PrimFloat.float :=
  FloatOps.SF2Prim
    (SpecFloat.binary_normalize FloatOps.prec FloatOps.emax n 0 false).

(** A finite float is [n * 2^e] for the integers [n] and [e] of
    [finite x]. *)
Definition finite (x : PrimFloat.float) : option (Z * Z) :=
  match FloatOps.Prim2SF x with
  | SpecFloat.S754_zero _ => Some (0, 0)%Z
  | SpecFloat.S754_finite s m e => Some (if s then Z.neg m else Z.pos m, e)
  | SpecFloat.S754_infinity _ | SpecFloat.S754_nan => None
  end.

Definition float_floor (x : PrimFloat.float) : option Z :=
  '(n, e) ← finite x;
  Some (if (0 <=? e)%Z then n * 2 ^ e else n / 2 ^ (- e))%Z.

Definition float_ceil (x : PrimFloat.float) : option Z :=
  '(n, e) ← finite x;
  Some (if (0 <=? e)%Z then n * 2 ^ e else - ((- n) / 2 ^ (- e)))%Z.

Definition float_trunc (x : PrimFloat.float) : option Z :=
  '(n, e) ← finite x;
  Some (if (0 <=? e)%Z then n * 2 ^ e else n ÷ 2 ^ (- e))%Z.

(** [n <= x] on the exact values: false for a NaN. *)
Definition float_int_leb (n : Z) (x : PrimFloat.float) : bool :=
  match FloatOps.Prim2SF x with
  | SpecFloat.S754_nan => false
  | SpecFloat.S754_infinity s => negb s
  | SpecFloat.S754_zero _ => (n <=? 0)%Z
  | SpecFloat.S754_finite s m e =>
      let v := if s then Z.neg m else Z.pos m in
      if (0 <=? e)%Z then (n <=? v * 2 ^ e)%Z else (n * 2 ^ (- e) <=? v)%Z
  end.

Definition binary64 : arithmetic PrimFloat.float :=
  {| of_int := float_of_int;
     add := PrimFloat.add;
     sub := PrimFloat.sub;
     mul := PrimFloat.mul;
     div := PrimFloat.div;
     geb := fun x y => PrimFloat.leb y x;
     int_leb := float_int_leb;
     is_zero := fun x => PrimFloat.eqb x PrimFloat.zero;
     floor := float_floor;
     ceil := float_ceil;
     trunc := float_trunc |}.

End Number.

Module Numeric.
Import Number.

Section Numeric.
Context {T : Type}.
Variable A : arithmetic T.

(** A decimal literal such as [0.2] or [0.5]: the float nearest to it,
    which is also the quotient of its numerator and denominator. *)
Definition decimal (q : Q) : T :=
  div A (of_int A (Qnum q)) (of_int A (Z.pos (Qden q))).

(** [math.floor], [math.ceil] and [int] raise on an infinity ([OverflowError])
    and on a NaN ([ValueError]), rendered as [OtherError]. *)
Definition integer (x : option Z) : outcome Z :=
  match x with
  | Some n => Return n
  | None => Raise OtherError
  end.

(** Lines 46-54.  The result is an int when the rank is integral and a
    float otherwise. *)
Definition percentile (arr : list Z) (percent : T) : outcome (number T) :=
  let arr := Percentile.sorted arr in
  let k := mul A (of_int A (Z.of_nat (length arr) - 1)) percent in
  f ← integer (floor A k);
  c ← integer (ceil A k);
  if (f =? c)%Z then
    i ← integer (trunc A k);
    x ← Percentile.py_index arr i;
    Return (Int x)
  else
    a ← Percentile.py_index arr f;
    let d0 := mul A (of_int A a) (sub A (of_int A c) k) in
    b ← Percentile.py_index arr c;
    let d1 := mul A (of_int A b) (sub A k (of_int A f)) in
    Return (Float (add A d0 d1)).

(** The variables of the sweep loop.  [elapsed_time] starts as the int [0],
    which behaves as the float [0.0] in all that the loop does with it. *)
Record sweep : Type := {
  elapsed_time : T;
  regions : list (T * T);
  region_start : option T
}.

(** Python truthiness of [region_start]: [None] and zero are false. *)
Definition truthy (rs : option T) : bool :=
  match rs with
  | Some t => negb (is_zero A t)
  | None => false
  end.

(** [energy <= threshold] *)
Definition is_silence (threshold : number T) (energy : Z) : bool :=
  match threshold with
  | Int n => (energy <=? n)%Z
  | Float x => int_leb A energy x
  end.

Section Sweep.
Variables (chunk_duration min_region_size max_region_size : T).
Variable threshold : number T.

(** [now - start >= size] *)
Definition reached (size start now : T) : bool := geb A (sub A now start) size.

(** One iteration of [for energy in energies]: lines 194-204. *)
Definition step (st : sweep) (energy : Z) : sweep :=
  let is_silence := is_silence threshold energy in
  let now := elapsed_time st in
  let st' :=
    match region_start st with
    | Some start =>
        let max_exceeded :=
          truthy (Some start) && reached max_region_size start now in
        if (max_exceeded || is_silence) && truthy (Some start) then
          if reached min_region_size start now then
            {| elapsed_time := now;
               regions := regions st ++ [(start, now)];
               region_start := None |}
          else st
        else if negb (truthy (Some start)) && negb is_silence then
          {| elapsed_time := now;
             regions := regions st;
             region_start := Some now |}
        else st
    | None =>
        if negb is_silence then
          {| elapsed_time := now;
             regions := regions st;
             region_start := Some now |}
        else st
    end in
  {| elapsed_time := add A (elapsed_time st') chunk_duration;
     regions := regions st';
     region_start := region_start st' |}.

Definition initial : sweep :=
  {| elapsed_time := of_int A 0; regions := []; region_start := None |}.

Definition run (st : sweep) (energies : list Z) : sweep :=
  fold_left step energies st.

(** The elapsed time [n] frames after the time [t], as the loop
    accumulates it. *)
Definition advance (n : nat) (t : T) : T :=
  Nat.iter n (fun x => add A x chunk_duration) t.

(** The test of lines 195-198 under which the region that started at
    [start] is emitted at a frame: the frame is silent or the maximum size
    is reached, and the minimum size is reached. *)
Definition closes (start now : T) (energy : Z) : bool :=
  (reached max_region_size start now || is_silence threshold energy)
  && reached min_region_size start now.

(** An emitted region of a stream of [n] frames that is in order: it goes
    from the elapsed time of a frame to that of a later frame, it passes the
    test of the minimum size, and the test of the maximum size fails at
    every frame between the two. *)
Definition in_order (n : nat) (r : T * T) : Prop :=
  exists i j,
    (i < j < n)%nat
    /\ r = (advance i (of_int A 0), advance j (of_int A 0))
    /\ reached min_region_size (fst r) (snd r) = true
    /\ forall m, (i < m < j)%nat ->
         reached max_region_size (fst r) (advance m (of_int A 0)) = false.

(** The invariant of the loop on entering frame [k]. *)
Definition sweep_invariant (k : nat) (st : sweep) : Prop :=
  elapsed_time st = advance k (of_int A 0)
  /\ Forall (in_order k) (regions st)
  /\ forall s, region_start st = Some s -> truthy (Some s) = true ->
       exists i, (i < k)%nat /\ s = advance i (of_int A 0)
         /\ forall m, (i < m < k)%nat ->
              reached max_region_size s (advance m (of_int A 0)) = false.
End Sweep.

(** Lines 186-205: the threshold and the sweep, given the frame energies. *)
Definition detect (chunk_duration min_region_size max_region_size : T)
    (energies : list Z) : outcome (list (T * T)) :=
  threshold ← percentile energies (decimal (1 # 5));
  Return (regions (run chunk_duration min_region_size max_region_size
                       threshold initial energies)).

(** Lines 172-205.  The defaults of [min_region_size] and [max_region_size]
    are [decimal (1 # 2)] and [of_int 6]. *)
Definition find_speech_regions {frame} (rms : list frame -> Z -> Z)
    (reader : Detector.wave frame) (frame_width : positive)
    (min_region_size max_region_size : T) : outcome (list (T * T)) :=
  let sample_width := Detector.sampwidth reader in
  let rate := Detector.framerate reader in
  let n_channels := Detector.nchannels reader in
  if (rate =? 0)%Z then Raise ZeroDivisionError
  else
    let chunk_duration := div A (of_int A (Z.pos frame_width)) (of_int A rate) in
    n ← integer
          (ceil A (div A (mul A (of_int A (Z.of_nat (length (Detector.frames reader))))
                              (of_int A 1))
                         (of_int A (Z.pos frame_width))));
    let n_chunks := Z.to_nat n in
    let energies :=
      map (fun chunk => rms chunk (sample_width * n_channels)%Z)
          (Detector.readframes n_chunks (Pos.to_nat frame_width)
                               (Detector.frames reader)) in
    detect chunk_duration min_region_size max_region_size energies.

End Numeric.

(** The exact arithmetic is the one of [Percentile] and [Detector]: the
    value of a number, and the variables of the loop. *)
Definition value (x : number Q) : Q :=
  match x with
  | Int n => inject_Z n
  | Float q => q
  end.

Definition to_detector (st : sweep (T := Q)) : Detector.sweep :=
  {| Detector.elapsed_time := elapsed_time st;
     Detector.regions := regions st;
     Detector.region_start := region_start st |}.

End Numeric.

(** ** The per-item workers *)

(** A clip is the byte content of the temporary FLAC file. *)
Definition clip : Type := string.

(** [try: body except KeyboardInterrupt: return].  The value of the body is
    [None] when it ends without a [return] of its own. *)
Definition except_KeyboardInterrupt {A} (body : outcome (option A))
  : outcome (option A) :=
  match body with
  | Raise KeyboardInterrupt => Return None
  | _ => body
  end.

Module FLACConverter.
Section Call.
(** [run_ffmpeg start duration]: [subprocess.check_output] on the ffmpeg
    command line followed by [temp.read()]; a non-zero exit status is
    [Raise CalledProcessError]. *)
Variable run_ffmpeg : Q -> Q -> outcome clip.
Variables (include_before include_after : Q).

(** [max(0, x)] *)
Definition max0 (x : Q) : Q := if Qle_bool x 0 then 0 else x.

(** The [-ss] and [-t] arguments of the command line: the padded start and
    the padded duration. *)
Definition interval (r : region) : Q * Q :=
  let '(start, end_) := r in
  let start := max0 (start - include_before) in
  let end_ := end_ + include_after in
  (start, end_ - start).

Definition call (r : region) : outcome (option clip) :=
  except_KeyboardInterrupt
    (let '(start, duration) := interval r in
     data ← run_ffmpeg start duration;
     Return (Some data)).
End Call.
End FLACConverter.

Module SpeechRecognizer.

(** [body.split('\n')] *)
Fixpoint split_lines (body : string) : list string :=
  match body with
  | EmptyString => [EmptyString]
  | String c rest =>
      if Ascii.eqb c "010"%char then EmptyString :: split_lines rest
      else match split_lines rest with
           | line :: lines => String c line :: lines
           | [] => [String c EmptyString]
           end
  end.

(** A [str] is held as its UTF-8 encoding.  [utf8_width c] is the number
    of bytes of the character whose encoding starts with the byte [c]: one
    for ASCII, and two, three or four after the lead bytes [0xC0]-[0xDF],
    [0xE0]-[0xEF] and [0xF0]-[0xF7]. *)
Definition utf8_width (c : ascii) : nat :=
  let n := nat_of_ascii c in
  if (n <? 192)%nat then 1%nat
  else if (n <? 224)%nat then 2%nat
  else if (n <? 240)%nat then 3%nat
  else 4%nat.

(** [line[:1]] and [line[1:]]: the first character and what follows it. *)
Definition first_character (line : string) : string :=
  match line with
  | EmptyString => EmptyString
  | String c _ => substring 0 (utf8_width c) line
  end.

Definition after_first_character (line : string) : string :=
  match line with
  | EmptyString => EmptyString
  | String c _ => substring (utf8_width c) (String.length line) line
  end.

Section Call.
(** [post data i]: the [i]-th [requests.post] of the call, followed by
    [resp.content.decode()]. *)
Variable post : option clip -> nat -> outcome string.
(** [json_transcript line] is the body of the inner [try] up to the
    transcript: [json.loads(line)['result'][0]['alternative'][0]['transcript']],
    [Return t] when it evaluates to the string [t], and the exception
    otherwise (a line that is not JSON, a missing key or index, a
    transcript that is not a string, an interrupt). *)
Variable json_transcript : string -> outcome string.
(** [str.upper] *)
Variable upper : string -> string.

(** [line[:1].upper() + line[1:]] *)
Definition capitalize (line : string) : string :=
  upper (first_character line) +:+ after_first_character line.

(** The loop over the lines of one response: [Some] is the [return], [None]
    is falling out of the loop.  The bare [except: continue] catches every
    exception. *)
Fixpoint scan (lines : list string) : option string :=
  match lines with
  | [] => None
  | line :: rest =>
      match json_transcript line with
      | Return t => Some (capitalize t)
      | Raise _ => scan rest
      end
  end.

(** [for i in range(self.retries)], from iteration [i] with [n] iterations
    left.  The second component counts the requests issued so far. *)
Fixpoint attempts (data : option clip) (n i : nat)
  : outcome (option string) * nat :=
  match n with
  | O => (Return None, i)
  | S n' =>
      match post data i with
      | Raise ConnectionError => attempts data n' (S i)
      | Raise e => (Raise e, S i)
      | Return body =>
          match scan (split_lines body) with
          | Some t => (Return (Some t), S i)
          | None => attempts data n' (S i)
          end
      end
  end.

(** [__call__]: the result, and the number of requests it issued. *)
Definition call_counting (retries : nat) (data : option clip)
  : outcome (option string) * nat :=
  let '(result, requests) := attempts data retries 0 in
  (except_KeyboardInterrupt result, requests).

Definition call (retries : nat) (data : option clip) : outcome (option string) :=
  fst (call_counting retries data).

(** A request that gives nothing and lets the loop go on: the connection
    failed, or no line of the response has a transcript. *)
Definition fruitless (data : option clip) (j : nat) : Prop :=
  post data j = Raise ConnectionError
  \/ exists body, post data j = Return body /\ scan (split_lines body) = None.
End Call.
End SpeechRecognizer.

(** ** The worker pool *)

Module Pool.

(** Modelled from the spec: [multiprocessing.Pool.imap] is not part of the
    repository sources.  Sections 4.4 and 5 require the pool to hand every
    input to a worker, to accept the completions in any order, and to
    buffer and reorder them so that the caller receives the results in
    submission order.  [imap_iterator] is the reorder buffer: [items] are
    the results ready for the caller, [index] is the next position to
    release and [unsorted] holds the completions that arrived early. *)
Record imap_iterator (B : Type) : Type := {
  items : list B;
  index : nat;
  unsorted : gmap nat B
}.
Arguments items {B} _.
Arguments index {B} _.
Arguments unsorted {B} _.

Section IMap.
Context {A B : Type}.

Definition fresh : imap_iterator B :=
  {| items := []; index := 0; unsorted := ∅ |}.

(** Release the buffered completions that have become consecutive. *)
Fixpoint release (fuel : nat) (it : imap_iterator B) : imap_iterator B :=
  match fuel with
  | O => it
  | S fuel' =>
      match unsorted it !! index it with
      | Some obj =>
          release fuel' {| items := items it ++ [obj];
                           index := S (index it);
                           unsorted := delete (index it) (unsorted it) |}
      | None => it
      end
  end.

(** Completion of the task at position [i] with result [obj]. *)
Definition complete (it : imap_iterator B) (i : nat) (obj : B) : imap_iterator B :=
  if decide (index it = i) then
    release (size (unsorted it))
            {| items := items it ++ [obj];
               index := S (index it);
               unsorted := unsorted it |}
  else
    {| items := items it; index := index it; unsorted := <[i := obj]> (unsorted it) |}.

(** The sequence the caller of [pool.imap(f, xs)] iterates over, when the
    workers complete the tasks in the order [completion] (positions in
    [xs]). *)
Definition imap (f : A -> B) (xs : list A) (completion : list nat) : list B :=
  items (fold_left
           (fun it i => match xs !! i with
                        | Some x => complete it i (f x)
                        | None => it
                        end)
           completion fresh).

(** The state of the reorder buffer once the tasks at the positions
    [finished] have completed: everything before [index] has been released, in order;
    [index] itself is still outstanding; the completions beyond it wait in
    [unsorted]. *)
Definition buffered (f : A -> B) (xs : list A) (finished : list nat)
    (it : imap_iterator B) : Prop :=
  (forall j, (j < index it)%nat -> j ∈ finished)
  /\ (index it ∉ finished)
  /\ items it = f <$> take (index it) xs
  /\ (forall j, unsorted it !! j
                = if decide (j ∈ finished /\ (index it < j)%nat)
                  then f <$> xs !! j else None)
  /\ (forall j, j ∈ finished -> (j < length xs)%nat).

(** The same during [release], where the completion at [index] may be
    waiting in [unsorted]. *)
Definition releasing (f : A -> B) (xs : list A) (finished : list nat)
    (it : imap_iterator B) : Prop :=
  (forall j, (j < index it)%nat -> j ∈ finished)
  /\ items it = f <$> take (index it) xs
  /\ (forall j, unsorted it !! j
                = if decide (j ∈ finished /\ (index it <= j)%nat)
                  then f <$> xs !! j else None)
  /\ (forall j, j ∈ finished -> (j < length xs)%nat).

(** A result that the worker [f] gave on some input. *)
Definition produced (f : A -> B) (y : B) : Prop := exists x, y = f x.
End IMap.
End Pool.

(** ** [generate_subtitles] *)

Module Pipeline.

Inductive stage : Set := Extraction | Recognition.

#[global] Instance stage_eq_dec : EqDecision stage.
Proof. solve_decision. Defined.

(** What the run can change outside itself: the file system (path to
    content), the inputs handed to the recognition stage of the pool, and
    whether the pool was torn down by the cancellation handler. *)
Record world : Type := {
  files : gmap string string;
  recognition_tasks : list (option clip);
  pool_terminated : bool
}.

Definition submit (tasks : list (option clip)) (w : world) : world :=
  {| files := files w;
     recognition_tasks := recognition_tasks w ++ tasks;
     pool_terminated := pool_terminated w |}.

(** [pool.terminate(); pool.join()] *)
Definition terminate (w : world) : world :=
  {| files := files w;
     recognition_tasks := recognition_tasks w;
     pool_terminated := true |}.

Definition write_file (path content : string) (w : world) : world :=
  {| files := <[path := content]> (files w);
     recognition_tasks := recognition_tasks w;
     pool_terminated := pool_terminated w |}.

Definition remove_file (path : string) (w : world) : world :=
  {| files := delete path (files w);
     recognition_tasks := recognition_tasks w;
     pool_terminated := pool_terminated w |}.

(** Truthiness of a transcript: [None] and the empty string are false. *)
Definition nonempty (t : option string) : bool :=
  match t with
  | Some EmptyString | None => false
  | Some _ => true
  end.

(** [[(r, t) for r, t in zip(regions, transcripts) if t]] *)
Fixpoint timed_subtitles (regions : list region) (transcripts : list (option string))
  : list (region * string) :=
  match regions, transcripts with
  | r :: regions', Some t :: transcripts' =>
      if nonempty (Some t) then (r, t) :: timed_subtitles regions' transcripts'
      else timed_subtitles regions' transcripts'
  | _ :: regions', None :: transcripts' => timed_subtitles regions' transcripts'
  | _, _ => []
  end.

Section GenerateSubtitles.
Context {frame : Type}.
(** The collaborators. *)
Variable rms : list frame -> Z -> Z.
Variable extract_audio : string -> outcome (string * Z).
Variable wave_open : string -> Detector.wave frame.
Variable run_ffmpeg : string -> Q -> Q -> outcome clip.
Variable post : string -> Z -> option clip -> nat -> outcome string.
Variable json_transcript : string -> outcome string.
Variable upper : string -> string.
Variable FORMATTERS : gmap string (list (region * string) -> string).
Variable splitext : string -> string * string.
(** The schedule of the run: the order in which the workers complete the
    tasks of each stage, and where, if at all, the interrupt reaches the
    main process ([Some (s, i)]: in stage [s], with [i] results taken). *)
Variable completion : stage -> list nat.
Variable interrupt : option (stage * nat).

(** [for i, x in enumerate(pool.imap(worker, inputs)): collected.append(x)]
    over the sequence of results the pool delivers: a result that is an
    exception is raised again in the main process. *)
Fixpoint collect {B} (s : stage) (i : nat) (delivered : list (outcome B))
    (collected : list B) : outcome (list B) :=
  if decide (interrupt = Some (s, i)) then Raise KeyboardInterrupt
  else match delivered with
       | [] => Return collected
       | Return x :: rest => collect s (S i) rest (collected ++ [x])
       | Raise e :: _ => Raise e
       end.

(** [except KeyboardInterrupt: ...; pool.terminate(); pool.join(); raise] *)
Definition on_interrupt {B} (w : world) (r : outcome B) : world :=
  match r with
  | Raise KeyboardInterrupt => terminate w
  | _ => w
  end.

(** Lines 263-287: the two pool stages, for a non-empty region list. *)
Definition stages (converter : region -> outcome (option clip))
    (recognizer : option clip -> outcome (option string))
    (regions : list region) (w : world) : world * outcome (list (option string)) :=
  let extraction :=
    collect Extraction 0 (Pool.imap converter regions (completion Extraction)) [] in
  match extraction with
  | Raise e => (on_interrupt w extraction, Raise e)
  | Return extracted_regions =>
      let w := submit extracted_regions w in
      let recognition :=
        collect Recognition 0
                (Pool.imap recognizer extracted_regions (completion Recognition)) [] in
      (on_interrupt w recognition, recognition)
  end.

Definition generate_subtitles (source_path src_language subtitle_file_format : string)
    (output : option string) (w : world) : world * outcome string :=
  match extract_audio source_path with
  | Raise e => (w, Raise e)
  | Return (audio_filename, audio_rate) =>
  match Detector.find_speech_regions rms (wave_open audio_filename)
                                     4096 (1 # 2) 6 with
  | Raise e => (w, Raise e)
  | Return regions =>
  let converter := FLACConverter.call (run_ffmpeg audio_filename) (1 # 4) (1 # 4) in
  let recognizer :=
    SpeechRecognizer.call (post src_language audio_rate) json_transcript upper 3 in
  let '(w, transcripts) :=
    match regions with
    | [] => (w, Return [])
    | _ :: _ => stages converter recognizer regions w
    end in
  match transcripts with
  | Raise e => (w, Raise e)
  | Return transcripts =>
  let timed := timed_subtitles regions transcripts in
  match FORMATTERS !! subtitle_file_format with
  | None => (w, Raise TypeError)
  | Some formatter =>
  let formatted_subtitles := formatter timed in
  let dest :=
    match output with
    | Some (String c path) => String c path
    | Some EmptyString | None =>
        fst (splitext source_path) +:+ "." +:+ subtitle_file_format
    end in
  let w := write_file dest formatted_subtitles w in
  let w := remove_file audio_filename w in
  (w, Return dest)
  end end end end.

End GenerateSubtitles.
End Pipeline.

(** ** Frame boundaries

    The regions of a sweep, by the numbers of the frames at which they
    start and end. *)

Module Frames.

(** [chain lo ivs hi]: the intervals [ivs = [(i1, j1); (i2, j2); ...]] of
    frame numbers satisfy [lo <= i1 < j1 < i2 < j2 < ... < hi], and no
    interval starts at frame 0. *)
Fixpoint chain (lo : nat) (ivs : list (nat * nat)) (hi : nat) : Prop :=
  match ivs with
  | [] => (lo <= hi)%nat
  | (i, j) :: rest => (lo <= i)%nat /\ (1 <= i)%nat /\ (i < j)%nat /\ chain (S j) rest hi
  end.

(** The region between two frame boundaries. *)
Definition times (chunk_duration : Q) (iv : nat * nat) : region :=
  (Detector.advance chunk_duration (fst iv) 0,
   Detector.advance chunk_duration (snd iv) 0).

(** The regions [ivs] have been emitted on entering frame [k], and [open]
    is the frame at which the open region, if any, started. *)
Definition tracks (chunk_duration : Q) (k : nat) (ivs : list (nat * nat))
    (open : option nat) (st : Detector.sweep) : Prop :=
  Detector.elapsed_time st = Detector.advance chunk_duration k 0
  /\ Detector.regions st = times chunk_duration <$> ivs
  /\ Detector.region_start st
     = (fun i => Detector.advance chunk_duration i 0) <$> open
  /\ match open with
     | Some i => chain 0 ivs i /\ (i < k)%nat
     | None => chain 0 ivs k
     end.

End Frames.

(** ** Strings *)

Module Str.

(** [s.split(sep)] for a separator of one character. *)
Fixpoint split_char (sep : ascii) (s : string) : list string :=
  match s with
  | EmptyString => [EmptyString]
  | String c rest =>
      if Ascii.eqb c sep then EmptyString :: split_char sep rest
      else match split_char sep rest with
           | part :: parts => String c part :: parts
           | [] => [String c EmptyString]
           end
  end.

(** [sep.join(parts)] *)
Fixpoint join (sep : ascii) (parts : list string) : string :=
  match parts with
  | [] => EmptyString
  | [part] => part
  | part :: rest => part +:+ String sep (join sep rest)
  end.

(** [c in s] *)
Fixpoint contains (c : ascii) (s : string) : bool :=
  match s with
  | EmptyString => false
  | String c' rest => Ascii.eqb c' c || contains c rest
  end.

(** [s.lstrip(c)], [s.rstrip(c)] and [s.strip(c)] for one character. *)
Fixpoint lstrip (c : ascii) (s : string) : string :=
  match s with
  | String c' rest => if Ascii.eqb c' c then lstrip c rest else s
  | EmptyString => EmptyString
  end.

Fixpoint rstrip (c : ascii) (s : string) : string :=
  match s with
  | EmptyString => EmptyString
  | String c' rest =>
      match rstrip c rest with
      | EmptyString => if Ascii.eqb c' c then EmptyString else String c' EmptyString
      | rest' => String c' rest'
      end
  end.

Definition strip (c : ascii) (s : string) : string := rstrip c (lstrip c s).

(** Truthiness of a string. *)
Definition truthy (s : string) : bool :=
  match s with EmptyString => false | String _ _ => true end.

End Str.

(** ** [is_same_language] *)

Module Language.

(** [lang.split('-')[0]]: [split] never returns an empty list. *)
Definition primary (lang : string) : string :=
  match Str.split_char "-" lang with
  | part :: _ => part
  | [] => EmptyString
  end.

Definition is_same_language (lang1 lang2 : string) : bool :=
  String.eqb (primary lang1) (primary lang2).

End Language.

(** ** [Translator.__call__] *)

Module Translator.
Section Call.
(** [execute sentence]:
    [self.service.translations().list(source, target, q=[sentence]).execute()],
    the response as a dict from keys to lists of dicts. *)
Variable execute : string -> outcome (gmap string (list (gmap string string))).

(** The value returned for a response. *)
Definition translated (result : gmap string (list (gmap string string))) : string :=
  match result !! "translations"%string with
  | Some (first :: _) =>
      match first !! "translatedText"%string with
      | Some text => text
      | None => EmptyString
      end
  | Some [] | None => EmptyString
  end.

(** [__call__]: the result, and the sentences sent to the service. *)
Definition call_counting (sentence : option string)
  : outcome (option string) * list string :=
  match sentence with
  | None | Some EmptyString => (Return None, [])
  | Some sentence =>
      (except_KeyboardInterrupt
         (result ← execute sentence; Return (Some (translated result))),
       [sentence])
  end.

Definition call (sentence : option string) : outcome (option string) :=
  fst (call_counting sentence).
End Call.
End Translator.

(** ** [which] and [extract_audio] *)

Module Which.
Section Which.
(** [os.path.isfile], [os.access(_, os.X_OK)], [os.path.split],
    [os.path.join], [os.environ] and [os.pathsep]. *)
Variable isfile : string -> bool.
Variable access_x : string -> bool.
Variable path_split : string -> string * string.
Variable path_join : string -> string -> string.
Variable environ : gmap string string.
Variable pathsep : ascii.

Definition is_exe (file_path : string) : bool :=
  isfile file_path && access_x file_path.

(** The loop over the entries of [PATH]. *)
Fixpoint search (program : string) (paths : list string) : option string :=
  match paths with
  | [] => None
  | path :: rest =>
      let path := Str.strip "034" path in
      let exe_file := path_join path program in
      if is_exe exe_file then Some exe_file else search program rest
  end.

(** A missing [PATH] is a [KeyError], rendered as [OtherError]. *)
Definition which (program : string) : outcome (option string) :=
  let '(fpath, fname) := path_split program in
  if Str.truthy fpath then
    if is_exe program then Return (Some program) else Return None
  else
    match environ !! "PATH"%string with
    | None => Raise OtherError
    | Some path => Return (search program (Str.split_char pathsep path))
    end.
End Which.
End Which.

Module ExtractAudio.

(** What [extract_audio] leaves behind: the temporary files created, the
    lines printed and the command lines run. *)
Record shell : Type := {
  created : list string;
  printed : list string;
  commands : list (list string)
}.

Section ExtractAudio.
Variable isfile : string -> bool.
Variable access_x : string -> bool.
Variable path_split : string -> string * string.
Variable path_join : string -> string -> string.
Variable environ : gmap string string.
Variable pathsep : ascii.
(** The name of the file [tempfile.NamedTemporaryFile(suffix='.wav',
    delete=False)] creates, and [subprocess.check_output]. *)
Variable temp_name : string.
Variable check_output : list string -> outcome string.

Definition command (filename : string) (channels rate : Z) : list string :=
  ["ffmpeg"; "-y"; "-i"; filename; "-ac"; pretty channels; "-ar"; pretty rate;
   "-loglevel"; "error"; temp_name]%string.

(** [Exception(...)] is rendered as [OtherError]. *)
Definition extract_audio (filename : string) (channels rate : Z) (sh : shell)
  : shell * outcome (string * Z) :=
  let sh := {| created := created sh ++ [temp_name];
               printed := printed sh;
               commands := commands sh |} in
  if negb (isfile filename) then
    ({| created := created sh;
        printed := printed sh ++ ["The given file does not exist: " +:+ filename];
        commands := commands sh |},
     Raise OtherError)
  else
    match Which.which isfile access_x path_split path_join environ pathsep
            "ffmpeg" with
    | Raise e => (sh, Raise e)
    | Return found =>
        if match found with Some p => Str.truthy p | None => false end then
          let sh := {| created := created sh;
                       printed := printed sh;
                       commands := commands sh ++ [command filename channels rate] |} in
          match check_output (command filename channels rate) with
          | Raise e => (sh, Raise e)
          | Return _ => (sh, Return (temp_name, rate))
          end
        else
          ({| created := created sh;
              printed := printed sh ++ ["ffmpeg: Executable not found on machine."];
              commands := commands sh |},
           Raise OtherError)
    end.
End ExtractAudio.
End ExtractAudio.

(** ** [main] *)

Module Main.

(** The arguments, as [docopt] returns them. *)
Record args : Type := {
  list_formats : bool;
  list_languages : bool;
  format : string;
  src_language : string;
  concurrency : string;
  output : option string;
  source : string
}.

(** The order of [sorted] on the items of a dict with string keys. *)
Definition code_le (a b : string * string) : Prop :=
  String.leb (fst a) (fst b) = true.

#[global] Instance code_le_dec : RelDecision code_le.
Proof. intros a b. unfold code_le. apply _. Defined.

Section Main.
Context {frame : Type}.
Variable rms : list frame -> Z -> Z.
Variable extract_audio : string -> outcome (string * Z).
Variable wave_open : string -> Detector.wave frame.
Variable run_ffmpeg : string -> Q -> Q -> outcome clip.
Variable post : string -> Z -> option clip -> nat -> outcome string.
Variable json_transcript : string -> outcome string.
Variable upper : string -> string.
Variable splitext : string -> string * string.
Variable completion : Pipeline.stage -> list nat.
Variable interrupt : option (Pipeline.stage * nat).
(** The tables of [autosub.formatters] and [autosub.constants], which are
    not part of the sources: the formatters in the order of the dict (with
    distinct keys) and the language codes. *)
Variable FORMATTERS : list (string * (list (region * string) -> string)).
Variable LANGUAGE_CODES : gmap string string.
(** [open('VERSION', 'r').read()] and [int(_)]. *)
Variable read_version : outcome string.
Variable int_of : string -> outcome Z.

(** [sorted(LANGUAGE_CODES.items())] *)
Definition sorted_languages : list (string * string) :=
  merge_sort code_le (map_to_list LANGUAGE_CODES).

Definition tab : string := String "009" EmptyString.

(** [main]: the state of the world, the lines [main] itself prints, and the
    exit status it returns or the exception it lets through. *)
Definition main (a : args) (w : Pipeline.world)
  : Pipeline.world * list string * outcome Z :=
  match read_version with
  | Raise e => (w, [], Raise e)
  | Return version =>
  if list_formats a then (w, fst <$> FORMATTERS, Return 0%Z)
  else if list_languages a then
    (w, (fun cl => fst cl +:+ tab +:+ snd cl) <$> sorted_languages, Return 0%Z)
  else if negb (bool_decide (format a ∈ fst <$> FORMATTERS)) then
    (w, ["Subtitle format not supported. Run with --list-formats to see all supported formats."%string],
     Return 1%Z)
  else if negb (bool_decide (is_Some (LANGUAGE_CODES !! src_language a))) then
    (w, ["Source language not supported. Run with --list-languages to see all supported languages."%string],
     Return 1%Z)
  else
    match int_of (concurrency a) with
    | Raise KeyboardInterrupt => (w, [], Return 1%Z)
    | Raise e => (w, [], Raise e)
    | Return _ =>
        match Pipeline.generate_subtitles rms extract_audio wave_open run_ffmpeg
                post json_transcript upper (list_to_map FORMATTERS) splitext
                completion interrupt (source a) (src_language a) (format a)
                (output a) w with
        | (w', Return subtitle_file_path) =>
            (w', ["Subtitles file created at " +:+ subtitle_file_path], Return 0%Z)
        | (w', Raise KeyboardInterrupt) => (w', [], Return 1%Z)
        | (w', Raise e) => (w', [], Raise e)
        end
    end
  end.
End Main.
End Main.

(** ** Sample collaborators

    Concrete stand-ins for the external collaborators, used to run the
    definitions on sample inputs. *)

Module Samples.

(** [str.upper] on ASCII letters. *)
Definition upper_char (c : ascii) : ascii :=
  let n := nat_of_ascii c in
  if (97 <=? n)%nat && (n <=? 122)%nat then ascii_of_nat (n - 32) else c.

Fixpoint upper (s : string) : string :=
  match s with
  | EmptyString => EmptyString
  | String c rest => String (upper_char c) (upper rest)
  end.

Definition newline : string := String "010"%char EmptyString.

(** A decoder that accepts the lines of the form [T:transcript]. *)
Definition json_transcript (line : string) : outcome string :=
  match line with
  | String "T" (String ":" t) => Return t
  | _ => Raise OtherError
  end.

(** A response of three records, of which only the third has a transcript. *)
Definition three_records : string :=
  "{}" +:+ newline +:+ "{result:[]}" +:+ newline +:+ "T:hello world".

(** An endpoint that refuses the connection once and then answers. *)
Definition post_flaky (data : option clip) (i : nat) : outcome string :=
  match i with
  | O => Raise ConnectionError
  | _ => Return three_records
  end.

(** An endpoint that always answers without a transcript. *)
Definition post_nothing (data : option clip) (i : nat) : outcome string :=
  Return "{result:[]}".

(** An endpoint on which the first request is interrupted. *)
Definition post_interrupted (data : option clip) (i : nat) : outcome string :=
  Raise KeyboardInterrupt.

(** An endpoint that answers with two records, the first with an empty
    transcript. *)
Definition post_empty_first (data : option clip) (i : nat) : outcome string :=
  Return ("T:" +:+ newline +:+ "T:hello world").

(** A response of two records with a transcript each, and a decoder that is
    interrupted while it decodes the first of them. *)
Definition two_records : string := "T:hello" +:+ newline +:+ "T:world".

Definition post_two_records (data : option clip) (i : nat) : outcome string :=
  Return two_records.

Definition json_interrupted (line : string) : outcome string :=
  if String.eqb line "T:hello" then Raise KeyboardInterrupt
  else json_transcript line.

(** Ten frames of 4096 samples at 16 kHz with two runs of speech; the
    energy of a chunk is read off its first sample. *)
Definition energies : list Z := [0; 5; 5; 0; 0; 5; 5; 0; 0; 0]%Z.

Definition wave_sample : Detector.wave Z :=
  {| Detector.sampwidth := 2;
     Detector.framerate := 16000;
     Detector.nchannels := 1;
     Detector.frames := flat_map (fun e => repeat e (Pos.to_nat 4096)) energies |}.

Definition rms (chunk : list Z) (width : Z) : Z := hd 0%Z chunk.

Definition regions : list region :=
  let cd := inject_Z 4096 / inject_Z 16000 in
  [(Detector.advance cd 1 0, Detector.advance cd 3 0);
   (Detector.advance cd 5 0, Detector.advance cd 7 0)].

Definition extract_audio (source_path : string) : outcome (string * Z) :=
  Return ("/tmp/audio.wav"%string, 16000%Z).

Definition wave_open (path : string) : Detector.wave Z := wave_sample.

(** A conversion tool that works, and one that exits non-zero on clips that
    start in the first half second. *)
Definition ffmpeg_ok (path : string) (start duration : Q) : outcome clip :=
  Return "flac"%string.

Definition ffmpeg_failing (path : string) (start duration : Q) : outcome clip :=
  if Qle_bool start (1 # 2) then Raise CalledProcessError
  else Return "flac"%string.

(** A conversion tool whose every invocation is interrupted. *)
Definition ffmpeg_interrupted (path : string) (start duration : Q) : outcome clip :=
  Raise KeyboardInterrupt.

Definition post (language : string) (rate : Z) : option clip -> nat -> outcome string :=
  post_flaky.

Definition formatter (subtitles : list (region * string)) : string :=
  String.concat newline (map snd subtitles).

Definition FORMATTERS : gmap string (list (region * string) -> string) :=
  {[ "srt"%string := formatter ]}.

Definition splitext (path : string) : string * string := (path, EmptyString).

(** The workers complete in reverse order. *)
Definition completion (s : Pipeline.stage) : list nat := [1; 0]%nat.

Definition world0 : Pipeline.world :=
  {| Pipeline.files := ∅;
     Pipeline.recognition_tasks := [];
     Pipeline.pool_terminated := false |}.

End Samples.

(** ** More sample collaborators *)

Module MoreSamples.

(** A file system with the input [movie.mp4] and an executable
    [/usr/bin/ffmpeg]. *)
Definition isfile (path : string) : bool :=
  String.eqb path "/usr/bin/ffmpeg" || String.eqb path "movie.mp4".

Definition access_x (path : string) : bool := String.eqb path "/usr/bin/ffmpeg".

(** [os.path.split] and [os.path.join], as far as the samples need them. *)
Definition path_split (path : string) : string * string :=
  if Str.contains "/" path then (path, EmptyString) else (EmptyString, path).

Definition path_join (dir name : string) : string := dir +:+ "/" +:+ name.

(** [PATH] is [/usr/local/bin:"/usr/bin"], the second entry in double
    quotes. *)
Definition environ : gmap string string :=
  {[ "PATH"%string :=
       "/usr/local/bin:" +:+ String "034" ("/usr/bin" +:+ String "034" EmptyString) ]}.

Definition check_output (command : list string) : outcome string :=
  Return EmptyString.

Definition shell0 : ExtractAudio.shell :=
  {| ExtractAudio.created := [];
     ExtractAudio.printed := [];
     ExtractAudio.commands := [] |}.

(** A translation service that answers every sentence with [hola]. *)
Definition execute (sentence : string)
  : outcome (gmap string (list (gmap string string))) :=
  Return {[ "translations"%string := [ {[ "translatedText"%string := "hola"%string ]} ] ]}.

(** The tables and the arguments of a run of [main]. *)
Definition FORMATTERS : list (string * (list (region * string) -> string)) :=
  [("srt"%string, Samples.formatter)].

Definition LANGUAGE_CODES : gmap string string :=
  {[ "en"%string := "English"%string ]}.

Definition read_version : outcome string := Return "0.1"%string.

Definition int_of (s : string) : outcome Z := Return 10%Z.

Definition args0 : Main.args :=
  {| Main.list_formats := false;
     Main.list_languages := false;
     Main.format := "srt";
     Main.src_language := "en";
     Main.concurrency := "10";
     Main.output := None;
     Main.source := "movie.mp4" |}.

Definition args_languages : Main.args :=
  {| Main.list_formats := false;
     Main.list_languages := true;
     Main.format := "srt";
     Main.src_language := "en";
     Main.concurrency := "10";
     Main.output := None;
     Main.source := "movie.mp4" |}.

(** [main] over the sample collaborators, for a conversion tool and an
    interrupt. *)
Definition main (run_ffmpeg : string -> Q -> Q -> outcome clip)
    (interrupt : option (Pipeline.stage * nat)) (a : Main.args) (w : Pipeline.world)
  : Pipeline.world * list string * outcome Z :=
  Main.main Samples.rms Samples.extract_audio Samples.wave_open run_ffmpeg
    Samples.post Samples.json_transcript Samples.upper Samples.splitext
    Samples.completion interrupt FORMATTERS LANGUAGE_CODES read_version int_of a w.

End MoreSamples.

(** * Properties *)

(** ** The silence threshold *)

Module PercentileFacts.
Import Percentile.

Lemma sorted_Permutation (l l' : list Z) : l ≡ₚ l' -> sorted l = sorted l'.
Proof.
  intros Hp. unfold sorted.
  apply (Sorted_unique Z.le).
  - apply Sorted_merge_sort; apply _.
  - apply Sorted_merge_sort; apply _.
  - rewrite !merge_sort_Permutation. exact Hp.
Qed.

Lemma sorted_of_order_statistics (s l : list Z) :
  Sorted Z.le s -> s ≡ₚ l -> sorted l = s.
Proof.
  intros Hs Hp. unfold sorted.
  apply (Sorted_unique Z.le); [apply Sorted_merge_sort; apply _ | exact Hs |].
  rewrite merge_sort_Permutation. symmetry. exact Hp.
Qed.

Lemma py_index_in_range (arr : list Z) (i : Z) :
  (0 <= i < Z.of_nat (length arr))%Z ->
  py_index arr i = Return (nth (Z.to_nat i) arr 0%Z).
Proof.
  intros [H0 Hlt]. unfold py_index.
  destruct (i <? 0)%Z eqn:E; [apply Z.ltb_lt in E; lia |].
  rewrite E.
  destruct (arr !! Z.to_nat i) as [x|] eqn:L.
  - f_equal. symmetry. apply nth_lookup_Some with (d := 0%Z) in L. exact L.
  - apply lookup_ge_None in L. lia.
Qed.

Lemma py_index_empty (i : Z) : py_index [] i = Raise IndexError.
Proof.
  unfold py_index.
  destruct (_ <? 0)%Z; [reflexivity |].
  rewrite lookup_nil. reflexivity.
Qed.

(** The rank of a non-empty sample lies between the first and the last
    position. *)
Lemma rank_bounds (n : nat) (p : Q) :
  (0 < n)%nat -> 0 <= p -> p <= 1 ->
  let k := (inject_Z (Z.of_nat n) - 1) * p in
  0 <= k /\ (0 <= Qfloor k)%Z /\ (Qfloor k <= Qceiling k)%Z
  /\ (Qceiling k < Z.of_nat n)%Z.
Proof.
  intros Hn Hp0 Hp1 k.
  assert (Hn1 : 0 <= inject_Z (Z.of_nat n) - 1).
  { assert (H1 : inject_Z 1 <= inject_Z (Z.of_nat n)) by (rewrite <- Zle_Qle; lia).
    change (inject_Z 1) with 1 in H1. lra. }
  assert (Hk0 : 0 <= k) by (unfold k; apply Qmult_le_0_compat; assumption).
  assert (Hk1 : k <= inject_Z (Z.of_nat n - 1)).
  { assert (Heq : inject_Z (Z.of_nat n - 1) == inject_Z (Z.of_nat n) - 1).
    { unfold Z.sub. rewrite inject_Z_plus, inject_Z_opp. reflexivity. }
    rewrite Heq. unfold k. nra. }
  repeat split.
  - exact Hk0.
  - change 0%Z with (Qfloor 0). apply Qfloor_resp_le. exact Hk0.
  - rewrite Zle_Qle. apply Qle_trans with k; [apply Qfloor_le | apply Qle_ceiling].
  - apply Qceiling_resp_le in Hk1. rewrite Qceiling_Z in Hk1. lia.
Qed.

Lemma percentile_standard (energies s : list Z) (p : Q) :
  Sorted Z.le s -> s ≡ₚ energies -> energies <> [] -> 0 <= p -> p <= 1 ->
  percentile energies p = Return (standard_percentile s p).
Proof.
  intros Hs Hperm Hne Hp0 Hp1.
  unfold percentile, standard_percentile, order_statistic.
  rewrite (sorted_of_order_statistics s energies Hs Hperm).
  assert (Hlen : (0 < length s)%nat).
  { destruct s; [| simpl; lia].
    apply Permutation_nil_l in Hperm. congruence. }
  destruct (rank_bounds (length s) p Hlen Hp0 Hp1) as (Hk0 & Hf0 & Hfc & Hcn).
  set (k := (inject_Z (Z.of_nat (length s)) - 1) * p) in *.
  destruct (Qfloor k =? Qceiling k)%Z eqn:E.
  - unfold int_of. apply Qle_bool_iff in Hk0. rewrite Hk0.
    rewrite py_index_in_range by lia. reflexivity.
  - rewrite !py_index_in_range by lia. reflexivity.
Qed.

Lemma percentile_Permutation (l l' : list Z) (p : Q) :
  l ≡ₚ l' -> percentile l p = percentile l' p.
Proof.
  intros Hp. unfold percentile. rewrite (sorted_Permutation l l' Hp). reflexivity.
Qed.

Lemma percentile_empty (p : Q) : percentile [] p = Raise IndexError.
Proof.
  unfold percentile. change (sorted []) with (@nil Z).
  destruct (_ =? _)%Z; rewrite !py_index_empty; reflexivity.
Qed.

(** C9, as stated, fails: for the empty list of energies [percentile] raises
    [IndexError], so there is no threshold to compare with the formula. *)
Lemma empty_list_has_no_threshold : percentile [] (1 # 5) = Raise IndexError.
Proof. reflexivity. Qed.

(** C9, amended.  The threshold [percentile energies 0.2] of a non-empty
    list of frame energies is the standard linear-interpolation percentile
    of its order statistics [s] (the energies in non-decreasing order), and
    reordering the energies does not change the result of [percentile]. *)
Theorem threshold_is_standard_percentile :
  (forall energies s : list Z,
     energies <> [] -> Sorted Z.le s -> s ≡ₚ energies ->
     percentile energies (1 # 5) = Return (standard_percentile s (1 # 5)))
  /\ (forall energies energies' : list Z,
       energies' ≡ₚ energies ->
       percentile energies' (1 # 5) = percentile energies (1 # 5)).
Proof.
  split.
  - intros energies s Hne Hs Hp. apply percentile_standard; done.
  - intros energies energies' Hp. by apply percentile_Permutation.
Qed.

Lemma threshold_is_standard_percentile_witness :
  percentile [40; 10; 30; 20]%Z (1 # 5)
  = Return (standard_percentile [10; 20; 30; 40]%Z (1 # 5))
  /\ percentile [20; 30; 10; 40]%Z (1 # 5) = percentile [40; 10; 30; 20]%Z (1 # 5).
Proof.
  split.
  - apply (proj1 threshold_is_standard_percentile
             [40; 10; 30; 20]%Z [10; 20; 30; 40]%Z).
    + discriminate.
    + compute_done.
    + compute_done.
  - apply (proj2 threshold_is_standard_percentile
             [40; 10; 30; 20]%Z [20; 30; 10; 40]%Z).
    compute_done.
Defined.

End PercentileFacts.

(** ** The sweep *)

Module DetectorFacts.
Import Detector.

Lemma Qle_bool_false (x y : Q) : Qle_bool x y = false -> y < x.
Proof. intros E. apply Qnot_le_lt. rewrite <- Qle_bool_iff. congruence. Qed.

Lemma Qle_bool_true (x y : Q) : x <= y -> Qle_bool x y = true.
Proof. apply Qle_bool_iff. Qed.

Lemma Qlt_bool_false (x y : Q) : y < x -> Qle_bool x y = false.
Proof.
  intros H. destruct (Qle_bool x y) eqn:E; [| reflexivity].
  apply Qle_bool_iff in E. lra.
Qed.

Ltac q_tests :=
  repeat match goal with
    | H : Qle_bool _ _ = true |- _ => apply Qle_bool_iff in H
    | H : Qle_bool _ _ = false |- _ => apply Qle_bool_false in H
    | H : Qeq_bool _ _ = true |- _ => apply Qeq_bool_iff in H
    | H : Qeq_bool _ _ = false |- _ => apply Qeq_bool_neq in H
    end.

Lemma truthy_positive (t : Q) : 0 < t -> truthy (Some t) = true.
Proof.
  intros H. unfold truthy. destruct (Qeq_bool t 0) eqn:E; [| reflexivity].
  q_tests. lra.
Qed.

Lemma truthy_zero (t : Q) : t == 0 -> truthy (Some t) = false.
Proof.
  intros H. unfold truthy. apply Qeq_bool_iff in H. rewrite H. reflexivity.
Qed.

(** *** Elapsed time *)

Lemma advance_succ (cd : Q) (n : nat) (t : Q) :
  advance cd n (t + cd) = advance cd n t + cd.
Proof.
  induction n as [| n IH]; [reflexivity |].
  change (advance cd n (t + cd) + cd = advance cd n t + cd + cd).
  rewrite IH. reflexivity.
Qed.

Lemma advance_add (cd : Q) (n m : nat) (t : Q) :
  advance cd (n + m) t = advance cd m (advance cd n t).
Proof.
  rewrite Nat.add_comm. unfold advance. apply Nat.iter_add.
Qed.

Lemma advance_value (cd : Q) (n : nat) (t : Q) :
  advance cd n t == t + inject_Z (Z.of_nat n) * cd.
Proof.
  induction n as [| n IH].
  - unfold advance. cbn. ring.
  - change (advance cd (S n) t) with (advance cd n t + cd).
    rewrite IH, Nat2Z.inj_succ. unfold Z.succ. rewrite inject_Z_plus.
    change (inject_Z 1) with 1. ring.
Qed.

Lemma advance_mono (cd : Q) (n m : nat) (t : Q) :
  0 <= cd -> (n <= m)%nat -> advance cd n t <= advance cd m t.
Proof.
  intros Hcd Hnm. induction Hnm as [| m Hnm IH]; [lra |].
  change (advance cd (S m) t) with (advance cd m t + cd). lra.
Qed.

Lemma advance_positive (cd : Q) (n : nat) :
  0 < cd -> (0 < n)%nat -> 0 < advance cd n 0.
Proof.
  intros Hcd Hn. destruct n as [| n]; [lia |].
  change (advance cd (S n) 0) with (advance cd n 0 + cd).
  assert (advance cd 0 0 <= advance cd n 0) by (apply advance_mono; [lra | lia]).
  unfold advance in H at 1. cbn in H. lra.
Qed.

Section Sweep.
Variables (cd min max thr : Q).

Local Abbreviation step := (step cd min max thr).
Local Abbreviation run := (run cd min max thr).
Local Abbreviation silent := (fun e => is_silence thr e = true).
Local Abbreviation speech := (fun e => is_silence thr e = false).

Lemma run_app (st : sweep) (l1 l2 : list Z) :
  run st (l1 ++ l2) = run (run st l1) l2.
Proof. unfold Detector.run. apply fold_left_app. Qed.

Lemma run_cons (st : sweep) (e : Z) (es : list Z) :
  run st (e :: es) = run (step st e) es.
Proof. reflexivity. Qed.

(** *** The four cases of an iteration *)

(** No region open, silent frame: nothing but the clock moves. *)
Lemma step_idle (st : sweep) (e : Z) :
  truthy (region_start st) = false -> is_silence thr e = true ->
  step st e = {| elapsed_time := elapsed_time st + cd;
                 regions := regions st;
                 region_start := region_start st |}.
Proof.
  intros Ht Hs. unfold Detector.step. rewrite Hs.
  destruct st as [now rs [s|]]; cbn in *; [rewrite Ht |]; reflexivity.
Qed.

(** No region open, speech frame: a region opens at the current time. *)
Lemma step_open (st : sweep) (e : Z) :
  truthy (region_start st) = false -> is_silence thr e = false ->
  step st e = {| elapsed_time := elapsed_time st + cd;
                 regions := regions st;
                 region_start := Some (elapsed_time st) |}.
Proof.
  intros Ht Hs. unfold Detector.step. rewrite Hs.
  destruct st as [now rs [s|]]; cbn in *; [rewrite Ht |]; reflexivity.
Qed.

(** A region is open and stays open: on a speech frame below the maximum
    size, and on any frame below the minimum size. *)
Lemma step_hold (st : sweep) (e : Z) (s : Q) :
  region_start st = Some s -> truthy (Some s) = true ->
  (is_silence thr e = false /\ elapsed_time st - s < max)
  \/ elapsed_time st - s < min ->
  step st e = {| elapsed_time := elapsed_time st + cd;
                 regions := regions st;
                 region_start := Some s |}.
Proof.
  intros Ers Ht Hcase. unfold Detector.step.
  destruct st as [now rs rs0]; cbn in *; subst rs0. rewrite Ht.
  destruct Hcase as [[Hs Hmax] | Hmin].
  - rewrite Hs, (Qlt_bool_false _ _ Hmax). reflexivity.
  - rewrite (Qlt_bool_false _ _ Hmin).
    destruct (_ && _); reflexivity.
Qed.

(** A region is open and is emitted: on a silent frame, or when the
    maximum size is reached, provided the minimum size is reached. *)
Lemma step_emit (st : sweep) (e : Z) (s : Q) :
  region_start st = Some s -> truthy (Some s) = true ->
  is_silence thr e = true \/ max <= elapsed_time st - s ->
  min <= elapsed_time st - s ->
  step st e = {| elapsed_time := elapsed_time st + cd;
                 regions := regions st ++ [(s, elapsed_time st)];
                 region_start := None |}.
Proof.
  intros Ers Ht Hcase Hmin. unfold Detector.step.
  destruct st as [now rs rs0]; cbn in *; subst rs0. rewrite Ht.
  rewrite (Qle_bool_true _ _ Hmin).
  destruct Hcase as [Hs | Hmax].
  - rewrite Hs, orb_true_r. reflexivity.
  - rewrite (Qle_bool_true _ _ Hmax). reflexivity.
Qed.

Lemma elapsed_time_step (st : sweep) (e : Z) :
  elapsed_time (step st e) = elapsed_time st + cd.
Proof.
  unfold Detector.step.
  destruct (region_start st); repeat (destruct (_ : bool)); reflexivity.
Qed.

Lemma elapsed_time_run (st : sweep) (es : list Z) :
  elapsed_time (run st es) = advance cd (length es) (elapsed_time st).
Proof.
  revert st. induction es as [| e es IH]; intros st; [reflexivity |].
  rewrite run_cons, IH, elapsed_time_step. cbn [length].
  rewrite advance_succ. reflexivity.
Qed.

(** *** Blocks of frames *)

Lemma run_idle (st : sweep) (es : list Z) :
  truthy (region_start st) = false -> Forall silent es ->
  run st es = {| elapsed_time := advance cd (length es) (elapsed_time st);
                 regions := regions st;
                 region_start := region_start st |}.
Proof.
  revert st. induction es as [| e es IH]; intros st Ht Hs.
  - destruct st; reflexivity.
  - inversion Hs as [| ? ? He Hes]; subst.
    rewrite run_cons, (step_idle st e Ht He), IH by assumption.
    cbn [length elapsed_time regions region_start].
    rewrite advance_succ. reflexivity.
Qed.

Lemma run_hold (st : sweep) (es : list Z) (s : Q) :
  region_start st = Some s -> truthy (Some s) = true ->
  (forall j e, es !! j = Some e ->
     (is_silence thr e = false /\ advance cd j (elapsed_time st) - s < max)
     \/ advance cd j (elapsed_time st) - s < min) ->
  run st es = {| elapsed_time := advance cd (length es) (elapsed_time st);
                 regions := regions st;
                 region_start := Some s |}.
Proof.
  revert st. induction es as [| e es IH]; intros st Ers Ht Hall.
  - destruct st; cbn in *; subst; reflexivity.
  - rewrite run_cons, (step_hold st e s Ers Ht (Hall 0%nat e eq_refl)).
    rewrite IH; cbn [length elapsed_time regions region_start]; try done.
    + rewrite advance_succ. reflexivity.
    + intros j e' Hj. specialize (Hall (S j) e' Hj).
      change (advance cd (S j) (elapsed_time st))
        with (advance cd j (elapsed_time st) + cd) in Hall.
      rewrite advance_succ. exact Hall.
Qed.

(** *** The same, for the state at a frame boundary *)

(** The state on entering frame number [k] (time [k] frames after 0). *)
Local Abbreviation at_frame k regs rs :=
  {| elapsed_time := advance cd k 0; regions := regs; region_start := rs |}.

Lemma initial_at_frame : initial = at_frame 0%nat [] None.
Proof. reflexivity. Qed.

Lemma idle_block (k : nat) (regs : list region) (rs : option Q) (es : list Z) :
  truthy rs = false -> Forall silent es ->
  run (at_frame k regs rs) es = at_frame (k + length es)%nat regs rs.
Proof.
  intros Ht Hs. rewrite run_idle by assumption.
  cbn [elapsed_time regions region_start]. rewrite advance_add. reflexivity.
Qed.

Lemma open_frame (k : nat) (regs : list region) (rs : option Q) (e : Z) :
  truthy rs = false -> is_silence thr e = false ->
  step (at_frame k regs rs) e = at_frame (S k) regs (Some (advance cd k 0)).
Proof. intros Ht Hs. rewrite step_open by assumption. reflexivity. Qed.

Lemma hold_block (k : nat) (regs : list region) (s : Q) (es : list Z) :
  truthy (Some s) = true ->
  (forall j e, es !! j = Some e ->
     (is_silence thr e = false /\ advance cd (k + j) 0 - s < max)
     \/ advance cd (k + j) 0 - s < min) ->
  run (at_frame k regs (Some s)) es = at_frame (k + length es)%nat regs (Some s).
Proof.
  intros Ht Hall. rewrite (run_hold _ _ s); try done.
  - cbn [elapsed_time regions region_start]. rewrite advance_add. reflexivity.
  - intros j e Hj. cbn [elapsed_time]. rewrite <- advance_add. eauto.
Qed.

Lemma emit_frame (k : nat) (regs : list region) (s : Q) (e : Z) :
  truthy (Some s) = true ->
  is_silence thr e = true \/ max <= advance cd k 0 - s ->
  min <= advance cd k 0 - s ->
  step (at_frame k regs (Some s)) e
  = at_frame (S k) (regs ++ [(s, advance cd k 0)]) None.
Proof. intros Ht Hcase Hmin. rewrite (step_emit _ _ s); done. Qed.

(** The regions already emitted are never changed. *)
Lemma regions_step_extend (st : sweep) (e : Z) :
  exists more, regions (step st e) = regions st ++ more.
Proof.
  unfold Detector.step.
  destruct (region_start st); repeat (destruct (_ : bool)); cbn;
    first [by exists []; rewrite app_nil_r | by eexists].
Qed.

Lemma regions_run_extend (st : sweep) (es : list Z) :
  exists more, regions (run st es) = regions st ++ more.
Proof.
  revert st. induction es as [| e es IH]; intros st.
  - exists []. by rewrite app_nil_r.
  - rewrite run_cons. destruct (IH (step st e)) as [m1 H1].
    destruct (regions_step_extend st e) as [m2 H2].
    exists (m2 ++ m1). rewrite H1, H2, app_assoc. reflexivity.
Qed.

(** A stretch of silence [es1] from the start of the stream, then a speech
    frame: a region opens at the end of the silence. *)
Lemma open_after_silence (es1 : list Z) (e : Z) (tail : list Z) :
  Forall silent es1 -> is_silence thr e = false ->
  run initial (es1 ++ e :: tail)
  = run (at_frame (S (length es1)) [] (Some (advance cd (length es1) 0))) tail.
Proof.
  intros Hs He. rewrite run_app, initial_at_frame, idle_block by done.
  rewrite run_cons, open_frame by done. reflexivity.
Qed.

(** *** Runs of speech between silences *)

(** One run of speech that starts after some silence, lasts at least the
    minimum and less than the maximum size, and is followed by silence, is
    the only region. *)
Lemma single_run_swept (es1 es2 : list Z) (e : Z) (es3 : list Z) :
  0 < cd ->
  es1 <> [] -> Forall silent es1 ->
  es2 <> [] -> Forall speech es2 ->
  Forall silent (e :: es3) ->
  let t0 := advance cd (length es1) 0 in
  let t1 := advance cd (length es1 + length es2) 0 in
  min <= t1 - t0 -> t1 - t0 < max ->
  regions (run initial (es1 ++ es2 ++ e :: es3)) = [(t0, t1)].
Proof.
  intros Hcd Hne1 Hs1 Hne2 Hs2 Hs3 t0 t1 Hmin Hmax. subst t0 t1.
  destruct es2 as [| e2 es2]; [done |].
  apply Forall_cons in Hs2 as [He2 Hs2]. apply Forall_cons in Hs3 as [He Hs3].
  assert (Ht0 : truthy (Some (advance cd (length es1) 0)) = true).
  { apply truthy_positive, advance_positive; [done |].
    destruct es1; [done | cbn; lia]. }
  cbn [app]. rewrite open_after_silence by done.
  rewrite run_app, hold_block; try done.
  - replace (S (length es1) + length es2)%nat
      with (length es1 + length (e2 :: es2))%nat by (cbn; lia).
    rewrite run_cons, emit_frame by auto.
    rewrite idle_block by done. reflexivity.
  - intros j e' Hj. left. split.
    + by apply (Forall_lookup_1 _ _ _ _ Hs2 Hj).
    + apply lookup_lt_Some in Hj.
      assert (advance cd (S (length es1) + j) 0
              <= advance cd (length es1 + length (e2 :: es2)) 0).
      { apply advance_mono; [lra | cbn; lia]. }
      lra.
Qed.

(** A run of speech that starts with the first frame of the stream: the
    region opened at time 0 is not seen as open, and the second frame of
    the run opens it again. *)
Lemma run_from_time_zero_swept (e1 e2 : Z) (es2 : list Z) (e : Z) (es3 : list Z) :
  0 < cd ->
  Forall speech (e1 :: e2 :: es2) ->
  Forall silent (e :: es3) ->
  let t1 := advance cd (2 + length es2) 0 in
  min <= t1 - advance cd 1 0 -> t1 - advance cd 1 0 < max ->
  regions (run initial (e1 :: e2 :: es2 ++ e :: es3)) = [(advance cd 1 0, t1)].
Proof.
  intros Hcd Hs2 Hs3 t1 Hmin Hmax. subst t1.
  apply Forall_cons in Hs2 as [He1 Hs2]. apply Forall_cons in Hs2 as [He2 Hs2].
  apply Forall_cons in Hs3 as [He Hs3].
  rewrite run_cons, initial_at_frame, open_frame by done.
  rewrite run_cons, open_frame by (by try apply truthy_zero).
  assert (Ht : truthy (Some (advance cd 1 0)) = true).
  { apply truthy_positive, advance_positive; [done | lia]. }
  rewrite run_app, hold_block; try done.
  - rewrite run_cons, emit_frame by auto.
    rewrite idle_block by done. reflexivity.
  - intros j e' Hj. left. split.
    + by apply (Forall_lookup_1 _ _ _ _ Hs2 Hj).
    + apply lookup_lt_Some in Hj.
      assert (advance cd (2 + j) 0 <= advance cd (2 + length es2) 0).
      { apply advance_mono; [lra | lia]. }
      lra.
Qed.

(** A run of speech after some silence, followed by silence [es3]: as long
    as the time since the start of the run stays below the minimum size,
    nothing is emitted and the region stays open, however long ago the
    speech ended. *)
Lemma held_open_swept (es1 es2 es3 : list Z) :
  0 < cd ->
  es1 <> [] -> Forall silent es1 ->
  es2 <> [] -> Forall speech es2 ->
  let t0 := advance cd (length es1) 0 in
  let k := (length es1 + length es2 + length es3)%nat in
  advance cd k 0 - t0 - cd < min ->
  run initial (es1 ++ es2 ++ es3) = at_frame k [] (Some t0).
Proof.
  intros Hcd Hne1 Hs1 Hne2 Hs2 t0 k Hmin. subst t0 k.
  destruct es2 as [| e2 es2]; [done |].
  apply Forall_cons in Hs2 as [He2 Hs2].
  cbn [app]. rewrite open_after_silence by done.
  rewrite hold_block.
  - f_equal. f_equal. rewrite length_app. cbn. lia.
  - apply truthy_positive, advance_positive; [done |].
    destruct es1; [done | cbn; lia].
  - intros j e' Hj. right. apply lookup_lt_Some in Hj.
    rewrite length_app in Hj.
    set (k := (length es1 + length (e2 :: es2) + length es3)%nat) in *.
    assert (Hk : k = S (S (length es1) + (length es2 + length es3 - 1))%nat).
    { unfold k. cbn. lia. }
    rewrite Hk in Hmin.
    change (advance cd (S ?n) 0) with (advance cd n 0 + cd) in Hmin.
    assert (advance cd (S (length es1) + j) 0
            <= advance cd (S (length es1) + (length es2 + length es3 - 1)) 0).
    { apply advance_mono; [lra | lia]. }
    lra.
Qed.

End Sweep.

(** C5. A single run of speech that starts at time 0: the first frame sets
    [region_start] to 0, which the next iteration reads as no region being
    open, so the region is opened again one frame later
    ([run_from_time_zero_swept]).  On three frames of speech followed by
    two of silence (16 kHz, so 0.256 s per frame) the region found is
    (0.256, 0.768), not (0, 0.768). *)
Theorem run_at_time_zero_starts_late :
  exists t0 t1,
    detect (32 # 125) (1 # 2) 6 [5; 5; 5; 0; 0]%Z = Return [(t0, t1)]
    /\ t0 == 32 # 125 /\ t1 == 96 # 125 /\ ~ t0 == 0.
Proof.
  eexists _, _. split; [vm_compute; reflexivity |].
  repeat split; try reflexivity. intros H. discriminate H.
Qed.

(** Away from time 0 the single run is found as stated. *)
Lemma single_run_detected (cd min max thr : Q) (es1 es2 : list Z) (e : Z)
    (es3 : list Z) :
  let energies := es1 ++ es2 ++ e :: es3 in
  let t0 := advance cd (length es1) 0 in
  let t1 := advance cd (length es1 + length es2) 0 in
  0 < cd ->
  Percentile.percentile energies (1 # 5) = Return thr ->
  es1 <> [] -> Forall (fun x => is_silence thr x = true) es1 ->
  es2 <> [] -> Forall (fun x => is_silence thr x = false) es2 ->
  Forall (fun x => is_silence thr x = true) (e :: es3) ->
  min <= t1 - t0 -> t1 - t0 < max ->
  detect cd min max energies = Return [(t0, t1)].
Proof.
  intros energies t0 t1 Hcd Hthr Hne1 Hs1 Hne2 Hs2 Hs3 Hmin Hmax.
  unfold detect. rewrite Hthr. cbn.
  f_equal. by apply single_run_swept.
Qed.

(** C4. The empty stream: no frame, so no chunk and no energy, and the
    threshold computation indexes an empty list. *)
Theorem empty_stream_raises_IndexError {frame : Type} (rms : list frame -> Z -> Z)
    (sample_width n_channels : Z) (frame_width : positive)
    (min_region_size max_region_size : Q) :
  find_speech_regions rms
    {| sampwidth := sample_width; framerate := 16000;
       nchannels := n_channels; frames := [] |}
    frame_width min_region_size max_region_size
  = Raise IndexError.
Proof.
  unfold find_speech_regions. cbn [framerate frames sampwidth nchannels length].
  change (16000 =? 0)%Z with false. cbv iota.
  assert (Hn : ceil_div (Z.of_nat 0) (Z.pos frame_width) = 0%Z).
  { unfold ceil_div.
    assert (Hz : inject_Z (Z.of_nat 0) / inject_Z (Z.pos frame_width) == 0).
    { change (inject_Z (Z.of_nat 0)) with 0. unfold Qdiv. ring. }
    rewrite Hz. reflexivity. }
  rewrite Hn. cbn [Z.to_nat readframes map].
  unfold detect. rewrite PercentileFacts.percentile_empty. reflexivity.
Qed.

(** C1, as stated, fails: one frame of speech (0.256 s, less than the
    minimum of 0.5 s) between silences is followed by a region that covers
    the frame and the silence after it. *)
Lemma short_run_emits_a_region :
  exists t0 t1,
    detect (32 # 125) (1 # 2) 6 [0; 5; 0; 0; 0]%Z = Return [(t0, t1)]
    /\ t0 == 32 # 125 /\ t1 == 96 # 125.
Proof.
  eexists _, _. split; [vm_compute; reflexivity |].
  split; reflexivity.
Qed.

(** When the stream ends before the minimum size is reached, the short run
    yields no region. *)
Lemma short_run_at_end_of_stream (cd min max thr : Q) (es1 es2 es3 : list Z) :
  let energies := es1 ++ es2 ++ es3 in
  let t0 := advance cd (length es1) 0 in
  let t2 := advance cd (length es1 + length es2 + length es3) 0 in
  0 < cd ->
  Percentile.percentile energies (1 # 5) = Return thr ->
  es1 <> [] -> Forall (fun x => is_silence thr x = true) es1 ->
  es2 <> [] -> Forall (fun x => is_silence thr x = false) es2 ->
  t2 - t0 - cd < min ->
  detect cd min max energies = Return [].
Proof.
  intros energies t0 t2 Hcd Hthr Hne1 Hs1 Hne2 Hs2 Hlt.
  unfold detect. rewrite Hthr. cbn. f_equal.
  unfold energies. by rewrite held_open_swept.
Qed.

(** C6, as stated, fails: a run of 25 frames of speech (6.4 s) gives one
    region, and that region is longer than the maximum of 6 s. *)
Lemma long_run_single_region_over_max :
  exists t0 t1,
    detect (32 # 125) (1 # 2) 6 (repeat 0 7 ++ repeat 5 25 ++ [0])%Z
    = Return [(t0, t1)]
    /\ 6 < t1 - t0.
Proof.
  eexists _, _. split; [vm_compute; reflexivity |].
  vm_compute. reflexivity.
Qed.

End DetectorFacts.

(** ** The detector on the arithmetic of the code

    [Numeric] is the detector over an arithmetic that is a parameter.  The
    facts of this part follow the structure of the loop and assume nothing
    of the arithmetic, so they hold for [binary64], the floats the code
    computes on; the tests [elapsed_time - region_start >= size] are taken
    as the code evaluates them. *)

Module NumericFacts.
Import Number Numeric.

Section Sweep.
Context {T : Type}.
Variable A : arithmetic T.
Variables (cd min max : T).
Variable thr : number T.

Local Abbreviation step := (Numeric.step A cd min max thr).
Local Abbreviation run := (Numeric.run A cd min max thr).
Local Abbreviation advance := (Numeric.advance A cd).
Local Abbreviation closes := (Numeric.closes A min max thr).
Local Abbreviation silent := (Numeric.is_silence A thr).
Local Abbreviation zero := (of_int A 0).

Lemma run_over_app (st : sweep) (es1 es2 : list Z) :
  run st (es1 ++ es2) = run (run st es1) es2.
Proof. apply fold_left_app. Qed.

Lemma run_over_cons (st : sweep) (e : Z) (es : list Z) :
  run st (e :: es) = run (step st e) es.
Proof. reflexivity. Qed.

Lemma run_over_snoc (st : sweep) (es : list Z) (e : Z) :
  run st (es ++ [e]) = step (run st es) e.
Proof. by rewrite run_over_app. Qed.

Lemma advance_next (n : nat) (t : T) : advance (S n) t = add A (advance n t) cd.
Proof. reflexivity. Qed.

Lemma advance_shift (n : nat) (t : T) : advance n (add A t cd) = advance (S n) t.
Proof.
  induction n as [| n IH]; [reflexivity |].
  change (add A (advance n (add A t cd)) cd = add A (advance (S n) t) cd).
  by rewrite IH.
Qed.

Lemma advance_plus (m n : nat) (t : T) : advance (m + n) t = advance m (advance n t).
Proof.
  induction m as [| m IH]; [reflexivity |].
  change (add A (advance (m + n) t) cd = add A (advance m (advance n t)) cd).
  by rewrite IH.
Qed.

Lemma elapsed_after_step (st : sweep) (e : Z) :
  elapsed_time (step st e) = add A (elapsed_time st) cd.
Proof.
  destruct st as [now found [s |]]; unfold Numeric.step; cbn.
  - repeat (match goal with |- context [if ?b then _ else _] => destruct b end);
      reflexivity.
  - destruct (negb _); reflexivity.
Qed.

Lemma elapsed_after_run (st : sweep) (es : list Z) :
  elapsed_time (run st es) = advance (length es) (elapsed_time st).
Proof.
  revert st. induction es as [| e es IH]; intros st; [reflexivity |].
  rewrite run_over_cons, IH, elapsed_after_step. cbn [length]. apply advance_shift.
Qed.

(** The four cases of a frame. *)
Lemma frame_idle (st : sweep) (e : Z) :
  truthy A (region_start st) = false -> silent e = true ->
  step st e = {| elapsed_time := add A (elapsed_time st) cd;
                 regions := regions st;
                 region_start := region_start st |}.
Proof.
  destruct st as [now found [s |]]; unfold Numeric.step; cbn [region_start];
    intros Hrs He; rewrite He; [| reflexivity].
  rewrite Hrs. reflexivity.
Qed.

Lemma frame_opens (st : sweep) (e : Z) :
  truthy A (region_start st) = false -> silent e = false ->
  step st e = {| elapsed_time := add A (elapsed_time st) cd;
                 regions := regions st;
                 region_start := Some (elapsed_time st) |}.
Proof.
  destruct st as [now found [s |]]; unfold Numeric.step; cbn [region_start];
    intros Hrs He; rewrite He; [| reflexivity].
  rewrite Hrs. reflexivity.
Qed.

Lemma frame_holds (st : sweep) (s : T) (e : Z) :
  region_start st = Some s -> truthy A (Some s) = true ->
  closes s (elapsed_time st) e = false ->
  step st e = {| elapsed_time := add A (elapsed_time st) cd;
                 regions := regions st;
                 region_start := Some s |}.
Proof.
  destruct st as [now found start]; cbn [region_start elapsed_time regions].
  intros -> Ht Hc. unfold Numeric.step, Numeric.closes in *.
  cbn [region_start elapsed_time regions]. rewrite Ht.
  rewrite andb_true_l, andb_true_r. cbn [negb andb].
  destruct (reached A max s now || silent e); cbn in *; [| reflexivity].
  rewrite Hc. reflexivity.
Qed.

Lemma frame_emits (st : sweep) (s : T) (e : Z) :
  region_start st = Some s -> truthy A (Some s) = true ->
  closes s (elapsed_time st) e = true ->
  step st e = {| elapsed_time := add A (elapsed_time st) cd;
                 regions := regions st ++ [(s, elapsed_time st)];
                 region_start := None |}.
Proof.
  destruct st as [now found start]; cbn [region_start elapsed_time regions].
  intros -> Ht Hc. unfold Numeric.step, Numeric.closes in *.
  cbn [region_start elapsed_time regions]. rewrite Ht.
  rewrite andb_true_l, andb_true_r.
  apply andb_true_iff in Hc as [H1 H2]. rewrite H1, H2. reflexivity.
Qed.

(** A block of frames none of which closes the open region. *)
Lemma frames_hold (st : sweep) (s : T) (held : list Z) :
  region_start st = Some s -> truthy A (Some s) = true ->
  (forall j e, held !! j = Some e ->
               closes s (advance j (elapsed_time st)) e = false) ->
  run st held = {| elapsed_time := advance (length held) (elapsed_time st);
                   regions := regions st;
                   region_start := Some s |}.
Proof.
  revert st. induction held as [| e held IH]; intros st Hrs Ht Hall.
  - cbn. destruct st; cbn in *. by rewrite Hrs.
  - rewrite run_over_cons.
    rewrite (frame_holds st s e) by (try done; apply (Hall 0%nat); reflexivity).
    rewrite IH; try done.
    + cbn [elapsed_time regions length]. by rewrite advance_shift.
    + intros j e' Hj. cbn [elapsed_time]. rewrite advance_shift.
      by apply (Hall (S j)).
Qed.

(** The regions emitted are never taken back. *)
Lemma regions_kept_by_step (st : sweep) (e : Z) :
  exists more, regions (step st e) = regions st ++ more.
Proof.
  destruct st as [now found [s |]]; unfold Numeric.step; cbn.
  - repeat (match goal with |- context [if ?b then _ else _] => destruct b end);
      cbn; first [by exists []; rewrite app_nil_r | by eexists].
  - destruct (negb _); exists []; by rewrite app_nil_r.
Qed.

Lemma regions_kept_by_run (st : sweep) (es : list Z) :
  exists more, regions (run st es) = regions st ++ more.
Proof.
  revert st. induction es as [| e es IH]; intros st.
  - exists []. by rewrite app_nil_r.
  - rewrite run_over_cons. destruct (IH (step st e)) as [m1 H1].
    destruct (regions_kept_by_step st e) as [m2 H2].
    exists (m2 ++ m1). by rewrite H1, H2, app_assoc.
Qed.

(** The invariant of the loop. *)
Lemma in_order_weaken (k k' : nat) (r : T * T) :
  (k <= k')%nat -> in_order A cd min max k r -> in_order A cd min max k' r.
Proof.
  intros Hk (i & j & Hij & Hr & Hmin & Hmax). exists i, j.
  repeat split; try done; lia.
Qed.

Lemma in_order_initially : sweep_invariant A cd min max 0 (initial A).
Proof. repeat split; [constructor | done]. Qed.

Section Bounds.
Hypothesis min_le_max : forall x, geb A x max = true -> geb A x min = true.

Lemma in_order_after_step (k : nat) (st : sweep) (e : Z) :
  sweep_invariant A cd min max k st ->
  sweep_invariant A cd min max (S k) (step st e).
Proof.
  intros (Hnow & Hregions & Hopen).
  assert (Hregions' : Forall (in_order A cd min max (S k)) (regions st)).
  { eapply Forall_impl; [exact Hregions |]. intros r. apply in_order_weaken. lia. }
  destruct (truthy A (region_start st)) eqn:Ht.
  - destruct (region_start st) as [s |] eqn:Hrs; [| discriminate].
    destruct (Hopen s eq_refl Ht) as (i & Hi & -> & Hmax).
    destruct (closes (advance i zero) (elapsed_time st) e) eqn:Hc.
    + rewrite (frame_emits st (advance i zero) e) by done.
      split; [cbn; by rewrite Hnow |]. split; [| done]. cbn [regions].
      apply Forall_app. split; [done |]. constructor; [| constructor].
      exists i, k. cbn [fst snd]. rewrite Hnow in *.
      split; [lia |]. split; [done |].
      apply andb_true_iff in Hc as [_ Hmin]. split; [done |].
      intros m Hm. apply Hmax. lia.
    + rewrite (frame_holds st (advance i zero) e) by done.
      split; [cbn; by rewrite Hnow |]. split; [done |]. cbn [region_start].
      intros s' [= <-] _. exists i. split; [lia |]. split; [done |].
      intros m Hm. destruct (decide (m = k)) as [-> | Hne].
      * rewrite <- Hnow. unfold Numeric.closes in Hc.
        destruct (reached A max (advance i zero) (elapsed_time st)) eqn:Hr; [| done].
        apply min_le_max in Hr. unfold Numeric.reached in Hc. by rewrite Hr in Hc.
      * apply Hmax. lia.
  - destruct (silent e) eqn:He.
    + rewrite frame_idle by done.
      split; [cbn; by rewrite Hnow |]. split; [done |]. cbn [region_start].
      intros s Hrs Hs. rewrite Hrs in Ht. congruence.
    + rewrite frame_opens by done.
      split; [cbn; by rewrite Hnow |]. split; [done |]. cbn [region_start].
      intros s [= <-] _. exists k. split; [lia |]. split; [done |].
      intros m Hm. lia.
Qed.

Lemma in_order_after_run (k : nat) (st : sweep) (es : list Z) :
  sweep_invariant A cd min max k st ->
  sweep_invariant A cd min max (k + length es) (run st es).
Proof.
  revert k st. induction es as [| e es IH]; intros k st H.
  - cbn. by rewrite Nat.add_0_r.
  - rewrite run_over_cons. cbn [length]. rewrite Nat.add_succ_r.
    apply (IH (S k)). by apply in_order_after_step.
Qed.

End Bounds.

(** A region that opens at a frame and is held over the frames [held]. *)
Lemma opened_and_held (before : list Z) (e1 : Z) (held : list Z) :
  let st0 := run (initial A) before in
  let t0 := elapsed_time st0 in
  truthy A (region_start st0) = false ->
  is_zero A t0 = false ->
  silent e1 = false ->
  (forall j e, held !! j = Some e -> closes t0 (advance (S j) t0) e = false) ->
  run (initial A) (before ++ e1 :: held)
  = {| elapsed_time := advance (S (length held)) t0;
       regions := regions st0;
       region_start := Some t0 |}.
Proof.
  intros st0 t0 Hrs Hz He1 Hheld.
  rewrite run_over_app, run_over_cons. fold st0. rewrite frame_opens by done. fold t0.
  rewrite (frames_hold _ t0); cbn [elapsed_time regions region_start].
  - by rewrite advance_shift.
  - reflexivity.
  - cbn. by rewrite Hz.
  - intros j e Hj. rewrite advance_shift. by apply Hheld.
Qed.

Lemma opened_held_and_emitted (before : list Z) (e1 : Z) (held : list Z) (e : Z) :
  let st0 := run (initial A) before in
  let t0 := elapsed_time st0 in
  truthy A (region_start st0) = false ->
  is_zero A t0 = false ->
  silent e1 = false ->
  (forall j e', held !! j = Some e' -> closes t0 (advance (S j) t0) e' = false) ->
  closes t0 (advance (S (length held)) t0) e = true ->
  run (initial A) (before ++ e1 :: held ++ [e])
  = {| elapsed_time := advance (S (S (length held))) t0;
       regions := regions st0 ++ [(t0, advance (S (length held)) t0)];
       region_start := None |}.
Proof.
  intros st0 t0 Hrs Hz He1 Hheld He.
  rewrite app_comm_cons, app_assoc, run_over_snoc.
  rewrite (opened_and_held before e1 held) by done. fold st0 t0.
  rewrite (frame_emits _ t0); cbn [elapsed_time regions region_start]; try done.
  cbn. by rewrite Hz.
Qed.

End Sweep.

(** *** Agreement with the exact detector *)

Lemma inject_Z_pred (n : Z) : inject_Z n - 1 = inject_Z (n - 1).
Proof. unfold Qminus, Qplus, inject_Z. cbn. f_equal. lia. Qed.

Lemma exact_percentile (arr : list Z) (percent : Q) :
  Percentile.percentile arr percent
  = match Numeric.percentile exact arr percent with
    | Return thr => Return (value thr)
    | Raise e => Raise e
    end.
Proof.
  unfold Percentile.percentile, Numeric.percentile. cbv zeta.
  cbn [exact of_int mul sub add floor ceil trunc Numeric.integer].
  rewrite inject_Z_pred.
  set (k := inject_Z _ * percent).
  change (Return (Qfloor k) ≫= ?f) with (f (Qfloor k)). cbv beta.
  change (Return (Qceiling k) ≫= ?f) with (f (Qceiling k)). cbv beta.
  destruct (Qfloor k =? Qceiling k)%Z.
  - change (Return (Percentile.int_of k) ≫= ?f) with (f (Percentile.int_of k)).
    cbv beta. destruct (Percentile.py_index _ _); reflexivity.
  - destruct (Percentile.py_index _ (Qfloor k)); [| reflexivity].
    change (Return ?x ≫= ?f) with (f x). cbv beta.
    destruct (Percentile.py_index _ (Qceiling k)); reflexivity.
Qed.

Lemma exact_is_silence (thr : number Q) (e : Z) :
  Numeric.is_silence exact thr e = Detector.is_silence (value thr) e.
Proof.
  destruct thr as [n | q]; [| reflexivity]. cbn.
  unfold Detector.is_silence, Qle_bool. cbn. by rewrite !Z.mul_1_r.
Qed.

Lemma exact_step (cd min max : Q) (thr : number Q) (st : Numeric.sweep) (e : Z) :
  to_detector (Numeric.step exact cd min max thr st e)
  = Detector.step cd min max (value thr) (to_detector st) e.
Proof.
  unfold Numeric.step, Detector.step. rewrite exact_is_silence.
  destruct st as [now found [s |]]; cbn.
  - unfold Numeric.reached. cbn.
    repeat (match goal with |- context [if ?b then _ else _] => destruct b end);
      reflexivity.
  - destruct (negb _); reflexivity.
Qed.

Lemma exact_run (cd min max : Q) (thr : number Q) (st : Numeric.sweep)
    (es : list Z) :
  to_detector (Numeric.run exact cd min max thr st es)
  = Detector.run cd min max (value thr) (to_detector st) es.
Proof.
  revert st. induction es as [| e es IH]; intros st; [reflexivity |].
  change (to_detector
            (Numeric.run exact cd min max thr
               (Numeric.step exact cd min max thr st e) es)
          = Detector.run cd min max (value thr)
              (Detector.step cd min max (value thr) (to_detector st) e) es).
  by rewrite IH, exact_step.
Qed.

(** Over exact rationals [Numeric.detect] is [Detector.detect]. *)
Lemma exact_detect (cd min max : Q) (energies : list Z) :
  Numeric.detect exact cd min max energies = Detector.detect cd min max energies.
Proof.
  unfold Numeric.detect, Detector.detect.
  change (Numeric.decimal exact (1 # 5)) with (1 # 5).
  rewrite exact_percentile.
  destruct (Numeric.percentile exact energies (1 # 5)) as [thr | e]; [| reflexivity].
  cbn. f_equal.
  change (Detector.initial) with (to_detector (Numeric.initial exact)).
  by rewrite <- exact_run.
Qed.

Lemma exact_find_speech_regions {frame : Type} (rms : list frame -> Z -> Z)
    (reader : Detector.wave frame) (frame_width : positive) (min max : Q) :
  Numeric.find_speech_regions exact rms reader frame_width min max
  = Detector.find_speech_regions rms reader frame_width min max.
Proof.
  unfold Numeric.find_speech_regions, Detector.find_speech_regions.
  destruct (Detector.framerate reader =? 0)%Z; [reflexivity |]. cbn.
  assert (Hc : Qceiling (inject_Z (Z.of_nat (length (Detector.frames reader)))
                         * inject_Z 1 / inject_Z (Z.pos frame_width))
               = Detector.ceil_div (Z.of_nat (length (Detector.frames reader)))
                                   (Z.pos frame_width)).
  { unfold Detector.ceil_div. apply Qceiling_comp. field.
    intros H. discriminate H. }
  rewrite Hc. apply exact_detect.
Qed.

(** *** A short run is held open *)

(** C1, amended.  A run of speech is not discarded when a silent frame
    follows it before the minimum size is reached.  Let the run begin with
    the frame [e1], after any frames [before] that leave no region open, at
    an elapsed time [t0] other than 0: the region opens at [t0].  Over the
    frames [held] that come next, at none of which the test of lines
    195-198 holds (a silent frame at which
    [elapsed_time - region_start >= min_region_size] fails is such a frame,
    and so is a frame of speech before the maximum size is reached), nothing
    is emitted and the marker stays at [t0]: a stream that ends there has no
    region for the run.  At the first frame [e] at which the test holds (the
    frame is silent or the maximum size is reached, and the minimum size is
    reached) the region is emitted from [t0] to the elapsed time of [e] and
    the marker is cleared; the region stays in the output whatever
    follows. *)
Theorem short_run_held_until_min {T : Type} (A : arithmetic T) (cd min max : T)
    (thr : number T) (before : list Z) (e1 : Z) (held : list Z) :
  let sweep := run A cd min max thr (initial A) in
  let t0 := elapsed_time (sweep before) in
  truthy A (region_start (sweep before)) = false ->
  is_zero A t0 = false ->
  is_silence A thr e1 = false ->
  (forall j e, held !! j = Some e ->
     closes A min max thr t0 (advance A cd (S j) t0) e = false) ->
  (regions (sweep (before ++ e1 :: held)) = regions (sweep before)
   /\ region_start (sweep (before ++ e1 :: held)) = Some t0)
  /\ forall e,
       closes A min max thr t0 (advance A cd (S (length held)) t0) e = true ->
       (regions (sweep (before ++ e1 :: held ++ [e]))
        = regions (sweep before) ++ [(t0, advance A cd (S (length held)) t0)]
        /\ region_start (sweep (before ++ e1 :: held ++ [e])) = None)
       /\ forall after,
            percentile A (before ++ e1 :: held ++ e :: after) (decimal A (1 # 5))
            = Return thr ->
            exists later,
              detect A cd min max (before ++ e1 :: held ++ e :: after)
              = Return (regions (sweep before)
                        ++ (t0, advance A cd (S (length held)) t0) :: later).
Proof.
  intros sweep t0 Hrs Hz He1 Hheld. subst sweep t0. split.
  - by rewrite opened_and_held.
  - intros e He.
    pose proof (opened_held_and_emitted A cd min max thr before e1 held e
                  Hrs Hz He1 Hheld He) as Hrun.
    split; [by rewrite Hrun |]. intros after Hthr.
    unfold detect. rewrite Hthr.
    change (Return thr ≫= ?f) with (f thr). cbv beta.
    replace (before ++ e1 :: held ++ e :: after)
      with ((before ++ e1 :: held ++ [e]) ++ after)
      by (by rewrite <- !app_assoc, <- app_comm_cons, <- app_assoc).
    rewrite run_over_app.
    destruct (regions_kept_by_run A cd min max thr
                (run A cd min max thr (initial A) (before ++ e1 :: held ++ [e]))
                after) as [later Hlater].
    exists later. rewrite Hlater, Hrun. cbn [regions].
    by rewrite <- app_assoc.
Qed.

Lemma short_run_held_until_min_witness :
  let cd := decimal binary64 (1 # 20) in
  let min := decimal binary64 (1 # 2) in
  let max := of_int binary64 6 in
  let sweep := run binary64 cd min max (Float (of_int binary64 0)) (initial binary64) in
  (regions (sweep [0; 5; 0; 0; 0; 0; 0; 0; 0; 0; 0; 0]%Z) = []
   /\ region_start (sweep [0; 5; 0; 0; 0; 0; 0; 0; 0; 0; 0; 0]%Z)
      = Some (decimal binary64 (1 # 20)))
  /\ detect binary64 cd min max [0; 5; 0; 0; 0; 0; 0; 0; 0; 0; 0; 0; 0; 0]%Z
     = Return [(decimal binary64 (1 # 20), decimal binary64 (3 # 5))].
Proof.
  destruct (short_run_held_until_min binary64 (decimal binary64 (1 # 20))
              (decimal binary64 (1 # 2)) (of_int binary64 6)
              (Float (of_int binary64 0)) [0%Z] 5%Z (repeat 0%Z 10))
    as [Hheld Hemitted].
  - reflexivity.
  - reflexivity.
  - reflexivity.
  - intros j e Hj.
    do 10 (destruct j as [| j]; [injection Hj as <-; vm_compute; reflexivity |]).
    discriminate.
  - split; [exact Hheld |].
    destruct (Hemitted 0%Z) as [_ Hdetect]; [vm_compute; reflexivity |].
    destruct (Hdetect [0%Z]) as [later Hlater]; [vm_compute; reflexivity |].
    assert (Hnil : later = []).
    { pose proof Hlater as H. vm_compute in H. by injection H as <-. }
    rewrite Hnil in Hlater. exact Hlater.
Defined.

(** *** The size of the regions *)

(** With the defaults of [find_speech_regions] on the floats, a duration
    that passes the test of the maximum size, 6, passes the test of the
    minimum size, 0.5. *)
Lemma binary64_defaults (x : PrimFloat.float) :
  geb binary64 x (of_int binary64 6) = true ->
  geb binary64 x (decimal binary64 (1 # 2)) = true.
Proof.
  cbn [geb binary64]. rewrite !FloatAxioms.leb_spec.
  change (FloatOps.Prim2SF (of_int binary64 6))
    with (SpecFloat.S754_finite false 6755399441055744 (-50)).
  change (FloatOps.Prim2SF (decimal binary64 (1 # 2)))
    with (SpecFloat.S754_finite false 4503599627370496 (-53)).
  unfold SpecFloat.SFleb, SpecFloat.SFcompare.
  destruct (FloatOps.Prim2SF x) as [s | s | | s m e]; try done.
  destruct s; [done |].
  destruct (Z.compare_spec (-50) e) as [<- | Hlt | Hgt]; try done.
  assert (H : (-53 ?= e)%Z = Lt) by (apply Z.compare_lt_iff; lia).
  by rewrite H.
Qed.

(** C6, amended.  A region is closed at a frame boundary, on the tests of
    the code.  When every duration that passes the test of the maximum size
    passes the test of the minimum size ([min_region_size <=
    max_region_size]), every emitted region is in order: it goes from the
    elapsed time of a frame to that of a later frame of the stream, it
    passes the test of the minimum size, and the test of the maximum size
    fails at every frame boundary strictly between its start and its end.
    So a region is closed at the latest at the first frame boundary at which
    the time since its start has reached the maximum size, and it can be
    longer than the maximum size by what the last frame adds.  A run of
    speech [e1 :: held] that opens a region at [t0] and is still running at
    that boundary is cut there, at the frame [e], silent or not: the region
    goes from [t0] to the elapsed time of [e], and [e] opens no region. *)
Theorem long_run_cut_and_bounds {T : Type} (A : arithmetic T) (cd min max : T)
    (thr : number T) :
  (forall x, geb A x max = true -> geb A x min = true) ->
  (forall energies found,
     detect A cd min max energies = Return found ->
     Forall (in_order A cd min max (length energies)) found)
  /\ forall before e1 held e,
       let sweep := run A cd min max thr (initial A) in
       let t0 := elapsed_time (sweep before) in
       truthy A (region_start (sweep before)) = false ->
       is_zero A t0 = false ->
       is_silence A thr e1 = false ->
       (forall j e', held !! j = Some e' ->
          is_silence A thr e' = false
          /\ reached A max t0 (advance A cd (S j) t0) = false) ->
       reached A max t0 (advance A cd (S (length held)) t0) = true ->
       regions (sweep (before ++ e1 :: held ++ [e]))
       = regions (sweep before) ++ [(t0, advance A cd (S (length held)) t0)]
       /\ region_start (sweep (before ++ e1 :: held ++ [e])) = None.
Proof.
  intros Hmm. split.
  - intros energies found Hd. unfold detect in Hd.
    destruct (percentile A energies (decimal A (1 # 5))) as [thr' |];
      [| discriminate].
    cbn in Hd. injection Hd as <-.
    pose proof (in_order_after_run A cd min max thr' Hmm 0 (initial A) energies
                  (in_order_initially A cd min max)) as (_ & H & _).
    exact H.
  - intros before e1 held e sweep t0 Hrs Hz He1 Hheld Hmax. subst sweep t0.
    rewrite opened_held_and_emitted; try done.
    + intros j e' Hj. destruct (Hheld j e' Hj) as [Hs Hr].
      unfold Numeric.closes. by rewrite Hr, Hs.
    + unfold Numeric.closes. rewrite Hmax. cbn. by apply Hmm.
Qed.

Lemma long_run_cut_and_bounds_witness :
  let cd := decimal binary64 (1 # 10) in
  let min := decimal binary64 (1 # 2) in
  let max := of_int binary64 6 in
  let sweep := run binary64 cd min max (Int 0) (initial binary64) in
  Forall (in_order binary64 cd min max 83)
         [(cd, advance binary64 cd 62 (of_int binary64 0))]
  /\ regions (sweep ([0] ++ 5 :: repeat 5 60 ++ [5])%Z)
     = [(cd, advance binary64 cd 62 (of_int binary64 0))]
  /\ region_start (sweep ([0] ++ 5 :: repeat 5 60 ++ [5])%Z) = None.
Proof.
  destruct (long_run_cut_and_bounds binary64 (decimal binary64 (1 # 10))
              (decimal binary64 (1 # 2)) (of_int binary64 6) (Int 0)
              binary64_defaults)
    as [Hbounds Hcut].
  split.
  { apply (Hbounds ([0] ++ repeat 5 62 ++ repeat 0 20)%Z). vm_compute. reflexivity. }
  apply (Hcut [0%Z] 5%Z (repeat 5%Z 60) 5%Z).
  - reflexivity.
  - reflexivity.
  - reflexivity.
  - intros j e Hj.
    do 60 (destruct j as [| j];
           [injection Hj as <-; vm_compute; split; reflexivity |]).
    discriminate.
  - vm_compute. reflexivity.
Defined.

(** *** Speech that lasts to the end of the stream *)

(** X5. A run of speech that opens a region (it begins after frames
    [before] that leave no region open, at an elapsed time other than 0) and
    lasts to the end of the stream without reaching the maximum size is
    dropped: [detect] returns the regions of the frames before the run. *)
Theorem trailing_speech_is_dropped {T : Type} (A : arithmetic T) (cd min max : T)
    (thr : number T) (before : list Z) (e1 : Z) (rest : list Z) :
  let sweep := run A cd min max thr (initial A) in
  let t0 := elapsed_time (sweep before) in
  percentile A (before ++ e1 :: rest) (decimal A (1 # 5)) = Return thr ->
  truthy A (region_start (sweep before)) = false ->
  is_zero A t0 = false ->
  is_silence A thr e1 = false ->
  (forall j e, rest !! j = Some e ->
     is_silence A thr e = false
     /\ reached A max t0 (advance A cd (S j) t0) = false) ->
  detect A cd min max (before ++ e1 :: rest) = Return (regions (sweep before)).
Proof.
  intros sweep t0 Hthr Hrs Hz He1 Hrest. subst sweep t0.
  unfold detect. rewrite Hthr. cbn. f_equal.
  rewrite opened_and_held; try done.
  intros j e Hj. destruct (Hrest j e Hj) as [Hs Hr].
  unfold Numeric.closes. by rewrite Hr, Hs.
Qed.

Lemma trailing_speech_is_dropped_witness :
  detect binary64 (decimal binary64 (32 # 125)) (decimal binary64 (1 # 2))
    (of_int binary64 6) [0; 0; 0; 5; 0; 0; 0; 0; 5; 5; 5]%Z
  = Return [(decimal binary64 (96 # 125), decimal binary64 (32 # 25))].
Proof.
  apply (trailing_speech_is_dropped binary64 (decimal binary64 (32 # 125))
           (decimal binary64 (1 # 2)) (of_int binary64 6)
           (Int 0) [0; 0; 0; 5; 0; 0; 0; 0]%Z 5%Z [5; 5]%Z).
  - vm_compute. reflexivity.
  - reflexivity.
  - reflexivity.
  - reflexivity.
  - intros j e Hj.
    do 2 (destruct j as [| j]; [injection Hj as <-; vm_compute; split; reflexivity |]).
    discriminate.
Defined.

End NumericFacts.

(** ** The workers *)

Module WorkerFacts.

Lemma except_KeyboardInterrupt_never_raises_it {A} (body : outcome (option A)) :
  except_KeyboardInterrupt body <> Raise KeyboardInterrupt.
Proof. destruct body as [a | []]; discriminate. Qed.

Lemma except_KeyboardInterrupt_Return {A} (body : outcome (option A)) (a : option A) :
  body = Return a -> except_KeyboardInterrupt body = Return a.
Proof. intros ->. reflexivity. Qed.

Section Converter.
Variable run_ffmpeg : Q -> Q -> outcome clip.
Variables (include_before include_after : Q).

Local Abbreviation call := (FLACConverter.call run_ffmpeg include_before include_after).
Local Abbreviation interval := (FLACConverter.interval include_before include_after).

Lemma converter_never_raises_KeyboardInterrupt (r : region) :
  call r <> Raise KeyboardInterrupt.
Proof. apply except_KeyboardInterrupt_never_raises_it. Qed.

Lemma converter_result (r : region) :
  call r = match run_ffmpeg (fst (interval r)) (snd (interval r)) with
           | Return data => Return (Some data)
           | Raise KeyboardInterrupt => Return None
           | Raise e => Raise e
           end.
Proof.
  unfold FLACConverter.call. destruct (FLACConverter.interval _ _ r) as [start d].
  cbn [fst snd]. destruct (run_ffmpeg start d) as [data | []]; reflexivity.
Qed.

Lemma converter_interrupted (r : region) :
  run_ffmpeg (fst (interval r)) (snd (interval r)) = Raise KeyboardInterrupt ->
  call r = Return None.
Proof. intros H. rewrite converter_result, H. reflexivity. Qed.

Lemma converter_tool_failure (r : region) :
  run_ffmpeg (fst (interval r)) (snd (interval r)) = Raise CalledProcessError ->
  call r = Raise CalledProcessError.
Proof. intros H. rewrite converter_result, H. reflexivity. Qed.

End Converter.

Lemma substring_whole (s : string) (n : nat) :
  (String.length s <= n)%nat -> substring 0 n s = s.
Proof.
  revert n. induction s as [| c s IH]; intros n Hn.
  - by destruct n.
  - destruct n as [| n]; cbn in *; [lia |]. f_equal. apply IH. lia.
Qed.

Section Recognizer.
Variable post : option clip -> nat -> outcome string.
Variable json_transcript : string -> outcome string.
Variable upper : string -> string.

Local Abbreviation scan := (SpeechRecognizer.scan json_transcript upper).
Local Abbreviation attempts := (SpeechRecognizer.attempts post json_transcript upper).
Local Abbreviation call_counting :=
  (SpeechRecognizer.call_counting post json_transcript upper).
Local Abbreviation call := (SpeechRecognizer.call post json_transcript upper).
Local Abbreviation capitalize := (SpeechRecognizer.capitalize upper).
Local Abbreviation fruitless :=
  (SpeechRecognizer.fruitless post json_transcript upper).

(** The first character is taken whole: of a transcript that starts with a
    character of two bytes, both bytes are handed to [upper]. *)
Lemma capitalize_two_bytes (c1 c2 : ascii) (rest : string) :
  SpeechRecognizer.utf8_width c1 = 2%nat ->
  capitalize (String c1 (String c2 rest))
  = upper (String c1 (String c2 EmptyString)) +:+ rest.
Proof.
  intros H. unfold SpeechRecognizer.capitalize, SpeechRecognizer.first_character,
    SpeechRecognizer.after_first_character.
  rewrite H. cbn -[String.append]. f_equal.
  - by destruct rest.
  - apply substring_whole. lia.
Qed.

Lemma scan_first_usable (before : list string) (line : string) (after : list string)
    (t : string) :
  Forall (fun l => is_raise (json_transcript l) = true) before ->
  json_transcript line = Return t ->
  scan (before ++ line :: after) = Some (capitalize t).
Proof.
  intros Hb Hl. induction Hb as [| l before Hl0 _ IH]; cbn.
  - rewrite Hl. reflexivity.
  - destruct (json_transcript l); [discriminate | exact IH].
Qed.

Lemma scan_none (lines : list string) :
  Forall (fun l => is_raise (json_transcript l) = true) lines -> scan lines = None.
Proof.
  intros H. induction H as [| l lines Hl _ IH]; cbn; [reflexivity |].
  destruct (json_transcript l); [discriminate | exact IH].
Qed.

Lemma attempts_fruitless_step (data : option clip) (n i : nat) :
  fruitless data i -> attempts data (S n) i = attempts data n (S i).
Proof.
  intros [H | (body & H & Hscan)]; cbn; rewrite H; [reflexivity |].
  rewrite Hscan. reflexivity.
Qed.

Lemma attempts_skip_fruitless (data : option clip) (k n i : nat) :
  (forall j, (i <= j < i + k)%nat -> fruitless data j) ->
  attempts data (k + n) i = attempts data n (i + k).
Proof.
  revert i. induction k as [| k IH]; intros i Hall.
  - cbn. by rewrite Nat.add_0_r.
  - cbn [Nat.add]. rewrite attempts_fruitless_step by (apply Hall; lia).
    rewrite IH by (intros j Hj; apply Hall; lia).
    f_equal. lia.
Qed.

Lemma attempts_never_counts_less (data : option clip) (n i : nat) :
  (i <= snd (attempts data n i) <= i + n)%nat.
Proof.
  revert i. induction n as [| n IH]; intros i; cbn; [lia |].
  destruct (post data i) as [body | e].
  - destruct (scan _); cbn; [lia |]. specialize (IH (S i)). lia.
  - destruct e; cbn; try lia. specialize (IH (S i)). lia.
Qed.

Lemma recognizer_never_raises_KeyboardInterrupt (retries : nat) (data : option clip) :
  call retries data <> Raise KeyboardInterrupt.
Proof.
  unfold SpeechRecognizer.call, SpeechRecognizer.call_counting.
  destruct (SpeechRecognizer.attempts _ _ _ _ _ _) as [r n]. cbn.
  apply except_KeyboardInterrupt_never_raises_it.
Qed.

Lemma recognizer_first_usable (data : option clip) (retries i : nat)
    (body : string) (before : list string) (line : string) (after : list string)
    (t : string) :
  (i < retries)%nat ->
  (forall j, (j < i)%nat -> fruitless data j) ->
  post data i = Return body ->
  SpeechRecognizer.split_lines body = before ++ line :: after ->
  Forall (fun l => is_raise (json_transcript l) = true) before ->
  json_transcript line = Return t ->
  call_counting retries data = (Return (Some (capitalize t)), S i).
Proof.
  intros Hi Hfr Hpost Hsplit Hbefore Hline.
  unfold SpeechRecognizer.call_counting.
  replace retries with (i + S (retries - S i))%nat by lia.
  rewrite attempts_skip_fruitless by (intros j Hj; apply Hfr; lia).
  cbn. rewrite Hpost, Hsplit, (scan_first_usable before line after t) by done.
  reflexivity.
Qed.

Lemma recognizer_exhausted (data : option clip) (retries : nat) :
  (forall j, (j < retries)%nat -> fruitless data j) ->
  call_counting retries data = (Return None, retries).
Proof.
  intros Hfr. unfold SpeechRecognizer.call_counting.
  replace retries with (retries + 0)%nat at 1 by lia.
  rewrite attempts_skip_fruitless by (intros j Hj; apply Hfr; lia).
  reflexivity.
Qed.

Lemma recognizer_interrupted (data : option clip) (retries i : nat) :
  (i < retries)%nat ->
  (forall j, (j < i)%nat -> fruitless data j) ->
  post data i = Raise KeyboardInterrupt ->
  call_counting retries data = (Return None, S i).
Proof.
  intros Hi Hfr Hpost. unfold SpeechRecognizer.call_counting.
  replace retries with (i + S (retries - S i))%nat by lia.
  rewrite attempts_skip_fruitless by (intros j Hj; apply Hfr; lia).
  cbn. rewrite Hpost. reflexivity.
Qed.

End Recognizer.

(** C7, as stated, fails twice.  When the response has no usable record the
    recognizer does not stop: with [retries = 3] it issues three requests.
    And a record whose transcript is empty is not passed over: the empty
    transcript is returned, not the transcript of the record after it. *)
Lemma no_transcript_is_requested_again :
  SpeechRecognizer.call_counting Samples.post_nothing Samples.json_transcript
    Samples.upper 3 (Some "flac"%string)
  = (Return None, 3%nat)
  /\ SpeechRecognizer.call_counting Samples.post_empty_first
       Samples.json_transcript Samples.upper 3 (Some "flac"%string)
     = (Return (Some EmptyString), 1%nat).
Proof. split; reflexivity. Qed.

(** C7, amended.  The records of a response are scanned in order and the
    transcript of the first record from which one can be read (a record
    that decodes and has a best-alternative transcript that is a string, be
    it empty) is returned, its first character in upper case, with no
    further request.  A response in which no record has a transcript is
    treated like a failed connection: the request is issued again, and when
    each of the [retries] requests has given nothing the result is
    absent. *)
Theorem first_usable_record_else_retry
    (post : option clip -> nat -> outcome string)
    (json_transcript : string -> outcome string) (upper : string -> string)
    (data : option clip) (retries : nat) :
  (forall i body before line after t,
     (i < retries)%nat ->
     (forall j, (j < i)%nat ->
                SpeechRecognizer.fruitless post json_transcript upper data j) ->
     post data i = Return body ->
     SpeechRecognizer.split_lines body = before ++ line :: after ->
     Forall (fun l => is_raise (json_transcript l) = true) before ->
     json_transcript line = Return t ->
     SpeechRecognizer.call_counting post json_transcript upper retries data
     = (Return (Some (SpeechRecognizer.capitalize upper t)), S i))
  /\ ((forall j, (j < retries)%nat ->
                  SpeechRecognizer.fruitless post json_transcript upper data j) ->
      SpeechRecognizer.call_counting post json_transcript upper retries data
      = (Return None, retries)).
Proof.
  split.
  - intros. by eapply recognizer_first_usable.
  - apply recognizer_exhausted.
Qed.

Lemma first_usable_record_else_retry_witness :
  SpeechRecognizer.call_counting Samples.post_flaky Samples.json_transcript
    Samples.upper 3 None
  = (Return (Some "Hello world"%string), 2%nat)
  /\ SpeechRecognizer.call_counting Samples.post_nothing Samples.json_transcript
       Samples.upper 3 None
     = (Return None, 3%nat).
Proof.
  split.
  - apply (proj1 (first_usable_record_else_retry Samples.post_flaky
                    Samples.json_transcript Samples.upper None 3)
             1%nat Samples.three_records
             ["{}"; "{result:[]}"]%string "T:hello world"%string []
             "hello world"%string).
    + lia.
    + intros j Hj. assert (j = 0%nat) as -> by lia. left. reflexivity.
    + reflexivity.
    + reflexivity.
    + repeat constructor.
    + reflexivity.
  - apply (proj2 (first_usable_record_else_retry Samples.post_nothing
                    Samples.json_transcript Samples.upper None 3)).
    intros j Hj. right. exists "{result:[]}"%string. split; reflexivity.
Defined.

End WorkerFacts.

(** ** The worker pool delivers in submission order *)

Module PoolFacts.
Import Pool.

Section Ordered.
Context {A B : Type}.
Variable f : A -> B.
Variable xs : list A.

Local Abbreviation buffered := (buffered f xs).
Local Abbreviation releasing := (releasing f xs).

Lemma releasing_stops (finished : list nat) (it : imap_iterator B) :
  releasing finished it -> unsorted it !! index it = None -> buffered finished it.
Proof.
  intros (H1 & H3 & H4 & H5) Hnone.
  assert (Hnot : index it ∉ finished).
  { intros Hin. rewrite H4 in Hnone.
    rewrite decide_True in Hnone by (split; [done | lia]).
    destruct (lookup_lt_is_Some_2 xs (index it) (H5 _ Hin)) as [x Hx].
    rewrite Hx in Hnone. discriminate. }
  repeat split; try done.
  intros j. rewrite H4.
  destruct (decide (j = index it)) as [-> |].
  - rewrite !decide_False; [done | | ]; intros [? ?]; [lia | done].
  - destruct (decide (j ∈ finished /\ (index it <= j)%nat)) as [[? ?] | Hn].
    + rewrite decide_True by (split; [done | lia]). done.
    + rewrite decide_False; [done |]. intros [? ?]. apply Hn. split; [done | lia].
Qed.

Lemma release_buffered (fuel : nat) (finished : list nat) (it : imap_iterator B) :
  releasing finished it -> (size (unsorted it) <= fuel)%nat ->
  buffered finished (release fuel it).
Proof.
  revert it. induction fuel as [| fuel IH]; intros it Hrel Hsize.
  - cbn. apply releasing_stops; [done |].
    assert (Hempty : unsorted it = ∅) by (apply map_size_empty_iff; lia).
    rewrite Hempty. apply lookup_empty.
  - cbn. destruct (unsorted it !! index it) as [obj |] eqn:Hl.
    + apply IH.
      * destruct Hrel as (H1 & H3 & H4 & H5).
        pose proof Hl as Hl'. rewrite H4 in Hl'.
        destruct (decide (index it ∈ finished /\ (index it <= index it)%nat))
          as [[Hin _] |]; [| discriminate].
        destruct (xs !! index it) as [x |] eqn:Hx; [| discriminate].
        injection Hl' as <-.
        repeat split; cbn; try done.
        -- intros j Hj. destruct (decide (j = index it)) as [-> |]; [done |].
           apply H1. lia.
        -- rewrite (take_S_r _ _ _ Hx), fmap_app, H3. reflexivity.
        -- intros j. destruct (decide (j = index it)) as [-> |].
           ++ rewrite lookup_delete_eq.
              rewrite decide_False; [done |]. intros [? ?]. lia.
           ++ rewrite lookup_delete_ne by done. rewrite H4.
              destruct (decide (j ∈ finished /\ (index it <= j)%nat)) as [[? ?] | Hn].
              ** rewrite decide_True by (split; [done | lia]). done.
              ** rewrite decide_False; [done |].
                 intros [? ?]. apply Hn. split; [done | lia].
      * cbn. rewrite map_size_delete, Hl. lia.
    + by apply releasing_stops.
Qed.

Lemma complete_buffered (finished : list nat) (it : imap_iterator B) (i : nat) (x : A) :
  buffered finished it -> i ∉ finished -> xs !! i = Some x ->
  buffered (i :: finished) (complete it i (f x)).
Proof.
  intros (H1 & H2 & H3 & H4 & H5) Hi Hx. unfold complete.
  assert (Hlt : (i < length xs)%nat) by (by eapply lookup_lt_Some).
  destruct (decide (index it = i)) as [Heq | Hne].
  - apply release_buffered; [| cbn; lia].
    repeat split; cbn.
    + intros j Hj. destruct (decide (j = i)) as [-> |]; [left |].
      right. apply H1. lia.
    + rewrite <- Heq in Hx. rewrite (take_S_r _ _ _ Hx), fmap_app, H3. reflexivity.
    + intros j. rewrite H4. subst i.
      destruct (decide (j = index it)) as [-> |].
      * rewrite !decide_False; [done | |]; intros [? ?]; lia.
      * destruct (decide (j ∈ finished /\ (index it < j)%nat)) as [[? ?] | Hn].
        -- rewrite decide_True; [done |]. split; [by right | lia].
        -- rewrite decide_False; [done |]. intros [Hin ?]. apply Hn.
           apply elem_of_cons in Hin as [? | ?]; [done |]. split; [done | lia].
    + intros j Hin. apply elem_of_cons in Hin as [-> | ?]; [done | by apply H5].
  - assert (Hgt : (index it < i)%nat).
    { destruct (decide (i < index it)%nat) as [Hl |]; [| lia].
      destruct Hi. by apply H1. }
    repeat split; cbn.
    + intros j Hj. right. by apply H1.
    + intros Hin. apply elem_of_cons in Hin as [? | ?]; done.
    + done.
    + intros j. destruct (decide (j = i)) as [-> |].
      * rewrite lookup_insert_eq, decide_True by (split; [left | done]).
        by rewrite Hx.
      * rewrite lookup_insert_ne by done. rewrite H4.
        destruct (decide (j ∈ finished /\ (index it < j)%nat)) as [[? ?] | Hn].
        -- rewrite decide_True; [done |]. split; [by right | done].
        -- rewrite decide_False; [done |]. intros [Hin ?]. apply Hn.
           apply elem_of_cons in Hin as [? | ?]; done.
    + intros j Hin. apply elem_of_cons in Hin as [-> | ?]; [done | by apply H5].
Qed.

Lemma fresh_buffered : buffered [] (fresh (B := B)).
Proof.
  repeat split; cbn.
  - intros j Hj. lia.
  - apply not_elem_of_nil.
  - intros j Hin. by apply not_elem_of_nil in Hin.
Qed.

Lemma completions_buffered (completion finished : list nat) (it : imap_iterator B) :
  buffered finished it ->
  NoDup (completion ++ finished) ->
  (forall i, i ∈ completion -> (i < length xs)%nat) ->
  buffered (reverse completion ++ finished)
    (fold_left (fun it i => match xs !! i with
                            | Some x => complete it i (f x)
                            | None => it
                            end) completion it).
Proof.
  revert finished it. induction completion as [| i completion IH];
    intros finished it Hbuf Hnd Hlt; [done |].
  cbn [fold_left]. rewrite reverse_cons, <- app_assoc. cbn [app].
  destruct (lookup_lt_is_Some_2 xs i (Hlt i (list_elem_of_here _ _))) as [x Hx].
  rewrite Hx. apply NoDup_cons in Hnd as [Hi Hnd].
  apply IH.
  - apply complete_buffered; [done | | done].
    intros Hin. apply Hi. apply elem_of_app. by right.
  - apply NoDup_app. apply NoDup_app in Hnd as (Hc & Hdis & Hd).
    split; [done |]. split.
    + intros j Hj Hin. apply elem_of_cons in Hin as [-> | Hin].
      * apply Hi, elem_of_app. by left.
      * by apply (Hdis j).
    + apply NoDup_cons. split; [| done].
      intros Hin. apply Hi, elem_of_app. by right.
  - intros j Hj. apply Hlt. by right.
Qed.

(** Whatever the order of completion, the caller iterates over the results
    in the order of the inputs. *)
Lemma imap_in_submission_order (completion : list nat) :
  completion ≡ₚ seq 0 (length xs) -> imap f xs completion = f <$> xs.
Proof.
  intros Hperm. unfold imap.
  assert (Hnd : NoDup (completion ++ [])).
  { rewrite app_nil_r, Hperm. apply NoDup_seq. }
  assert (Hlt : forall i, i ∈ completion -> (i < length xs)%nat).
  { intros i Hin. rewrite Hperm in Hin. apply elem_of_seq in Hin. lia. }
  destruct (completions_buffered completion [] fresh fresh_buffered Hnd Hlt)
    as (H1 & H2 & H3 & _ & H5).
  set (it := fold_left _ completion fresh) in *.
  assert (Hdone : forall j, j ∈ reverse completion ++ [] <-> (j < length xs)%nat).
  { intros j. rewrite app_nil_r, elem_of_reverse, Hperm, elem_of_seq. lia. }
  assert (Hidx : index it = length xs).
  { destruct (decide (index it < length xs)%nat) as [Hl | Hge].
    - destruct H2. by apply Hdone.
    - destruct (decide (length xs < index it)%nat) as [Hg |]; [| lia].
      specialize (H1 _ Hg). apply Hdone in H1. lia. }
  rewrite H3, Hidx, firstn_all. reflexivity.
Qed.

(** Every result delivered is the result of the worker on some input. *)
Local Abbreviation produced := (produced f).

Lemma release_produced (fuel : nat) (it : imap_iterator B) :
  Forall produced (items it) -> map_Forall (fun _ y => produced y) (unsorted it) ->
  Forall produced (items (release fuel it))
  /\ map_Forall (fun _ y => produced y) (unsorted (release fuel it)).
Proof.
  revert it. induction fuel as [| fuel IH]; intros it Hi Hu; [done |].
  cbn. destruct (unsorted it !! index it) as [obj |] eqn:Hl; [| done].
  apply IH; cbn.
  - apply Forall_app. split; [done |]. apply Forall_singleton. by eapply Hu.
  - by apply map_Forall_delete.
Qed.

Lemma imap_produced (completion : list nat) :
  Forall produced (imap f xs completion).
Proof.
  unfold imap.
  assert (H : forall it,
             Forall produced (items it) ->
             map_Forall (fun _ y => produced y) (unsorted it) ->
             Forall produced
               (items (fold_left (fun it i => match xs !! i with
                                              | Some x => complete it i (f x)
                                              | None => it
                                              end) completion it))).
  { induction completion as [| i completion IH]; intros it Hi Hu; [done |].
    cbn [fold_left]. destruct (xs !! i) as [x |]; [| by apply IH].
    unfold complete. destruct (decide (index it = i)).
    - destruct (release_produced (size (unsorted it))
                  {| items := items it ++ [f x]; index := S (index it);
                     unsorted := unsorted it |}) as [Hi' Hu']; cbn.
      + apply Forall_app. split; [done |]. apply Forall_singleton. by exists x.
      + done.
      + by apply IH.
    - apply IH; cbn; [done |]. apply map_Forall_insert_2; [by exists x | done]. }
  apply H; cbn; [constructor | apply map_Forall_empty].
Qed.

End Ordered.
End PoolFacts.

(** ** The pipeline *)

Module PipelineFacts.
Import Pipeline.

(** *** Sequential mapping *)

Section MapM.
Context {A B : Type}.
Variable f : A -> outcome B.

Lemma mapM_cons (x : A) (xs : list A) :
  mapM f (x :: xs) = y ← f x; k ← mapM f xs; Return (y :: k).
Proof. reflexivity. Qed.

Lemma mapM_Return (xs : list A) (ys : list B) :
  mapM f xs = Return ys -> Forall2 (fun x y => f x = Return y) xs ys.
Proof.
  revert ys. induction xs as [| x xs IH]; intros ys H.
  - injection H as <-. constructor.
  - rewrite mapM_cons in H. destruct (f x) as [y |] eqn:Hx; [| discriminate].
    cbn in H. destruct (mapM f xs) as [k |]; [| discriminate].
    injection H as <-. constructor; [done | by apply IH].
Qed.

Lemma mapM_first_Raise (xs : list A) (i : nat) (x : A) (e : exn) :
  xs !! i = Some x -> f x = Raise e ->
  (forall j x', (j < i)%nat -> xs !! j = Some x' -> is_raise (f x') = false) ->
  mapM f xs = Raise e.
Proof.
  revert i. induction xs as [| x0 xs IH]; intros i Hi Hx Hbefore; [done |].
  rewrite mapM_cons. destruct i as [| i].
  - injection Hi as ->. rewrite Hx. reflexivity.
  - specialize (Hbefore 0%nat x0 ltac:(lia) eq_refl) as H0.
    destruct (f x0) as [y |]; [| discriminate]. cbn.
    rewrite (IH i); [reflexivity | done | done |].
    intros j x' Hj Hl. apply (Hbefore (S j)); [lia | done].
Qed.

End MapM.

(** *** Collecting the results of a stage *)

Section Collect.
Variable interrupt : option (stage * nat).
Context {B : Type}.

Lemma collect_uninterrupted (s : stage) (i : nat) (delivered : list (outcome B))
    (collected : list B) :
  (forall j, interrupt <> Some (s, j)) ->
  collect interrupt s i delivered collected
  = ys ← mapM id delivered; Return (collected ++ ys).
Proof.
  intros Hno. revert i collected.
  induction delivered as [| y delivered IH]; intros i collected; cbn [collect].
  - rewrite decide_False by apply Hno. cbn. by rewrite app_nil_r.
  - rewrite decide_False by apply Hno. destruct y as [b | e]; [| reflexivity].
    rewrite IH, mapM_cons. cbn. destruct (mapM id delivered) as [k |]; cbn; [| done].
    by rewrite <- app_assoc.
Qed.

Lemma collect_interrupted (s : stage) (k i : nat) (delivered : list (outcome B))
    (collected : list B) :
  interrupt = Some (s, (i + k)%nat) ->
  (k <= length delivered)%nat ->
  (forall j y, (j < k)%nat -> delivered !! j = Some y -> is_raise y = false) ->
  collect interrupt s i delivered collected = Raise KeyboardInterrupt.
Proof.
  intros Hint. revert i delivered collected Hint.
  induction k as [| k IH]; intros i delivered collected Hint Hlen Hok.
  - rewrite Nat.add_0_r in Hint.
    destruct delivered; cbn [collect]; by rewrite decide_True.
  - destruct delivered as [| y delivered]; [cbn in Hlen; lia |].
    cbn [collect]. rewrite decide_False by (rewrite Hint; intros [=]; lia).
    specialize (Hok 0%nat y ltac:(lia) eq_refl) as Hy.
    destruct y as [b |]; [| discriminate].
    apply IH.
    + rewrite Hint. do 2 f_equal. lia.
    + cbn in Hlen. lia.
    + intros j y Hj Hl. apply (Hok (S j)); [lia | done].
Qed.

(** Without an interrupt of the main process, what [collect] raises is one
    of the results delivered. *)
Lemma collect_raises_delivered (s : stage) (i : nat) (delivered : list (outcome B))
    (collected : list B) (e : exn) :
  interrupt = None ->
  collect interrupt s i delivered collected = Raise e -> Raise e ∈ delivered.
Proof.
  intros ->. revert i collected.
  induction delivered as [| y delivered IH]; intros i collected H;
    cbn [collect] in H; rewrite decide_False in H by done.
  - discriminate.
  - destruct y as [b | e'].
    + right. by eapply IH.
    + injection H as ->. left.
Qed.

End Collect.

Lemma mapM_id_fmap {A B} (f : A -> outcome B) (xs : list A) :
  mapM id (f <$> xs) = mapM f xs.
Proof.
  induction xs as [| x xs IH]; [reflexivity |].
  rewrite fmap_cons, !mapM_cons, IH. reflexivity.
Qed.

(** *** The two stages *)

Section Stages.
Variable completion : stage -> list nat.
Variable converter : region -> outcome (option clip).
Variable recognizer : option clip -> outcome (option string).

(** Without an interrupt of the main process the two stages are the two
    sequential maps, whatever the order in which the workers complete. *)
Lemma stages_sequential (regions : list region) (w : world) :
  completion Extraction ≡ₚ seq 0 (length regions) ->
  completion Recognition ≡ₚ seq 0 (length regions) ->
  snd (stages completion None converter recognizer regions w)
  = extracted ← mapM converter regions; mapM recognizer extracted.
Proof.
  intros Hp1 Hp2. unfold stages.
  rewrite PoolFacts.imap_in_submission_order by done.
  rewrite collect_uninterrupted by done. rewrite mapM_id_fmap.
  destruct (mapM converter regions) as [extracted |] eqn:Hm; [| reflexivity].
  cbn. assert (Hlen : length extracted = length regions).
  { apply mapM_Return, Forall2_length in Hm. done. }
  rewrite PoolFacts.imap_in_submission_order by (by rewrite Hlen).
  rewrite collect_uninterrupted by done. rewrite mapM_id_fmap.
  destruct (mapM recognizer extracted); reflexivity.
Qed.

Lemma sequential_aligned (regions : list region) (transcripts : list (option string)) :
  (extracted ← mapM converter regions; mapM recognizer extracted)
  = Return transcripts ->
  length transcripts = length regions
  /\ forall i r, regions !! i = Some r ->
       exists c t, converter r = Return c /\ recognizer c = Return t
                   /\ transcripts !! i = Some t.
Proof.
  intros H. destruct (mapM converter regions) as [extracted |] eqn:H1;
    [| discriminate].
  cbn in H. apply mapM_Return in H1, H. split.
  - apply Forall2_length in H1, H. congruence.
  - intros i r Hr.
    destruct (Forall2_lookup_l _ _ _ _ _ H1 Hr) as (c & Hc & Hconv).
    destruct (Forall2_lookup_l _ _ _ _ _ H Hc) as (t & Ht & Hrec).
    by exists c, t.
Qed.

(** A failure of the converter that is not an interrupt ends the stages at
    once and leaves the world as it was. *)
Lemma stages_extraction_fails (regions : list region) (w : world) (e : exn) :
  completion Extraction ≡ₚ seq 0 (length regions) ->
  mapM converter regions = Raise e -> e <> KeyboardInterrupt ->
  stages completion None converter recognizer regions w = (w, Raise e).
Proof.
  intros Hp Hm He. unfold stages.
  rewrite PoolFacts.imap_in_submission_order by done.
  rewrite collect_uninterrupted by done. rewrite mapM_id_fmap, Hm. cbn.
  destruct e; done.
Qed.

End Stages.

(** C2. For every region list and every order in which the workers of the
    two pool stages complete, the stages are the sequential map of the
    converter followed by the sequential map of the recognizer; when they
    return, there is one transcript per region and the transcript at
    position [i] is the recognition of the clip of region [i]. *)
Theorem transcripts_in_submission_order (completion : stage -> list nat)
    (converter : region -> outcome (option clip))
    (recognizer : option clip -> outcome (option string))
    (regions : list region) (w : world) :
  completion Extraction ≡ₚ seq 0 (length regions) ->
  completion Recognition ≡ₚ seq 0 (length regions) ->
  snd (stages completion None converter recognizer regions w)
  = (extracted ← mapM converter regions; mapM recognizer extracted)
  /\ forall transcripts,
       snd (stages completion None converter recognizer regions w)
       = Return transcripts ->
       length transcripts = length regions
       /\ forall i r, regions !! i = Some r ->
            exists c t, converter r = Return c /\ recognizer c = Return t
                        /\ transcripts !! i = Some t.
Proof.
  intros Hp1 Hp2. split; [by apply stages_sequential |].
  intros transcripts H. rewrite stages_sequential in H by done.
  by apply sequential_aligned.
Qed.

Lemma transcripts_in_submission_order_witness :
  let converter := FLACConverter.call (Samples.ffmpeg_ok "a") (1 # 4) (1 # 4) in
  let recognizer :=
    SpeechRecognizer.call (Samples.post "en" 16000) Samples.json_transcript
      Samples.upper 3 in
  snd (stages Samples.completion None converter recognizer Samples.regions
         Samples.world0)
  = (extracted ← mapM converter Samples.regions; mapM recognizer extracted)
  /\ forall transcripts,
       snd (stages Samples.completion None converter recognizer Samples.regions
              Samples.world0)
       = Return transcripts ->
       length transcripts = length Samples.regions
       /\ forall i r, Samples.regions !! i = Some r ->
            exists c t, converter r = Return c /\ recognizer c = Return t
                        /\ transcripts !! i = Some t.
Proof.
  apply (transcripts_in_submission_order Samples.completion
           (FLACConverter.call (Samples.ffmpeg_ok "a") (1 # 4) (1 # 4))
           (SpeechRecognizer.call (Samples.post "en" 16000)
              Samples.json_transcript Samples.upper 3)
           Samples.regions Samples.world0).
  - compute_done.
  - compute_done.
Defined.

(** *** Interrupts of the main process *)

Section Interrupted.
Variable completion : stage -> list nat.
Variable converter : region -> outcome (option clip).
Variable recognizer : option clip -> outcome (option string).

Lemma stages_interrupted_in_extraction (regions : list region) (w : world) (i : nat) :
  completion Extraction ≡ₚ seq 0 (length regions) ->
  (i <= length regions)%nat ->
  (forall j r, (j < i)%nat -> regions !! j = Some r -> is_raise (converter r) = false) ->
  stages completion (Some (Extraction, i)) converter recognizer regions w
  = (terminate w, Raise KeyboardInterrupt).
Proof.
  intros Hp Hi Hok. unfold stages.
  rewrite PoolFacts.imap_in_submission_order by done.
  rewrite (collect_interrupted _ Extraction i 0); try done.
  - by rewrite length_fmap.
  - intros j y Hj Hl. rewrite list_lookup_fmap in Hl.
    destruct (regions !! j) as [r |] eqn:Hr; [| discriminate].
    injection Hl as <-. by eapply Hok.
Qed.

Lemma stages_interrupted_in_recognition (regions : list region) (w : world)
    (i : nat) (clips : list (option clip)) :
  completion Extraction ≡ₚ seq 0 (length regions) ->
  completion Recognition ≡ₚ seq 0 (length regions) ->
  (i <= length regions)%nat ->
  mapM converter regions = Return clips ->
  (forall j c, (j < i)%nat -> clips !! j = Some c -> is_raise (recognizer c) = false) ->
  stages completion (Some (Recognition, i)) converter recognizer regions w
  = (terminate (submit clips w), Raise KeyboardInterrupt).
Proof.
  intros Hp1 Hp2 Hi Hm Hok. unfold stages.
  rewrite PoolFacts.imap_in_submission_order by done.
  rewrite collect_uninterrupted by (intros j [=]).
  rewrite mapM_id_fmap, Hm. cbn.
  assert (Hlen : length clips = length regions).
  { apply mapM_Return, Forall2_length in Hm. done. }
  rewrite PoolFacts.imap_in_submission_order by (by rewrite Hlen).
  rewrite (collect_interrupted _ Recognition i 0); try done.
  - rewrite length_fmap. lia.
  - intros j y Hj Hl. rewrite list_lookup_fmap in Hl.
    destruct (clips !! j) as [c |] eqn:Hc; [| discriminate].
    injection Hl as <-. by eapply Hok.
Qed.

(** Workers that never raise [KeyboardInterrupt] never make the stages
    raise it. *)
Lemma stages_not_interrupted (regions : list region) (w : world) :
  (forall r, converter r <> Raise KeyboardInterrupt) ->
  (forall c, recognizer c <> Raise KeyboardInterrupt) ->
  snd (stages completion None converter recognizer regions w)
  <> Raise KeyboardInterrupt.
Proof.
  intros Hc Hr. unfold stages.
  destruct (collect None Extraction 0 _ []) as [extracted | e] eqn:H1; cbn.
  - intros H2. apply collect_raises_delivered in H2; [| done].
    pose proof (PoolFacts.imap_produced recognizer extracted
                  (completion Recognition)) as Hall.
    rewrite Forall_forall in Hall. destruct (Hall _ H2) as [c Hcall].
    by apply (Hr c).
  - intros [= ->]. apply collect_raises_delivered in H1; [| done].
    pose proof (PoolFacts.imap_produced converter regions
                  (completion Extraction)) as Hall.
    rewrite Forall_forall in Hall. destruct (Hall _ H1) as [r Hcall].
    by apply (Hc r).
Qed.

End Interrupted.

Lemma find_speech_regions_not_interrupted {frame : Type} (rms : list frame -> Z -> Z)
    (reader : Detector.wave frame) (frame_width : positive) (min max : Q) :
  Detector.find_speech_regions rms reader frame_width min max
  <> Raise KeyboardInterrupt.
Proof.
  unfold Detector.find_speech_regions, Detector.detect, Percentile.percentile.
  destruct (_ =? 0)%Z; [discriminate |].
  set (arr := Percentile.sorted _).
  assert (Hidx : forall i, Percentile.py_index arr i <> Raise KeyboardInterrupt).
  { intros i. unfold Percentile.py_index.
    destruct (_ <? 0)%Z; [discriminate |]. destruct (arr !! _); discriminate. }
  destruct (_ =? _)%Z.
  - destruct (Percentile.py_index arr _) as [x | e] eqn:E; cbn; [discriminate |].
    intros [= ->]. by eapply Hidx.
  - destruct (Percentile.py_index arr (Qfloor _)) as [a | e] eqn:E1; cbn.
    + destruct (Percentile.py_index arr (Qceiling _)) as [b | e] eqn:E2; cbn;
        [discriminate |].
      intros [= ->]. by eapply Hidx.
    + intros [= ->]. by eapply Hidx.
Qed.

(** *** The whole run *)

Section Run.
Context {frame : Type}.
Variable rms : list frame -> Z -> Z.
Variable extract_audio : string -> outcome (string * Z).
Variable wave_open : string -> Detector.wave frame.
Variable run_ffmpeg : string -> Q -> Q -> outcome clip.
Variable post : string -> Z -> option clip -> nat -> outcome string.
Variable json_transcript : string -> outcome string.
Variable upper : string -> string.
Variable FORMATTERS : gmap string (list (region * string) -> string).
Variable splitext : string -> string * string.
Variable completion : stage -> list nat.

Local Abbreviation generate interrupt :=
  (generate_subtitles rms extract_audio wave_open run_ffmpeg post json_transcript
     upper FORMATTERS splitext completion interrupt).
Local Abbreviation converter audio :=
  (FLACConverter.call (run_ffmpeg audio) (1 # 4) (1 # 4)).
Local Abbreviation recognizer language rate :=
  (SpeechRecognizer.call (post language rate) json_transcript upper 3).

Lemma generate_stages_raise (interrupt : option (stage * nat))
    (source_path src_language format : string) (output : option string)
    (w w' : world) (audio : string) (rate : Z) (regions : list region) (e : exn) :
  extract_audio source_path = Return (audio, rate) ->
  Detector.find_speech_regions rms (wave_open audio) 4096 (1 # 2) 6
  = Return regions ->
  regions <> [] ->
  stages completion interrupt (converter audio) (recognizer src_language rate)
    regions w = (w', Raise e) ->
  generate interrupt source_path src_language format output w = (w', Raise e).
Proof.
  intros H1 H2 Hne Hst. unfold generate_subtitles. rewrite H1, H2.
  destruct regions as [| r0 rs]; [done |]. rewrite Hst. reflexivity.
Qed.

Lemma generate_not_interrupted (source_path src_language format : string)
    (output : option string) (w : world) :
  extract_audio source_path <> Raise KeyboardInterrupt ->
  snd (generate None source_path src_language format output w)
  <> Raise KeyboardInterrupt.
Proof.
  intros Hex. unfold generate_subtitles.
  destruct (extract_audio source_path) as [[audio rate] | e];
    [| cbn; intros [= ->]; by apply Hex].
  destruct (Detector.find_speech_regions _ _ _ _ _) as [regions | e] eqn:Hf.
  2:{ cbn. intros [= ->]. by eapply find_speech_regions_not_interrupted. }
  assert (Hst : forall w0,
             snd (match regions with
                  | [] => (w0, Return [])
                  | _ :: _ => stages completion None (converter audio)
                                (recognizer src_language rate) regions w0
                  end) <> Raise KeyboardInterrupt).
  { intros w0. destruct regions as [| r0 rs]; [discriminate |].
    apply stages_not_interrupted.
    - intros r. apply WorkerFacts.converter_never_raises_KeyboardInterrupt.
    - intros c. apply WorkerFacts.recognizer_never_raises_KeyboardInterrupt. }
  specialize (Hst w).
  destruct (match regions with [] => _ | _ :: _ => _ end) as [w1 [ts | e]].
  - destruct (FORMATTERS !! format); cbn; discriminate.
  - cbn in *. intros [= ->]. by apply Hst.
Qed.

End Run.

(** C3, as stated, fails: with a conversion tool that exits non-zero for the
    first of two regions, the stages end with that failure instead of a
    transcript list with an absent first entry. *)
Lemma failed_extraction_ends_the_stages :
  stages Samples.completion None
    (FLACConverter.call (Samples.ffmpeg_failing "/tmp/audio.wav") (1 # 4) (1 # 4))
    (SpeechRecognizer.call (Samples.post "en" 16000) Samples.json_transcript
       Samples.upper 3)
    Samples.regions Samples.world0
  = (Samples.world0, Raise CalledProcessError).
Proof. vm_compute. reflexivity. Qed.

(** C3, amended.  When the conversion tool exits non-zero for a region (the
    first one for which the converter fails), the converter raises
    [CalledProcessError]; the extraction stage ends with that failure, and so
    does the run: no recognition task is handed to the pool for any region,
    no file is written, and the failure reaches the caller of
    [generate_subtitles]. *)
Theorem extraction_failure_aborts_the_run {frame : Type}
    (rms : list frame -> Z -> Z)
    (extract_audio : string -> outcome (string * Z))
    (wave_open : string -> Detector.wave frame)
    (run_ffmpeg : string -> Q -> Q -> outcome clip)
    (post : string -> Z -> option clip -> nat -> outcome string)
    (json_transcript : string -> outcome string) (upper : string -> string)
    (FORMATTERS : gmap string (list (region * string) -> string))
    (splitext : string -> string * string) (completion : stage -> list nat)
    (source_path src_language format : string) (output : option string)
    (w : world) (audio : string) (rate : Z) (regions : list region)
    (i : nat) (r : region) :
  let converter := FLACConverter.call (run_ffmpeg audio) (1 # 4) (1 # 4) in
  let recognizer :=
    SpeechRecognizer.call (post src_language rate) json_transcript upper 3 in
  let interval := FLACConverter.interval (1 # 4) (1 # 4) r in
  extract_audio source_path = Return (audio, rate) ->
  Detector.find_speech_regions rms (wave_open audio) 4096 (1 # 2) 6
  = Return regions ->
  completion Extraction ≡ₚ seq 0 (length regions) ->
  regions !! i = Some r ->
  run_ffmpeg audio (fst interval) (snd interval) = Raise CalledProcessError ->
  (forall j r', (j < i)%nat -> regions !! j = Some r' ->
                is_raise (converter r') = false) ->
  converter r = Raise CalledProcessError
  /\ stages completion None converter recognizer regions w
     = (w, Raise CalledProcessError)
  /\ generate_subtitles rms extract_audio wave_open run_ffmpeg post
       json_transcript upper FORMATTERS splitext completion None
       source_path src_language format output w
     = (w, Raise CalledProcessError).
Proof.
  intros converter recognizer interval H1 H2 Hp Hr Hfail Hbefore.
  assert (Hconv : converter r = Raise CalledProcessError).
  { by apply WorkerFacts.converter_tool_failure. }
  assert (Hst : stages completion None converter recognizer regions w
                = (w, Raise CalledProcessError)).
  { apply stages_extraction_fails; [done | | done].
    by apply (mapM_first_Raise converter regions i r). }
  repeat split; try done.
  eapply generate_stages_raise; try done.
  intros ->. discriminate.
Qed.

Lemma extraction_failure_aborts_the_run_witness :
  FLACConverter.call (Samples.ffmpeg_failing "/tmp/audio.wav") (1 # 4) (1 # 4)
    (Detector.advance (inject_Z 4096 / inject_Z 16000) 1 0,
     Detector.advance (inject_Z 4096 / inject_Z 16000) 3 0)
  = Raise CalledProcessError
  /\ stages Samples.completion None
       (FLACConverter.call (Samples.ffmpeg_failing "/tmp/audio.wav") (1 # 4) (1 # 4))
       (SpeechRecognizer.call (Samples.post "en" 16000) Samples.json_transcript
          Samples.upper 3)
       Samples.regions Samples.world0
     = (Samples.world0, Raise CalledProcessError)
  /\ generate_subtitles Samples.rms Samples.extract_audio Samples.wave_open
       Samples.ffmpeg_failing Samples.post Samples.json_transcript Samples.upper
       Samples.FORMATTERS Samples.splitext Samples.completion None
       "movie.mp4" "en" "srt" None Samples.world0
     = (Samples.world0, Raise CalledProcessError).
Proof.
  apply (extraction_failure_aborts_the_run Samples.rms Samples.extract_audio
           Samples.wave_open Samples.ffmpeg_failing Samples.post
           Samples.json_transcript Samples.upper Samples.FORMATTERS
           Samples.splitext Samples.completion "movie.mp4" "en" "srt" None
           Samples.world0 "/tmp/audio.wav" 16000 Samples.regions 0%nat
           (Detector.advance (inject_Z 4096 / inject_Z 16000) 1 0,
            Detector.advance (inject_Z 4096 / inject_Z 16000) 3 0)).
  - reflexivity.
  - vm_compute. reflexivity.
  - compute_done.
  - reflexivity.
  - vm_compute. reflexivity.
  - intros j r' Hj. lia.
Defined.

(** C8. An interrupt of the main process during either stage (after [i]
    results of stage [s] have been taken, every earlier result having been
    delivered without failure) ends [generate_subtitles] with
    [KeyboardInterrupt]: the pool is torn down and the file system is left
    as it was, so no subtitle file is written. *)
Theorem cancellation_writes_no_file {frame : Type}
    (rms : list frame -> Z -> Z)
    (extract_audio : string -> outcome (string * Z))
    (wave_open : string -> Detector.wave frame)
    (run_ffmpeg : string -> Q -> Q -> outcome clip)
    (post : string -> Z -> option clip -> nat -> outcome string)
    (json_transcript : string -> outcome string) (upper : string -> string)
    (FORMATTERS : gmap string (list (region * string) -> string))
    (splitext : string -> string * string) (completion : stage -> list nat)
    (source_path src_language format : string) (output : option string)
    (w : world) (audio : string) (rate : Z) (regions : list region)
    (s : stage) (i : nat) :
  let converter := FLACConverter.call (run_ffmpeg audio) (1 # 4) (1 # 4) in
  let recognizer :=
    SpeechRecognizer.call (post src_language rate) json_transcript upper 3 in
  extract_audio source_path = Return (audio, rate) ->
  Detector.find_speech_regions rms (wave_open audio) 4096 (1 # 2) 6
  = Return regions ->
  regions <> [] ->
  completion Extraction ≡ₚ seq 0 (length regions) ->
  completion Recognition ≡ₚ seq 0 (length regions) ->
  (i <= length regions)%nat ->
  match s with
  | Extraction =>
      forall j r, (j < i)%nat -> regions !! j = Some r ->
                  is_raise (converter r) = false
  | Recognition =>
      exists clips,
        mapM converter regions = Return clips
        /\ forall j c, (j < i)%nat -> clips !! j = Some c ->
                       is_raise (recognizer c) = false
  end ->
  exists w',
    generate_subtitles rms extract_audio wave_open run_ffmpeg post
      json_transcript upper FORMATTERS splitext completion (Some (s, i))
      source_path src_language format output w
    = (w', Raise KeyboardInterrupt)
    /\ files w' = files w /\ pool_terminated w' = true.
Proof.
  intros converter recognizer H1 H2 Hne Hp1 Hp2 Hi Hreached.
  destruct s.
  - exists (terminate w). split; [| done].
    eapply generate_stages_raise; try done.
    by apply stages_interrupted_in_extraction.
  - destruct Hreached as (clips & Hm & Hok).
    exists (terminate (submit clips w)). split; [| done].
    eapply generate_stages_raise; try done.
    by apply stages_interrupted_in_recognition.
Qed.

Lemma cancellation_writes_no_file_witness :
  exists w',
    generate_subtitles Samples.rms Samples.extract_audio Samples.wave_open
      Samples.ffmpeg_ok Samples.post Samples.json_transcript Samples.upper
      Samples.FORMATTERS Samples.splitext Samples.completion
      (Some (Recognition, 1%nat)) "movie.mp4" "en" "srt" None Samples.world0
    = (w', Raise KeyboardInterrupt)
    /\ files w' = files Samples.world0 /\ pool_terminated w' = true.
Proof.
  apply (cancellation_writes_no_file Samples.rms Samples.extract_audio
           Samples.wave_open Samples.ffmpeg_ok Samples.post
           Samples.json_transcript Samples.upper Samples.FORMATTERS
           Samples.splitext Samples.completion "movie.mp4" "en" "srt" None
           Samples.world0 "/tmp/audio.wav" 16000 Samples.regions
           Recognition 1%nat).
  - reflexivity.
  - vm_compute. reflexivity.
  - discriminate.
  - compute_done.
  - compute_done.
  - vm_compute. lia.
  - exists [Some "flac"%string; Some "flac"%string]. split.
    + vm_compute. reflexivity.
    + intros j c Hj Hc. assert (j = 0%nat) as -> by lia.
      injection Hc as <-. vm_compute. reflexivity.
Defined.

(** The interrupts the workers turn into [None].  The two worker callables
    never raise [KeyboardInterrupt]: an interrupt of the conversion tool
    makes the converter return [None], an interrupt of the request in flight
    makes the recognizer return [None].  The pipeline does not take this for
    a cancellation: unless the main process itself is interrupted,
    [generate_subtitles] does not end with [KeyboardInterrupt], and an
    absent transcript is left out of the subtitles like any missing
    transcript. *)
Lemma workers_swallow_KeyboardInterrupt :
  (forall (run_ffmpeg : Q -> Q -> outcome clip) (before after : Q) (r : region),
     FLACConverter.call run_ffmpeg before after r <> Raise KeyboardInterrupt
     /\ (run_ffmpeg (fst (FLACConverter.interval before after r))
                    (snd (FLACConverter.interval before after r))
         = Raise KeyboardInterrupt ->
         FLACConverter.call run_ffmpeg before after r = Return None))
  /\ (forall (post : option clip -> nat -> outcome string)
             (json_transcript : string -> outcome string) (upper : string -> string)
             (retries : nat) (data : option clip),
        SpeechRecognizer.call post json_transcript upper retries data
        <> Raise KeyboardInterrupt
        /\ forall i, (i < retries)%nat ->
             (forall j, (j < i)%nat ->
                        SpeechRecognizer.fruitless post json_transcript upper data j) ->
             post data i = Raise KeyboardInterrupt ->
             SpeechRecognizer.call post json_transcript upper retries data
             = Return None)
  /\ (forall (frame : Type) (rms : list frame -> Z -> Z)
             (extract_audio : string -> outcome (string * Z))
             (wave_open : string -> Detector.wave frame)
             (run_ffmpeg : string -> Q -> Q -> outcome clip)
             (post : string -> Z -> option clip -> nat -> outcome string)
             (json_transcript : string -> outcome string) (upper : string -> string)
             (FORMATTERS : gmap string (list (region * string) -> string))
             (splitext : string -> string * string)
             (completion : stage -> list nat)
             (source_path src_language format : string) (output : option string)
             (w : world),
        extract_audio source_path <> Raise KeyboardInterrupt ->
        snd (generate_subtitles rms extract_audio wave_open run_ffmpeg post
               json_transcript upper FORMATTERS splitext completion None
               source_path src_language format output w)
        <> Raise KeyboardInterrupt)
  /\ (forall (r : region) (regions : list region)
             (transcripts : list (option string)),
        timed_subtitles (r :: regions) (None :: transcripts)
        = timed_subtitles regions transcripts).
Proof.
  repeat split.
  - apply WorkerFacts.converter_never_raises_KeyboardInterrupt.
  - apply WorkerFacts.converter_interrupted.
  - apply WorkerFacts.recognizer_never_raises_KeyboardInterrupt.
  - intros i Hi Hfr Hpost. unfold SpeechRecognizer.call.
    by rewrite (WorkerFacts.recognizer_interrupted _ _ _ _ _ i).
  - intros. by apply generate_not_interrupted.
Qed.

Lemma workers_swallow_KeyboardInterrupt_witness :
  FLACConverter.call (Samples.ffmpeg_interrupted "/tmp/audio.wav") (1 # 4) (1 # 4)
    (1, 2)
  = Return None
  /\ SpeechRecognizer.call Samples.post_interrupted Samples.json_transcript
       Samples.upper 3 None
     = Return None
  /\ snd (generate_subtitles Samples.rms Samples.extract_audio Samples.wave_open
            Samples.ffmpeg_interrupted Samples.post Samples.json_transcript
            Samples.upper Samples.FORMATTERS Samples.splitext Samples.completion
            None "movie.mp4" "en" "srt" None Samples.world0)
     <> Raise KeyboardInterrupt.
Proof.
  destruct workers_swallow_KeyboardInterrupt as (Hconv & Hrec & Hrun & _).
  split; [| split].
  - apply (proj2 (Hconv (Samples.ffmpeg_interrupted "/tmp/audio.wav")
                    (1 # 4) (1 # 4) (1, 2))).
    reflexivity.
  - apply (proj2 (Hrec Samples.post_interrupted Samples.json_transcript
                    Samples.upper 3%nat None) 0%nat).
    + lia.
    + intros j Hj. lia.
    + reflexivity.
  - apply (Hrun Z Samples.rms Samples.extract_audio Samples.wave_open
             Samples.ffmpeg_interrupted Samples.post Samples.json_transcript
             Samples.upper Samples.FORMATTERS Samples.splitext
             Samples.completion "movie.mp4" "en" "srt" None Samples.world0).
    discriminate.
Defined.

End PipelineFacts.

(** ** An interrupt while a line is decoded *)

Module InterruptFacts.

(** The bare [except:] of the line loop also catches [KeyboardInterrupt]:
    a line whose decoding is interrupted is passed over like a line without
    a result. *)
Lemma scan_interrupted_line (json_transcript : string -> outcome string)
    (upper : string -> string) (line : string) (rest : list string) :
  json_transcript line = Raise KeyboardInterrupt ->
  SpeechRecognizer.scan json_transcript upper (line :: rest)
  = SpeechRecognizer.scan json_transcript upper rest.
Proof. intros H. cbn. by rewrite H. Qed.

(** C10.  An interrupt that arrives while the first record of a response is
    decoded does not make the recognizer return [None]: the record is passed
    over and the call returns the transcript of the second record, after its
    one request. *)
Theorem interrupt_while_decoding_is_swallowed :
  SpeechRecognizer.call_counting Samples.post_two_records
    Samples.json_interrupted Samples.upper 3 (Some "flac"%string)
  = (Return (Some "World"%string), 1%nat).
Proof. reflexivity. Qed.

End InterruptFacts.

(** * Further properties *)

(** ** The percentile lies between two order statistics *)

Module PercentileBounds.
Import Percentile.

Lemma sorted_nth_le (s : list Z) (i j : nat) :
  Sorted Z.le s -> (i <= j < length s)%nat -> (nth i s 0 <= nth j s 0)%Z.
Proof.
  intros Hs. apply Sorted_StronglySorted in Hs; [| apply _].
  revert i j. induction Hs as [| x s Hs IH Hx]; intros i j Hij; [cbn in Hij; lia |].
  destruct i as [| i], j as [| j]; cbn in *; try lia.
  - rewrite Forall_forall in Hx. apply Hx.
    apply list_elem_of_In, nth_In. lia.
  - apply IH. lia.
Qed.

Lemma nth_elem_of_sample (s l : list Z) (i : nat) :
  s ≡ₚ l -> (i < length s)%nat -> nth i s 0%Z ∈ l.
Proof.
  intros Hp Hi. rewrite <- Hp. apply list_elem_of_In, nth_In. exact Hi.
Qed.

Lemma floor_ceiling_adjacent (k : Q) :
  Qfloor k <> Qceiling k -> Qceiling k = (Qfloor k + 1)%Z.
Proof.
  intros Hne.
  pose proof (Qfloor_le k) as H1. pose proof (Qlt_floor k) as H2.
  pose proof (Qle_ceiling k) as H3. pose proof (Qceiling_lt k) as H4.
  assert (Hfc : (Qfloor k <= Qceiling k)%Z).
  { rewrite Zle_Qle. lra. }
  assert (Hcf : (Qceiling k - 1 < Qfloor k + 1)%Z).
  { rewrite Zlt_Qlt. lra. }
  lia.
Qed.

Lemma blend_between (a b : Z) (k : Q) :
  (a <= b)%Z -> Qfloor k <> Qceiling k ->
  inject_Z a
  <= inject_Z a * (inject_Z (Qceiling k) - k) + inject_Z b * (k - inject_Z (Qfloor k))
  <= inject_Z b.
Proof.
  intros Hab Hne. rewrite (floor_ceiling_adjacent k Hne).
  pose proof (Qfloor_le k) as H1. pose proof (Qlt_floor k) as H2.
  rewrite inject_Z_plus in *. change (inject_Z 1) with 1 in *.
  rewrite Zle_Qle in Hab.
  set (f := inject_Z (Qfloor k)) in *. set (x := inject_Z a) in *.
  set (y := inject_Z b) in *.
  split; nra.
Qed.

(** For a non-empty sample and a rank within it, the result lies between
    two elements of the sample. *)
Lemma percentile_between_elements (l : list Z) (p thr : Q) :
  l <> [] -> 0 <= p -> p <= 1 -> percentile l p = Return thr ->
  exists a b, a ∈ l /\ b ∈ l /\ (a <= b)%Z /\ inject_Z a <= thr <= inject_Z b.
Proof.
  intros Hne Hp0 Hp1 Hthr.
  assert (Hs : Sorted Z.le (sorted l)) by (apply Sorted_merge_sort; apply _).
  assert (Hperm : sorted l ≡ₚ l) by apply merge_sort_Permutation.
  rewrite (PercentileFacts.percentile_standard l (sorted l) p) in Hthr by done.
  injection Hthr as <-.
  assert (Hlen : (0 < length (sorted l))%nat).
  { destruct (sorted l); [| cbn; lia].
    apply Permutation_nil_l in Hperm. congruence. }
  destruct (PercentileFacts.rank_bounds (length (sorted l)) p Hlen Hp0 Hp1)
    as (Hk0 & Hf0 & Hfc & Hcn).
  unfold standard_percentile, order_statistic.
  set (k := (inject_Z (Z.of_nat (length (sorted l))) - 1) * p) in *.
  exists (nth (Z.to_nat (Qfloor k)) (sorted l) 0%Z),
         (nth (Z.to_nat (Qceiling k)) (sorted l) 0%Z).
  assert (Hab : (nth (Z.to_nat (Qfloor k)) (sorted l) 0
                 <= nth (Z.to_nat (Qceiling k)) (sorted l) 0)%Z).
  { apply sorted_nth_le; [done | lia]. }
  split; [apply nth_elem_of_sample; [done | lia] |].
  split; [apply nth_elem_of_sample; [done | lia] |].
  split; [done |].
  destruct (Qfloor k =? Qceiling k)%Z eqn:E.
  - apply Z.eqb_eq in E. rewrite <- E in *. rewrite Zle_Qle in Hab. lra.
  - apply Z.eqb_neq in E. by apply blend_between.
Qed.

(** X2. The percentile of rank 0 is the smallest element and the percentile
    of rank 1 the largest. *)
Theorem percentile_endpoints (l : list Z) :
  l <> [] ->
  exists lo hi,
    percentile l 0 = Return (inject_Z lo) /\ percentile l 1 = Return (inject_Z hi)
    /\ lo ∈ l /\ hi ∈ l /\ forall x, x ∈ l -> (lo <= x <= hi)%Z.
Proof.
  intros Hne.
  assert (Hs : Sorted Z.le (sorted l)) by (apply Sorted_merge_sort; apply _).
  assert (Hperm : sorted l ≡ₚ l) by apply merge_sort_Permutation.
  assert (Hlen : (0 < length (sorted l))%nat).
  { destruct (sorted l); [| cbn; lia].
    apply Permutation_nil_l in Hperm. congruence. }
  set (n := length (sorted l)) in *.
  exists (nth 0 (sorted l) 0%Z), (nth (n - 1) (sorted l) 0%Z).
  assert (H0 : 0 <= 0) by lra. assert (H01 : 0 <= 1) by lra.
  assert (H11 : 1 <= 1) by lra.
  rewrite (PercentileFacts.percentile_standard l (sorted l) 0) by done.
  rewrite (PercentileFacts.percentile_standard l (sorted l) 1) by done.
  unfold standard_percentile, order_statistic. fold n.
  assert (Hk0 : (inject_Z (Z.of_nat n) - 1) * 0 == inject_Z 0) by (cbn; ring).
  assert (Hk1 : (inject_Z (Z.of_nat n) - 1) * 1 == inject_Z (Z.of_nat n - 1)).
  { unfold Z.sub. rewrite inject_Z_plus, inject_Z_opp. cbn. ring. }
  rewrite !Hk0, !Hk1, !Qfloor_Z, !Qceiling_Z, !Z.eqb_refl.
  replace (Z.to_nat (Z.of_nat n - 1)) with (n - 1)%nat by lia.
  repeat split.
  - apply nth_elem_of_sample; [done | lia].
  - apply nth_elem_of_sample; [done | fold n; lia].
  - rewrite <- Hperm in H. apply list_elem_of_lookup in H as [i Hi].
    pose proof (lookup_lt_Some _ _ _ Hi) as Hlt.
    rewrite <- (nth_lookup_Some _ _ 0%Z _ Hi).
    apply sorted_nth_le; [done | lia].
  - rewrite <- Hperm in H. apply list_elem_of_lookup in H as [i Hi].
    pose proof (lookup_lt_Some _ _ _ Hi) as Hlt.
    rewrite <- (nth_lookup_Some _ _ 0%Z _ Hi).
    apply sorted_nth_le; [done | fold n in Hlt |- *; lia].
Qed.

Lemma percentile_endpoints_witness :
  exists lo hi,
    percentile [40; 10; 30; 20]%Z 0 = Return (inject_Z lo)
    /\ percentile [40; 10; 30; 20]%Z 1 = Return (inject_Z hi)
    /\ lo ∈ [40; 10; 30; 20]%Z /\ hi ∈ [40; 10; 30; 20]%Z
    /\ forall x, x ∈ [40; 10; 30; 20]%Z -> (lo <= x <= hi)%Z.
Proof. apply (percentile_endpoints [40; 10; 30; 20]%Z). discriminate. Defined.

End PercentileBounds.

(** ** More on the sweep *)

Module DetectorMore.
Import Detector DetectorFacts Frames.

Lemma advance_lt (cd : Q) (i j : nat) :
  0 < cd -> (i < j)%nat -> advance cd i 0 < advance cd j 0.
Proof.
  intros Hcd Hij.
  assert (advance cd (S i) 0 <= advance cd j 0) by (apply advance_mono; [lra | lia]).
  change (advance cd (S i) 0) with (advance cd i 0 + cd) in H. lra.
Qed.

(** *** The threshold and the quietest frames *)

(** The threshold is at least the smallest energy. *)
Lemma threshold_at_least_minimum (energies : list Z) (thr : Q) (e : Z) :
  energies <> [] -> Percentile.percentile energies (1 # 5) = Return thr ->
  (forall y, y ∈ energies -> (e <= y)%Z) ->
  inject_Z e <= thr.
Proof.
  intros Hne Hthr Hmin.
  destruct (PercentileBounds.percentile_between_elements energies (1 # 5) thr)
    as (a & b & Ha & _ & _ & Hlo & _); try done.
  pose proof (Hmin a Ha) as Hea. rewrite Zle_Qle in Hea. lra.
Qed.

(** X3. A frame whose energy is the smallest of the stream is silent. *)
Theorem quietest_frame_is_silent (energies : list Z) (thr : Q) (e : Z) :
  Percentile.percentile energies (1 # 5) = Return thr ->
  e ∈ energies -> (forall y, y ∈ energies -> (e <= y)%Z) ->
  is_silence thr e = true.
Proof.
  intros Hthr He Hmin.
  assert (Hne : energies <> []) by (intros ->; by apply not_elem_of_nil in He).
  unfold is_silence. apply Qle_bool_iff.
  by apply (threshold_at_least_minimum energies).
Qed.

Lemma quietest_frame_is_silent_witness : is_silence (0 # 25) 0 = true.
Proof.
  apply (quietest_frame_is_silent [0; 5; 0; 0; 0]%Z (0 # 25) 0%Z).
  - vm_compute. reflexivity.
  - left.
  - intros y Hy. repeat (apply elem_of_cons in Hy as [-> | Hy]; [lia |]).
    by apply not_elem_of_nil in Hy.
Defined.

Lemma percentile_defined (energies : list Z) :
  energies <> [] -> exists thr, Percentile.percentile energies (1 # 5) = Return thr.
Proof.
  intros Hne. eexists.
  apply (PercentileFacts.percentile_standard energies (Percentile.sorted energies));
    try done.
  - apply Sorted_merge_sort; apply _.
  - apply merge_sort_Permutation.
Qed.

(** X4. A stream in which every frame has the same energy, however large,
    has no region. *)
Theorem constant_stream_has_no_region (cd min max : Q) (energies : list Z) (v : Z) :
  energies <> [] -> (forall e, e ∈ energies -> e = v) ->
  detect cd min max energies = Return [].
Proof.
  intros Hne Hconst. destruct (percentile_defined energies Hne) as [thr Hthr].
  unfold detect. rewrite Hthr. cbn. f_equal.
  rewrite run_idle; [reflexivity | reflexivity |].
  apply Forall_forall. intros e He.
  unfold is_silence. apply Qle_bool_iff.
  apply (threshold_at_least_minimum energies); try done.
  intros y Hy. rewrite (Hconst e He), (Hconst y Hy). lia.
Qed.

Lemma constant_stream_has_no_region_witness :
  detect (32 # 125) (1 # 2) 6 [900; 900; 900; 900]%Z = Return [].
Proof.
  apply (constant_stream_has_no_region _ _ _ _ 900%Z).
  - discriminate.
  - intros e He. repeat (apply elem_of_cons in He as [-> | He]; [reflexivity |]).
    by apply not_elem_of_nil in He.
Defined.

(** *** Regions by frame numbers *)

Lemma chain_weaken (lo : nat) (ivs : list (nat * nat)) (hi hi' : nat) :
  chain lo ivs hi -> (hi <= hi')%nat -> chain lo ivs hi'.
Proof.
  revert lo. induction ivs as [| [i j] ivs IH]; intros lo H Hle; cbn in *; [lia |].
  destruct H as (? & ? & ? & H). repeat split; try done. by apply IH.
Qed.

Lemma chain_snoc (lo : nat) (ivs : list (nat * nat)) (i k : nat) :
  chain lo ivs i -> (1 <= i)%nat -> (i < k)%nat ->
  chain lo (ivs ++ [(i, k)]) (S k).
Proof.
  revert lo. induction ivs as [| [i' j'] ivs IH]; intros lo H Hi Hk; cbn in *.
  - repeat split; lia.
  - destruct H as (? & ? & ? & H). repeat split; try done. by apply IH.
Qed.

Lemma chain_bounds (lo : nat) (ivs : list (nat * nat)) (hi : nat) :
  chain lo ivs hi ->
  Forall (fun iv => (lo <= fst iv)%nat /\ (1 <= fst iv)%nat
                    /\ (fst iv < snd iv)%nat /\ (snd iv < hi)%nat) ivs.
Proof.
  revert lo. induction ivs as [| [i j] ivs IH]; intros lo H; [constructor |].
  cbn in H. destruct H as (H1 & H2 & H3 & H).
  assert (Hhi : (S j <= hi)%nat).
  { clear -H. revert H. generalize (S j). induction ivs as [| [i' j'] ivs IH'];
      intros n H; cbn in H; [done |].
    destruct H as (? & ? & ? & H). apply IH' in H. lia. }
  constructor; [cbn; lia |].
  eapply Forall_impl; [apply (IH _ H) |]. cbn. intros [i' j']. cbn. lia.
Qed.

Lemma chain_ordered (lo : nat) (ivs : list (nat * nat)) (hi : nat) (a b : nat)
    (iv1 iv2 : nat * nat) :
  chain lo ivs hi -> (a < b)%nat -> ivs !! a = Some iv1 -> ivs !! b = Some iv2 ->
  (snd iv1 < fst iv2)%nat.
Proof.
  revert lo a b. induction ivs as [| [i j] ivs IH]; intros lo a b H Hab H1 H2;
    [done |].
  cbn in H. destruct H as (_ & _ & _ & H).
  destruct b as [| b]; [lia |]. cbn in H2. destruct a as [| a].
  - injection H1 as <-. cbn.
    pose proof (chain_bounds _ _ _ H) as Hall. rewrite Forall_lookup in Hall.
    specialize (Hall _ _ H2). cbn in Hall. lia.
  - cbn in H1. apply (IH _ a b H); [lia | done | done].
Qed.

Section Tracking.
Variables (cd min max thr : Q).

Lemma tracks_initial : tracks cd 0 [] None initial.
Proof. repeat split. cbn. lia. Qed.

Lemma tracks_step (k : nat) (ivs : list (nat * nat)) (open : option nat)
    (st : sweep) (e : Z) :
  tracks cd k ivs open st ->
  exists ivs' open', tracks cd (S k) ivs' open' (step cd min max thr st e).
Proof.
  intros (Ht & Hr & Ho & Hc).
  assert (Hckk : chain 0 ivs k).
  { destruct open as [i |]; [| done]. destruct Hc. eapply chain_weaken; [done | lia]. }
  destruct (truthy (region_start st)) eqn:Htr.
  - destruct open as [i |]; [| rewrite Ho in Htr; discriminate].
    cbn in Ho. destruct Hc as [Hc Hik].
    assert (Hi : (1 <= i)%nat).
    { destruct i; [| lia]. rewrite Ho in Htr. discriminate. }
    rewrite Ho in Htr.
    destruct (Qle_bool min (elapsed_time st - advance cd i 0)) eqn:E3.
    + destruct (is_silence thr e) eqn:E2;
        [| destruct (Qle_bool max (elapsed_time st - advance cd i 0)) eqn:E1];
        q_tests.
      * exists (ivs ++ [(i, k)]), None.
        rewrite (step_emit cd min max thr st e (advance cd i 0)) by auto.
        repeat split; cbn.
        -- rewrite Ht. reflexivity.
        -- rewrite Hr, fmap_app, Ht. reflexivity.
        -- by apply chain_snoc.
      * exists (ivs ++ [(i, k)]), None.
        rewrite (step_emit cd min max thr st e (advance cd i 0)) by auto.
        repeat split; cbn.
        -- rewrite Ht. reflexivity.
        -- rewrite Hr, fmap_app, Ht. reflexivity.
        -- by apply chain_snoc.
      * exists ivs, (Some i).
        rewrite (step_hold cd min max thr st e (advance cd i 0)) by auto.
        repeat split; cbn; try done; [by rewrite Ht | lia].
    + q_tests. exists ivs, (Some i).
      rewrite (step_hold cd min max thr st e (advance cd i 0)) by auto.
      repeat split; cbn; try done; [by rewrite Ht | lia].
  - destruct (is_silence thr e) eqn:E2.
    + exists ivs, open. rewrite step_idle by done.
      repeat split; cbn; try done; [by rewrite Ht |].
      destruct open as [i |]; [destruct Hc; split; [done | lia] |].
      eapply chain_weaken; [done | lia].
    + exists ivs, (Some k). rewrite step_open by done.
      repeat split; cbn; try done; [by rewrite Ht | by rewrite Ht | lia].
Qed.

Lemma tracks_run (es : list Z) (k : nat) (ivs : list (nat * nat))
    (open : option nat) (st : sweep) :
  tracks cd k ivs open st ->
  exists ivs' open',
    tracks cd (k + length es) ivs' open' (run cd min max thr st es).
Proof.
  revert k ivs open st. induction es as [| e es IH]; intros k ivs open st H.
  - exists ivs, open. by rewrite Nat.add_0_r.
  - destruct (tracks_step k ivs open st e H) as (ivs1 & open1 & H1).
    destruct (IH _ _ _ _ H1) as (ivs2 & open2 & H2).
    exists ivs2, open2. cbn [length].
    replace (k + S (length es))%nat with (S k + length es)%nat by lia. exact H2.
Qed.

Lemma regions_by_frames (energies : list Z) :
  exists ivs,
    regions (run cd min max thr initial energies) = times cd <$> ivs
    /\ chain 0 ivs (length energies).
Proof.
  destruct (tracks_run energies 0 [] None initial tracks_initial)
    as (ivs & open & _ & Hr & _ & Hc).
  exists ivs. split; [done |]. cbn in Hc.
  destruct open as [i |]; [| done]. destruct Hc. eapply chain_weaken; [done | lia].
Qed.

End Tracking.

(** X6. Every region found starts and ends at a frame boundary inside the
    stream: it goes from the start of some frame [i >= 1] to the start of a
    later frame [j] of the stream.  No region starts with the first frame. *)
Theorem regions_on_frame_boundaries (cd min max : Q) (energies : list Z)
    (found : list region) (r : region) :
  detect cd min max energies = Return found -> r ∈ found ->
  exists i j, (1 <= i < j)%nat /\ (j < length energies)%nat
              /\ r = (advance cd i 0, advance cd j 0).
Proof.
  intros Hd Hr. unfold detect in Hd.
  destruct (Percentile.percentile energies (1 # 5)) as [thr |]; [| discriminate].
  cbn in Hd. injection Hd as <-.
  destruct (regions_by_frames cd min max thr energies) as (ivs & Heq & Hc).
  rewrite Heq in Hr. apply list_elem_of_fmap in Hr as ([i j] & -> & Hin).
  pose proof (chain_bounds _ _ _ Hc) as Hall. rewrite Forall_forall in Hall.
  specialize (Hall _ Hin). cbn in Hall. exists i, j. repeat split; lia.
Qed.

Lemma regions_on_frame_boundaries_witness :
  exists i j, (1 <= i < j)%nat /\ (j < length [0; 5; 5; 5; 0; 0]%Z)%nat
              /\ (advance (32 # 125) 1 0, advance (32 # 125) 4 0)
                 = (advance (32 # 125) i 0, advance (32 # 125) j 0).
Proof.
  apply (regions_on_frame_boundaries (32 # 125) (1 # 2) 6 [0; 5; 5; 5; 0; 0]%Z
           [(advance (32 # 125) 1 0, advance (32 # 125) 4 0)]).
  - vm_compute. reflexivity.
  - left.
Defined.

(** X7. The regions found are well-formed and disjoint, in increasing
    order: each one starts after time 0 and ends after it starts, and each
    one starts after the one before it has ended. *)
Theorem regions_ordered_and_disjoint (cd min max : Q) (energies : list Z)
    (found : list region) :
  0 < cd -> detect cd min max energies = Return found ->
  (forall r, r ∈ found -> 0 < fst r /\ fst r < snd r)
  /\ (forall a b r1 r2, (a < b)%nat -> found !! a = Some r1 ->
        found !! b = Some r2 -> snd r1 < fst r2).
Proof.
  intros Hcd Hd. unfold detect in Hd.
  destruct (Percentile.percentile energies (1 # 5)) as [thr |]; [| discriminate].
  cbn in Hd. injection Hd as <-.
  destruct (regions_by_frames cd min max thr energies) as (ivs & Heq & Hc).
  rewrite Heq. split.
  - intros r Hr. apply list_elem_of_fmap in Hr as ([i j] & -> & Hin).
    pose proof (chain_bounds _ _ _ Hc) as Hall. rewrite Forall_forall in Hall.
    specialize (Hall _ Hin). cbn in *. split.
    + apply advance_positive; [done | lia].
    + apply advance_lt; [done | lia].
  - intros a b r1 r2 Hab H1 H2. rewrite list_lookup_fmap in H1, H2.
    destruct (ivs !! a) as [iv1 |] eqn:E1; [| discriminate].
    destruct (ivs !! b) as [iv2 |] eqn:E2; [| discriminate].
    injection H1 as <-. injection H2 as <-. cbn.
    apply advance_lt; [done |]. by eapply chain_ordered.
Qed.

Lemma regions_ordered_and_disjoint_witness :
  let found :=
    [(advance (32 # 125) 1 0, advance (32 # 125) 3 0);
     (advance (32 # 125) 5 0, advance (32 # 125) 7 0)] in
  (forall r, r ∈ found -> 0 < fst r /\ fst r < snd r)
  /\ (forall a b r1 r2, (a < b)%nat -> found !! a = Some r1 ->
        found !! b = Some r2 -> snd r1 < fst r2).
Proof.
  apply (regions_ordered_and_disjoint (32 # 125) (1 # 2) 6 Samples.energies).
  - reflexivity.
  - vm_compute. reflexivity.
Defined.

(** *** Reading the frames *)

Lemma ceil_div_bounds (a b : Z) :
  (0 < b)%Z -> ((ceil_div a b - 1) * b < a <= ceil_div a b * b)%Z.
Proof.
  intros Hb. unfold ceil_div.
  set (x := inject_Z a / inject_Z b).
  pose proof (Qle_ceiling x) as H1. pose proof (Qceiling_lt x) as H2.
  assert (Hb' : 0 < inject_Z b) by (change 0 with (inject_Z 0); by rewrite <- Zlt_Qlt).
  assert (Hx : x * inject_Z b == inject_Z a).
  { unfold x. field. lra. }
  split.
  - rewrite Zlt_Qlt, inject_Z_mult. nra.
  - rewrite Zle_Qle, inject_Z_mult. nra.
Qed.

Lemma readframes_lookup {frame} (n w : nat) (data : list frame) (i : nat) :
  (i < n)%nat ->
  readframes n w data !! i = Some (take w (drop (i * w) data)).
Proof.
  revert data i. induction n as [| n IH]; intros data i Hi; [lia |].
  destruct i as [| i]; cbn [readframes]; [reflexivity |].
  change (readframes n w (drop w data) !! i
          = Some (take w (drop (S i * w) data))).
  rewrite IH by lia. rewrite drop_drop. reflexivity.
Qed.

Lemma length_readframes {frame} (n w : nat) (data : list frame) :
  length (readframes n w data) = n.
Proof.
  revert data. induction n as [| n IH]; intros data; cbn; [done |]. by rewrite IH.
Qed.

Lemma concat_readframes {frame} (n w : nat) (data : list frame) :
  concat (readframes n w data) = take (n * w) data.
Proof.
  revert data. induction n as [| n IH]; intros data; cbn [readframes concat].
  - reflexivity.
  - rewrite IH, take_take_drop. reflexivity.
Qed.

(** X8. The chunks whose energies [find_speech_regions] computes are the
    frames of the file, each read once and in order: their concatenation is
    the frame list, there are [ceil(nframes / frame_width)] of them, and
    every chunk holds at least one and at most [frame_width] frames. *)
Theorem chunks_partition_the_frames {frame : Type} (data : list frame)
    (frame_width : positive) :
  let n_chunks :=
    Z.to_nat (ceil_div (Z.of_nat (length data)) (Z.pos frame_width)) in
  let chunks := readframes n_chunks (Pos.to_nat frame_width) data in
  concat chunks = data
  /\ length chunks = n_chunks
  /\ Forall (fun chunk => (1 <= length chunk <= Pos.to_nat frame_width)%nat) chunks.
Proof.
  intros n_chunks chunks.
  pose proof (ceil_div_bounds (Z.of_nat (length data)) (Z.pos frame_width)
                ltac:(lia)) as [Hlo Hhi].
  set (c := ceil_div (Z.of_nat (length data)) (Z.pos frame_width)) in *.
  assert (Hc : (0 <= c)%Z) by nia.
  assert (Hn : Z.of_nat n_chunks = c) by (unfold n_chunks; fold c; lia).
  split; [| split].
  - unfold chunks. rewrite concat_readframes. apply take_ge. nia.
  - apply length_readframes.
  - apply Forall_lookup. intros i chunk Hi.
    pose proof (lookup_lt_Some _ _ _ Hi) as Hlt.
    unfold chunks in Hlt. rewrite length_readframes in Hlt.
    unfold chunks in Hi. rewrite readframes_lookup in Hi by done.
    injection Hi as <-. rewrite length_take, length_drop. nia.
Qed.

End DetectorMore.

(** ** Strings, languages and translation *)

Module StrFacts.
Import Str.

Lemma split_char_nonempty (sep : ascii) (s : string) : split_char sep s <> [].
Proof.
  destruct s as [| c rest]; cbn; [discriminate |].
  destruct (Ascii.eqb c sep); [discriminate |].
  destruct (split_char sep rest); discriminate.
Qed.

Lemma join_cons (sep : ascii) (part : string) (parts : list string) :
  parts <> [] -> join sep (part :: parts) = part +:+ String sep (join sep parts).
Proof. destruct parts; [done | reflexivity]. Qed.

Lemma join_split_char (sep : ascii) (s : string) : join sep (split_char sep s) = s.
Proof.
  induction s as [| c rest IH]; [reflexivity |]. cbn [split_char].
  destruct (Ascii.eqb c sep) eqn:E.
  - apply Ascii.eqb_eq in E as ->.
    rewrite join_cons by apply split_char_nonempty. cbn. by rewrite IH.
  - pose proof (split_char_nonempty sep rest) as Hne.
    destruct (split_char sep rest) as [| part parts]; [done |].
    destruct parts as [| part' parts].
    + cbn in *. by rewrite IH.
    + rewrite join_cons by done. rewrite join_cons in IH by done.
      rewrite <- IH. reflexivity.
Qed.

Lemma split_char_parts (sep : ascii) (s : string) :
  Forall (fun part => contains sep part = false) (split_char sep s).
Proof.
  induction s as [| c rest IH]; cbn [split_char]; [by repeat constructor |].
  destruct (Ascii.eqb c sep) eqn:E; [by constructor |].
  destruct (split_char sep rest) as [| part parts]; [by repeat constructor; cbn; rewrite E |].
  apply Forall_cons in IH as [Hpart Hparts].
  constructor; [| done]. cbn. by rewrite E, Hpart.
Qed.

Lemma split_char_no_separator (sep : ascii) (s : string) :
  contains sep s = false -> split_char sep s = [s].
Proof.
  induction s as [| c rest IH]; [reflexivity |]. cbn. intros H.
  apply orb_false_iff in H as [H1 H2]. rewrite H1, (IH H2). reflexivity.
Qed.

Lemma split_char_separator (sep : ascii) (s t : string) :
  contains sep s = false ->
  split_char sep (s +:+ String sep t) = s :: split_char sep t.
Proof.
  induction s as [| c rest IH]; cbn [contains].
  - intros _. change (split_char sep (String sep t) = EmptyString :: split_char sep t).
    cbn [split_char]. by rewrite Ascii.eqb_refl.
  - intros H. apply orb_false_iff in H as [H1 H2].
    change (split_char sep (String c (rest +:+ String sep t))
            = String c rest :: split_char sep t).
    cbn [split_char]. by rewrite H1, (IH H2).
Qed.

Lemma split_lines_split_char (body : string) :
  SpeechRecognizer.split_lines body = split_char "010" body.
Proof.
  induction body as [| c rest IH]; [reflexivity |]. cbn. by rewrite IH.
Qed.

(** The lines of a response, joined by newlines, give the response
    back; there is at least one line and no line contains a newline. *)
Theorem split_lines_round_trip (body : string) :
  join "010" (SpeechRecognizer.split_lines body) = body
  /\ SpeechRecognizer.split_lines body <> []
  /\ Forall (fun line => contains "010" line = false)
            (SpeechRecognizer.split_lines body).
Proof.
  rewrite split_lines_split_char. split; [apply join_split_char |].
  split; [apply split_char_nonempty | apply split_char_parts].
Qed.

End StrFacts.

Module LanguageFacts.
Import Language.

Lemma primary_plain (lang : string) :
  Str.contains "-" lang = false -> primary lang = lang.
Proof. intros H. unfold primary. by rewrite StrFacts.split_char_no_separator. Qed.

Lemma primary_regional (lang variant : string) :
  Str.contains "-" lang = false -> primary (lang +:+ String "-" variant) = lang.
Proof. intros H. unfold primary. by rewrite StrFacts.split_char_separator. Qed.

(** X9. Language codes are compared by what stands before their first
    hyphen: for hyphen-free [lang1] and [lang2], the codes [lang1-variant1]
    and [lang2-variant2] are the same language exactly when [lang1 = lang2],
    and so are [lang1-variant1] and the bare [lang2]. *)
Theorem same_language_iff_same_primary (lang1 lang2 variant1 variant2 : string) :
  Str.contains "-" lang1 = false -> Str.contains "-" lang2 = false ->
  (is_same_language (lang1 +:+ String "-" variant1) (lang2 +:+ String "-" variant2)
   = true <-> lang1 = lang2)
  /\ (is_same_language (lang1 +:+ String "-" variant1) lang2 = true <-> lang1 = lang2)
  /\ (is_same_language lang1 lang2 = true <-> lang1 = lang2).
Proof.
  intros H1 H2. unfold is_same_language.
  rewrite !primary_regional, !primary_plain by done.
  repeat split; intros H; try (by apply String.eqb_eq); by apply String.eqb_eq in H.
Qed.

Lemma same_language_iff_same_primary_witness :
  (is_same_language "en-US" "en-GB" = true <-> "en"%string = "en"%string)
  /\ (is_same_language "en-US" "en" = true <-> "en"%string = "en"%string)
  /\ (is_same_language "en" "en" = true <-> "en"%string = "en"%string).
Proof.
  apply (same_language_iff_same_primary "en" "en" "US" "GB"); reflexivity.
Defined.

End LanguageFacts.

Module TranslatorFacts.

(** X10. The translator never raises [KeyboardInterrupt].  For an absent or
    empty sentence it returns [None] without a request.  For any other
    sentence it sends that one sentence, and when the service answers it
    returns a string, never [None]: a string that is not empty is the
    [translatedText] of the first entry of [translations]. *)
Theorem translator_results
    (execute : string -> outcome (gmap string (list (gmap string string)))) :
  (forall sentence, Translator.call execute sentence <> Raise KeyboardInterrupt)
  /\ Translator.call_counting execute None = (Return None, [])
  /\ Translator.call_counting execute (Some EmptyString) = (Return None, [])
  /\ (forall c sentence result,
        execute (String c sentence) = Return result ->
        exists text,
          Translator.call_counting execute (Some (String c sentence))
          = (Return (Some text), [String c sentence])
          /\ (text <> EmptyString ->
              exists first rest,
                result !! "translations"%string = Some (first :: rest)
                /\ first !! "translatedText"%string = Some text)).
Proof.
  repeat split.
  - intros [[| c s] |]; cbn; try discriminate.
    apply WorkerFacts.except_KeyboardInterrupt_never_raises_it.
  - intros c sentence result Hex. exists (Translator.translated result).
    cbn. rewrite Hex. cbn. split; [reflexivity |].
    unfold Translator.translated. intros Hne.
    destruct (result !! "translations"%string) as [[| first rest] |]; try done.
    destruct (first !! "translatedText"%string) as [text |] eqn:E; [| done].
    by exists first, rest.
Qed.

End TranslatorFacts.

(** ** More on the workers *)

Module WorkerMore.

(** X11. The clip requested for a region that starts at or after time 0
    covers the region: it starts at or after time 0 and no later than the
    region, and it ends [include_after] after the region.  When the region
    starts at least [include_before] into the file, the clip is the region
    padded on both sides. *)
Theorem clip_covers_region (before after : Q) (r : region) :
  0 <= before -> 0 <= after -> 0 <= fst r ->
  let start := fst (FLACConverter.interval before after r) in
  let duration := snd (FLACConverter.interval before after r) in
  0 <= start /\ start <= fst r /\ start + duration == snd r + after
  /\ (before <= fst r ->
      start == fst r - before /\ duration == snd r - fst r + before + after).
Proof.
  intros Hb Ha Hr. destruct r as [s e]. cbn in *.
  unfold FLACConverter.max0.
  destruct (Qle_bool (s - before) 0) eqn:E; cbn.
  - apply Qle_bool_iff in E. repeat split; try lra.
  - apply DetectorFacts.Qle_bool_false in E. repeat split; lra.
Qed.

Lemma clip_covers_region_witness :
  let start := fst (FLACConverter.interval (1 # 4) (1 # 4) (2, 4)) in
  let duration := snd (FLACConverter.interval (1 # 4) (1 # 4) (2, 4)) in
  0 <= start /\ start <= 2 /\ start + duration == 4 + (1 # 4)
  /\ ((1 # 4) <= 2 ->
      start == 2 - (1 # 4) /\ duration == 4 - 2 + (1 # 4) + (1 # 4)).
Proof.
  apply (clip_covers_region (1 # 4) (1 # 4) (2, 4));
    apply Qle_bool_iff; reflexivity.
Defined.

Section Recognizer.
Variable post : option clip -> nat -> outcome string.
Variable json_transcript : string -> outcome string.
Variable upper : string -> string.

(** X12. A call of the recognizer issues at most [retries] requests. *)
Theorem recognizer_request_budget (retries : nat) (data : option clip) :
  (snd (SpeechRecognizer.call_counting post json_transcript upper retries data)
   <= retries)%nat.
Proof.
  unfold SpeechRecognizer.call_counting.
  pose proof (WorkerFacts.attempts_never_counts_less post json_transcript upper
                data retries 0) as H.
  destruct (SpeechRecognizer.attempts _ _ _ _ _ _) as [r n]. cbn in *. lia.
Qed.

(** X13. A request that fails with an exception other than a connection
    error or an interrupt ends the call: no further request is made and the
    exception leaves the recognizer. *)
Theorem recognizer_other_failure_propagates (retries i : nat) (data : option clip)
    (e : exn) :
  (i < retries)%nat ->
  (forall j, (j < i)%nat ->
             SpeechRecognizer.fruitless post json_transcript upper data j) ->
  post data i = Raise e -> e <> ConnectionError -> e <> KeyboardInterrupt ->
  SpeechRecognizer.call_counting post json_transcript upper retries data
  = (Raise e, S i).
Proof.
  intros Hi Hfr Hpost He1 He2. unfold SpeechRecognizer.call_counting.
  replace retries with (i + S (retries - S i))%nat by lia.
  rewrite WorkerFacts.attempts_skip_fruitless by (intros j Hj; apply Hfr; lia).
  cbn. rewrite Hpost. destruct e; done.
Qed.

End Recognizer.

Lemma recognizer_other_failure_propagates_witness :
  SpeechRecognizer.call_counting
    (fun data i => match i with
                   | O => Raise ConnectionError
                   | _ => Raise OtherError
                   end)
    Samples.json_transcript Samples.upper 3 None
  = (Raise OtherError, 2%nat).
Proof.
  apply (recognizer_other_failure_propagates _ Samples.json_transcript
           Samples.upper 3 1 None OtherError).
  - lia.
  - intros j Hj. assert (j = 0%nat) as -> by lia. left. reflexivity.
  - reflexivity.
  - discriminate.
  - discriminate.
Defined.

End WorkerMore.

(** ** [which] and [extract_audio] *)

Module WhichFacts.
Section Facts.
Variable isfile : string -> bool.
Variable access_x : string -> bool.
Variable path_split : string -> string * string.
Variable path_join : string -> string -> string.
Variable environ : gmap string string.
Variable pathsep : ascii.

Local Abbreviation is_exe := (Which.is_exe isfile access_x).
Local Abbreviation search := (Which.search isfile access_x path_join).
Local Abbreviation which :=
  (Which.which isfile access_x path_split path_join environ pathsep).

Lemma search_found (program : string) (paths : list string) (p : string) :
  search program paths = Some p ->
  is_exe p = true
  /\ exists path, path ∈ paths /\ p = path_join (Str.strip "034" path) program.
Proof.
  induction paths as [| path rest IH]; [discriminate |]. cbn.
  destruct (is_exe (path_join _ program)) eqn:E.
  - intros [= <-]. split; [done |]. exists path. split; [left | done].
  - intros H. destruct (IH H) as (Hexe & path' & Hin & Hp).
    split; [done |]. exists path'. split; [by right | done].
Qed.

Lemma search_first (program : string) (before : list string) (path : string)
    (after : list string) :
  Forall (fun q => is_exe (path_join (Str.strip "034" q) program) = false) before ->
  is_exe (path_join (Str.strip "034" path) program) = true ->
  search program (before ++ path :: after)
  = Some (path_join (Str.strip "034" path) program).
Proof.
  intros Hb Hp. induction Hb as [| q before Hq _ IH]; cbn.
  - by rewrite Hp.
  - by rewrite Hq.
Qed.

(** X14. What [which] returns is an executable file: the program itself
    when it is given with a directory part (the search path is then not
    read), and otherwise the program joined to an entry of [PATH], stripped
    of its double quotes.  Without a directory part and without [PATH] in
    the environment, [which] raises. *)
Theorem which_finds_executables (program : string) :
  (forall p, which program = Return (Some p) ->
     is_exe p = true
     /\ (p = program
         \/ exists path_var path,
              environ !! "PATH"%string = Some path_var
              /\ path ∈ Str.split_char pathsep path_var
              /\ p = path_join (Str.strip "034" path) program))
  /\ (Str.truthy (fst (path_split program)) = true ->
      which program = Return (if is_exe program then Some program else None))
  /\ (Str.truthy (fst (path_split program)) = false ->
      environ !! "PATH"%string = None -> which program = Raise OtherError).
Proof.
  unfold Which.which. destruct (path_split program) as [fpath fname]. cbn [fst].
  split; [| split].
  - intros p. destruct (Str.truthy fpath).
    + destruct (is_exe program) eqn:E; intros [= <-]. split; [done | by left].
    + destruct (environ !! "PATH"%string) as [path_var |] eqn:Henv; [| discriminate].
      intros [= H]. apply search_found in H as (Hexe & path & Hin & Hp).
      split; [done |]. right. by exists path_var, path.
  - intros ->. by destruct (is_exe program).
  - intros -> ->. reflexivity.
Qed.

(** X15. For a program given without a directory part, [which] returns the
    first entry of [PATH] (stripped of its double quotes) under which the
    program is an executable file: entries before it that do not hold the
    program are passed over, and entries after it are not looked at. *)
Theorem which_returns_first_on_path (program path_var : string)
    (before : list string) (path : string) (after : list string) :
  Str.truthy (fst (path_split program)) = false ->
  environ !! "PATH"%string = Some path_var ->
  Str.split_char pathsep path_var = before ++ path :: after ->
  Forall (fun q => is_exe (path_join (Str.strip "034" q) program) = false) before ->
  is_exe (path_join (Str.strip "034" path) program) = true ->
  which program = Return (Some (path_join (Str.strip "034" path) program)).
Proof.
  intros Hdir Henv Hsplit Hbefore Hexe. unfold Which.which.
  destruct (path_split program) as [fpath fname]. cbn [fst] in Hdir.
  rewrite Hdir, Henv, Hsplit. f_equal. by apply search_first.
Qed.

End Facts.

Lemma which_returns_first_on_path_witness :
  Which.which MoreSamples.isfile MoreSamples.access_x MoreSamples.path_split
    MoreSamples.path_join MoreSamples.environ ":" "ffmpeg"
  = Return (Some "/usr/bin/ffmpeg"%string).
Proof.
  apply (which_returns_first_on_path MoreSamples.isfile MoreSamples.access_x
           MoreSamples.path_split MoreSamples.path_join MoreSamples.environ ":"
           "ffmpeg"
           ("/usr/local/bin:" +:+ String "034" ("/usr/bin" +:+ String "034" EmptyString))
           ["/usr/local/bin"%string]
           (String "034" ("/usr/bin" +:+ String "034" EmptyString)) []).
  - reflexivity.
  - reflexivity.
  - reflexivity.
  - repeat constructor.
  - reflexivity.
Defined.

End WhichFacts.

Module ExtractAudioFacts.
Import ExtractAudio.

(** X16. [extract_audio] creates its temporary file before any check, so the
    file is left behind whatever happens.  The conversion tool is run at
    most once, and only for an input that is a file and when [which] has
    found [ffmpeg]; for an input that is not a file nothing is run and the
    call raises.  What the call returns is the name of the temporary file
    and the rate it was asked for. *)
Theorem extract_audio_guards
    (isfile access_x : string -> bool) (path_split : string -> string * string)
    (path_join : string -> string -> string) (environ : gmap string string)
    (pathsep : ascii) (temp_name : string)
    (check_output : list string -> outcome string)
    (filename : string) (channels rate : Z) (sh : shell) :
  let result :=
    extract_audio isfile access_x path_split path_join environ pathsep
      temp_name check_output filename channels rate sh in
  let ran := command temp_name filename channels rate in
  created (fst result) = created sh ++ [temp_name]
  /\ (commands (fst result) = commands sh
      \/ (commands (fst result) = commands sh ++ [ran]
          /\ isfile filename = true
          /\ exists p, Which.which isfile access_x path_split path_join environ
                         pathsep "ffmpeg" = Return (Some p)))
  /\ (isfile filename = false ->
      commands (fst result) = commands sh /\ snd result = Raise OtherError)
  /\ (forall v, snd result = Return v ->
        v = (temp_name, rate) /\ commands (fst result) = commands sh ++ [ran]
        /\ exists out, check_output ran = Return out).
Proof.
  intros result ran. subst result ran. unfold extract_audio.
  destruct (isfile filename) eqn:Hfile; cbn [negb];
    [| cbn; repeat split; solve [done | by left | intros v [=]]].
  destruct (Which.which _ _ _ _ _ _ _) as [[p |] | e] eqn:Hw; cbn;
    [destruct (Str.truthy p) eqn:Hp; cbn;
     [destruct (check_output _) as [out | e] eqn:Hc; cbn |] | |];
    repeat split;
    solve [ done
          | by left
          | congruence
          | eauto
          | intros v [=]
          | right; repeat split; eauto ].
Qed.

End ExtractAudioFacts.

(** ** More on the pipeline *)

Module PipelineMore.
Import Pipeline PipelineFacts.

(** X17. The subtitles are the pairs of a region and its transcript, for
    the positions at which the transcript is present and not empty, in the
    order of the regions. *)
Theorem timed_subtitles_are_the_nonempty_transcripts (regions : list region)
    (transcripts : list (option string)) :
  (forall r t, (r, t) ∈ timed_subtitles regions transcripts ->
     t <> EmptyString
     /\ exists i, regions !! i = Some r /\ transcripts !! i = Some (Some t))
  /\ (forall i r t, regions !! i = Some r -> transcripts !! i = Some (Some t) ->
        t <> EmptyString -> (r, t) ∈ timed_subtitles regions transcripts)
  /\ (fst <$> timed_subtitles regions transcripts) `sublist_of` regions.
Proof.
  revert transcripts. induction regions as [| r0 regions IH]; intros transcripts.
  { cbn. split; [| split]; [| done | done].
    intros r t H. by apply not_elem_of_nil in H. }
  destruct transcripts as [| [t0 |] transcripts]; cbn [timed_subtitles].
  { split; [| split]; [| done | apply sublist_nil_l].
    intros r t H. by apply not_elem_of_nil in H. }
  - destruct (IH transcripts) as (H1 & H2 & H3).
    destruct t0 as [| c t0]; cbn [nonempty]; (split; [| split]).
    + intros r t H. destruct (H1 r t H) as (Hne & i & Hr & Ht).
      split; [done |]. by exists (S i).
    + intros [| i] r t Hr Ht Hne; cbn in *; [congruence |]. by eapply H2.
    + by apply sublist_cons.
    + intros r t H. apply elem_of_cons in H as [[= -> ->] | H].
      * split; [done |]. by exists 0%nat.
      * destruct (H1 r t H) as (Hne & i & Hr & Ht).
        split; [done |]. by exists (S i).
    + intros [| i] r t Hr Ht Hne; cbn in *.
      * injection Hr as ->. injection Ht as ->. left.
      * right. by eapply H2.
    + cbn. by apply sublist_skip.
  - destruct (IH transcripts) as (H1 & H2 & H3). split; [| split].
    + intros r t H. destruct (H1 r t H) as (Hne & i & Hr & Ht).
      split; [done |]. by exists (S i).
    + intros [| i] r t Hr Ht Hne; cbn in *; [congruence |]. by eapply H2.
    + by apply sublist_cons.
Qed.

Section Stages.
Variable completion : stage -> list nat.
Variable converter : region -> outcome (option clip).
Variable recognizer : option clip -> outcome (option string).

(** The stages never touch the file system. *)
Lemma stages_keep_files (interrupt : option (stage * nat)) (regions : list region)
    (w : world) :
  files (fst (stages completion interrupt converter recognizer regions w)) = files w.
Proof.
  unfold stages.
  destruct (collect interrupt Extraction 0 _ []) as [extracted | []]; cbn;
    try reflexivity.
  destruct (collect interrupt Recognition 0 _ []) as [ts | []]; reflexivity.
Qed.

Lemma stages_return (regions : list region) (w : world)
    (clips : list (option clip)) (transcripts : list (option string)) :
  completion Extraction ≡ₚ seq 0 (length regions) ->
  completion Recognition ≡ₚ seq 0 (length regions) ->
  mapM converter regions = Return clips ->
  mapM recognizer clips = Return transcripts ->
  stages completion None converter recognizer regions w
  = (submit clips w, Return transcripts).
Proof.
  intros Hp1 Hp2 H1 H2. unfold stages.
  rewrite PoolFacts.imap_in_submission_order by done.
  rewrite collect_uninterrupted by done. rewrite mapM_id_fmap, H1. cbn.
  assert (Hlen : length clips = length regions).
  { apply mapM_Return, Forall2_length in H1. done. }
  rewrite PoolFacts.imap_in_submission_order by (by rewrite Hlen).
  rewrite collect_uninterrupted by done. rewrite mapM_id_fmap, H2. reflexivity.
Qed.

End Stages.

Section Run.
Context {frame : Type}.
Variable rms : list frame -> Z -> Z.
Variable extract_audio : string -> outcome (string * Z).
Variable wave_open : string -> Detector.wave frame.
Variable run_ffmpeg : string -> Q -> Q -> outcome clip.
Variable post : string -> Z -> option clip -> nat -> outcome string.
Variable json_transcript : string -> outcome string.
Variable upper : string -> string.
Variable FORMATTERS : gmap string (list (region * string) -> string).
Variable splitext : string -> string * string.
Variable completion : stage -> list nat.

Local Abbreviation generate interrupt :=
  (generate_subtitles rms extract_audio wave_open run_ffmpeg post json_transcript
     upper FORMATTERS splitext completion interrupt).
Local Abbreviation converter audio :=
  (FLACConverter.call (run_ffmpeg audio) (1 # 4) (1 # 4)).
Local Abbreviation recognizer language rate :=
  (SpeechRecognizer.call (post language rate) json_transcript upper 3).

(** The world and the transcripts after the stages of a run in which every
    worker returns. *)
Lemma transcripts_of_run (source_path src_language : string) (w : world)
    (audio : string) (rate : Z) (regions : list region)
    (clips : list (option clip)) (transcripts : list (option string)) :
  completion Extraction ≡ₚ seq 0 (length regions) ->
  completion Recognition ≡ₚ seq 0 (length regions) ->
  mapM (converter audio) regions = Return clips ->
  mapM (recognizer src_language rate) clips = Return transcripts ->
  match regions with
  | [] => (w, Return [])
  | _ :: _ => stages completion None (converter audio)
                (recognizer src_language rate) regions w
  end
  = (match regions with [] => w | _ :: _ => submit clips w end, Return transcripts).
Proof.
  intros Hp1 Hp2 H1 H2. destruct regions as [| r0 rs].
  - injection H1 as <-. injection H2 as <-. reflexivity.
  - by apply stages_return.
Qed.

(** X18. What a run that returns has done.  When [generate_subtitles]
    returns the path [dest], every call of the converter and of the
    recognizer has returned, the format is in the registry, [dest] is the
    [output] path when one is given and otherwise the source path with its
    extension replaced by the format, the file at [dest] holds the formatted
    subtitles of the regions with a non-empty transcript, and the temporary
    audio file has been removed. *)
Theorem returned_run_wrote_subtitles (source_path src_language format : string)
    (output : option string) (w w' : world) (dest : string) (audio : string)
    (rate : Z) (regions : list region) :
  extract_audio source_path = Return (audio, rate) ->
  Detector.find_speech_regions rms (wave_open audio) 4096 (1 # 2) 6
  = Return regions ->
  completion Extraction ≡ₚ seq 0 (length regions) ->
  completion Recognition ≡ₚ seq 0 (length regions) ->
  generate None source_path src_language format output w = (w', Return dest) ->
  exists clips transcripts formatter,
    mapM (converter audio) regions = Return clips
    /\ mapM (recognizer src_language rate) clips = Return transcripts
    /\ FORMATTERS !! format = Some formatter
    /\ dest = match output with
              | Some (String c path) => String c path
              | Some EmptyString | None =>
                  fst (splitext source_path) +:+ "." +:+ format
              end
    /\ files w'
       = delete audio
           (<[dest := formatter (timed_subtitles regions transcripts)]> (files w)).
Proof.
  intros H1 H2 Hp1 Hp2. unfold generate_subtitles. rewrite H1, H2.
  assert (Hstages :
    exists w1 r,
      match regions with
      | [] => (w, Return [])
      | _ :: _ => stages completion None (converter audio)
                    (recognizer src_language rate) regions w
      end = (w1, r)
      /\ files w1 = files w
      /\ r = (extracted ← mapM (converter audio) regions;
              mapM (recognizer src_language rate) extracted)).
  { destruct regions as [| r0 rs]; [by exists w, (Return []) |].
    eexists _, _. split; [apply surjective_pairing |]. split.
    - apply stages_keep_files.
    - by apply stages_sequential. }
  destruct Hstages as (w1 & r & -> & Hfiles & ->).
  destruct (mapM (converter audio) regions) as [clips |] eqn:Hclips;
    [| discriminate].
  cbn. destruct (mapM (recognizer src_language rate) clips) as [transcripts |]
    eqn:Htranscripts; [| discriminate].
  destruct (FORMATTERS !! format) as [formatter |]; [| discriminate].
  intros [= <- <-]. exists clips, transcripts, formatter.
  split; [done |]. split; [done |]. split; [done |]. split; [done |].
  cbn. by rewrite Hfiles.
Qed.

(** X19. When the format is not in the registry the run fails with
    [TypeError], and only after the recognition: for a non-empty region list
    every clip has been handed to the recognition stage, and no file is
    written. *)
Theorem unknown_format_fails_after_recognition
    (source_path src_language format : string)
    (output : option string) (w : world) (audio : string) (rate : Z)
    (regions : list region) (clips : list (option clip))
    (transcripts : list (option string)) :
  extract_audio source_path = Return (audio, rate) ->
  Detector.find_speech_regions rms (wave_open audio) 4096 (1 # 2) 6
  = Return regions ->
  completion Extraction ≡ₚ seq 0 (length regions) ->
  completion Recognition ≡ₚ seq 0 (length regions) ->
  mapM (converter audio) regions = Return clips ->
  mapM (recognizer src_language rate) clips = Return transcripts ->
  FORMATTERS !! format = None ->
  exists w',
    generate None source_path src_language format output w = (w', Raise TypeError)
    /\ files w' = files w
    /\ (regions <> [] -> recognition_tasks w' = recognition_tasks w ++ clips).
Proof.
  intros H1 H2 Hp1 Hp2 Hc Hr Hf. unfold generate_subtitles.
  rewrite H1, H2.
  rewrite (transcripts_of_run source_path src_language w audio rate regions
             clips transcripts) by done.
  rewrite Hf. eexists. split; [reflexivity |].
  destruct regions; [split; [reflexivity | done] |]. split; reflexivity.
Qed.

(** An interrupt of the main process during a stage ends the run with
    [KeyboardInterrupt] and the pool torn down. *)
Lemma interrupted_run (source_path src_language format : string)
    (output : option string) (w : world) (audio : string) (rate : Z)
    (regions : list region) (s : stage) (i : nat) :
  extract_audio source_path = Return (audio, rate) ->
  Detector.find_speech_regions rms (wave_open audio) 4096 (1 # 2) 6
  = Return regions ->
  regions <> [] ->
  completion Extraction ≡ₚ seq 0 (length regions) ->
  completion Recognition ≡ₚ seq 0 (length regions) ->
  (i <= length regions)%nat ->
  match s with
  | Extraction =>
      forall j r, (j < i)%nat -> regions !! j = Some r ->
                  is_raise (converter audio r) = false
  | Recognition =>
      exists clips,
        mapM (converter audio) regions = Return clips
        /\ forall j c, (j < i)%nat -> clips !! j = Some c ->
                       is_raise (recognizer src_language rate c) = false
  end ->
  exists w',
    generate (Some (s, i)) source_path src_language format output w
    = (w', Raise KeyboardInterrupt)
    /\ files w' = files w /\ pool_terminated w' = true.
Proof.
  intros H1 H2 Hne Hp1 Hp2 Hi Hreached. destruct s.
  - exists (terminate w). split; [| done].
    eapply generate_stages_raise; try done.
    by apply stages_interrupted_in_extraction.
  - destruct Hreached as (clips & Hm & Hok).
    exists (terminate (submit clips w)). split; [| done].
    eapply generate_stages_raise; try done.
    by apply stages_interrupted_in_recognition.
Qed.

(** A failure of the conversion tool ends the run with that failure. *)
Lemma tool_failure_run (source_path src_language format : string)
    (output : option string) (w : world) (audio : string) (rate : Z)
    (regions : list region) (i : nat) (r : region) :
  extract_audio source_path = Return (audio, rate) ->
  Detector.find_speech_regions rms (wave_open audio) 4096 (1 # 2) 6
  = Return regions ->
  completion Extraction ≡ₚ seq 0 (length regions) ->
  regions !! i = Some r ->
  run_ffmpeg audio (fst (FLACConverter.interval (1 # 4) (1 # 4) r))
                   (snd (FLACConverter.interval (1 # 4) (1 # 4) r))
  = Raise CalledProcessError ->
  (forall j r', (j < i)%nat -> regions !! j = Some r' ->
                is_raise (converter audio r') = false) ->
  generate None source_path src_language format output w
  = (w, Raise CalledProcessError).
Proof.
  intros H1 H2 Hp Hr Hfail Hbefore.
  eapply generate_stages_raise; try done.
  - intros ->. discriminate.
  - apply stages_extraction_fails; [done | | done].
    apply (mapM_first_Raise _ regions i r); try done.
    by apply WorkerFacts.converter_tool_failure.
Qed.

End Run.

Lemma returned_run_wrote_subtitles_witness :
  exists clips transcripts formatter,
    mapM (FLACConverter.call (Samples.ffmpeg_ok "/tmp/audio.wav") (1 # 4) (1 # 4))
         Samples.regions
    = Return clips
    /\ mapM (SpeechRecognizer.call (Samples.post "en" 16000)
               Samples.json_transcript Samples.upper 3) clips
       = Return transcripts
    /\ Samples.FORMATTERS !! "srt"%string = Some formatter
    /\ "movie.mp4.srt"%string = "movie.mp4.srt"%string
    /\ files
         (fst (generate_subtitles Samples.rms Samples.extract_audio
                 Samples.wave_open Samples.ffmpeg_ok Samples.post
                 Samples.json_transcript Samples.upper Samples.FORMATTERS
                 Samples.splitext Samples.completion None
                 "movie.mp4" "en" "srt" None Samples.world0))
       = delete "/tmp/audio.wav"%string
           (<["movie.mp4.srt"%string :=
                formatter (timed_subtitles Samples.regions transcripts)]>
              (files Samples.world0)).
Proof.
  apply (returned_run_wrote_subtitles Samples.rms Samples.extract_audio
           Samples.wave_open Samples.ffmpeg_ok Samples.post
           Samples.json_transcript Samples.upper Samples.FORMATTERS
           Samples.splitext Samples.completion "movie.mp4" "en" "srt" None
           Samples.world0 _ "movie.mp4.srt" "/tmp/audio.wav" 16000
           Samples.regions).
  - reflexivity.
  - vm_compute. reflexivity.
  - compute_done.
  - compute_done.
  - vm_compute. reflexivity.
Defined.

Lemma unknown_format_fails_after_recognition_witness :
  exists w',
    generate_subtitles Samples.rms Samples.extract_audio Samples.wave_open
      Samples.ffmpeg_ok Samples.post Samples.json_transcript Samples.upper
      Samples.FORMATTERS Samples.splitext Samples.completion None
      "movie.mp4" "en" "vtt" None Samples.world0
    = (w', Raise TypeError)
    /\ files w' = files Samples.world0
    /\ (Samples.regions <> [] ->
        recognition_tasks w'
        = recognition_tasks Samples.world0
          ++ [Some "flac"%string; Some "flac"%string]).
Proof.
  apply (unknown_format_fails_after_recognition Samples.rms Samples.extract_audio
           Samples.wave_open Samples.ffmpeg_ok Samples.post
           Samples.json_transcript Samples.upper Samples.FORMATTERS
           Samples.splitext Samples.completion "movie.mp4" "en" "vtt" None
           Samples.world0 "/tmp/audio.wav" 16000 Samples.regions
           [Some "flac"%string; Some "flac"%string]
           [Some "Hello world"%string; Some "Hello world"%string]).
  - reflexivity.
  - vm_compute. reflexivity.
  - compute_done.
  - compute_done.
  - vm_compute. reflexivity.
  - vm_compute. reflexivity.
  - reflexivity.
Defined.

End PipelineMore.

(** ** [main] *)

Module MainFacts.
Import Pipeline Main.

Lemma compare_trans_le (s1 s2 s3 : string) :
  String.compare s1 s2 <> Gt -> String.compare s2 s3 <> Gt ->
  String.compare s1 s3 <> Gt.
Proof.
  revert s2 s3. induction s1 as [| c1 s1 IH]; intros [| c2 s2] [| c3 s3]; cbn;
    try congruence.
  unfold Ascii.compare.
  destruct (N.compare_spec (N_of_ascii c1) (N_of_ascii c2)) as [E12 | L12 | G12];
    destruct (N.compare_spec (N_of_ascii c2) (N_of_ascii c3)) as [E23 | L23 | G23];
    try congruence.
  - rewrite E12, E23, N.compare_refl. apply IH.
  - rewrite E12. intros _ _. apply N.compare_lt_iff in L23. by rewrite L23.
  - rewrite <- E23. intros _ _. apply N.compare_lt_iff in L12. by rewrite L12.
  - intros _ _. assert (N_of_ascii c1 < N_of_ascii c3)%N as H by lia.
    apply N.compare_lt_iff in H. by rewrite H.
Qed.

Lemma code_le_trans : Transitive code_le.
Proof.
  intros [a ?] [b ?] [c ?]. unfold code_le, String.leb. cbn. intros H1 H2.
  pose proof (compare_trans_le a b c) as H.
  destruct (String.compare a b), (String.compare b c), (String.compare a c);
    try done; exfalso; by apply H.
Qed.

Lemma code_le_total : Total code_le.
Proof. intros [a ?] [b ?]. apply String.leb_total. Qed.

Section Facts.
Context {frame : Type}.
Variable rms : list frame -> Z -> Z.
Variable extract_audio : string -> outcome (string * Z).
Variable wave_open : string -> Detector.wave frame.
Variable run_ffmpeg : string -> Q -> Q -> outcome clip.
Variable post : string -> Z -> option clip -> nat -> outcome string.
Variable json_transcript : string -> outcome string.
Variable upper : string -> string.
Variable splitext : string -> string * string.
Variable completion : stage -> list nat.
Variable FORMATTERS : list (string * (list (region * string) -> string)).
Variable LANGUAGE_CODES : gmap string string.
Variable read_version : outcome string.
Variable int_of : string -> outcome Z.

Local Abbreviation run interrupt :=
  (main rms extract_audio wave_open run_ffmpeg post json_transcript upper
     splitext completion interrupt FORMATTERS LANGUAGE_CODES read_version int_of).
Local Abbreviation generate interrupt a :=
  (generate_subtitles rms extract_audio wave_open run_ffmpeg post json_transcript
     upper (list_to_map FORMATTERS) splitext completion interrupt
     (source a) (src_language a) (format a) (output a)).

(** X21. The listings come before every check and run nothing.
    [--list-formats] prints the formats in the order of the registry, even
    with an unsupported format or language among the arguments;
    [--list-languages] prints one line [code<TAB>language] for each entry of
    the language table, in ascending order of the codes. *)
Theorem listings_run_nothing (interrupt : option (stage * nat)) (a : args)
    (w : world) (version : string) :
  read_version = Return version ->
  (list_formats a = true -> run interrupt a w = (w, fst <$> FORMATTERS, Return 0%Z))
  /\ (list_formats a = false -> list_languages a = true ->
      exists items,
        items ≡ₚ map_to_list LANGUAGE_CODES
        /\ StronglySorted code_le items
        /\ NoDup (fst <$> items)
        /\ run interrupt a w
           = (w, (fun cl => fst cl +:+ tab +:+ snd cl) <$> items, Return 0%Z)).
Proof.
  intros Hv. unfold main. rewrite Hv. split.
  - by intros ->.
  - intros -> ->. exists (sorted_languages LANGUAGE_CODES).
    unfold sorted_languages. split; [apply merge_sort_Permutation |].
    split; [apply (@StronglySorted_merge_sort _ code_le _ code_le_trans code_le_total) |].
    split; [| reflexivity].
    rewrite merge_sort_Permutation. apply NoDup_fst_map_to_list.
Qed.

(** X22. What the exit status tells.  Status 0 is returned only when the
    format and the language are supported and [generate_subtitles] has
    returned, and the line printed then names the path it returned.  An
    unsupported format or language is refused with status 1 and one line of
    explanation before anything is run.  The only statuses returned are 0
    and 1. *)
Theorem exit_status_reflects_the_run (interrupt : option (stage * nat)) (a : args)
    (w w' : world) (out : list string) (status : outcome Z) (version : string) :
  read_version = Return version ->
  list_formats a = false -> list_languages a = false ->
  run interrupt a w = (w', out, status) ->
  (status = Return 0%Z ->
     format a ∈ fst <$> FORMATTERS /\ is_Some (LANGUAGE_CODES !! src_language a)
     /\ exists dest, generate interrupt a w = (w', Return dest)
                     /\ out = ["Subtitles file created at " +:+ dest])
  /\ (format a ∉ fst <$> FORMATTERS \/ LANGUAGE_CODES !! src_language a = None ->
      w' = w /\ status = Return 1%Z /\ length out = 1%nat)
  /\ (forall z, status = Return z -> z = 0%Z \/ z = 1%Z).
Proof.
  intros Hv Hf Hl. unfold main. rewrite Hv, Hf, Hl.
  destruct (bool_decide (format a ∈ fst <$> FORMATTERS)) eqn:Hfmt; cbn [negb].
  2:{ intros [= <- <- <-]. repeat split; try done. intros z [= <-]. by right. }
  apply bool_decide_eq_true in Hfmt.
  destruct (bool_decide (is_Some (LANGUAGE_CODES !! src_language a))) eqn:Hlang;
    cbn [negb].
  2:{ intros [= <- <- <-]. repeat split; try done. intros z [= <-]. by right. }
  apply bool_decide_eq_true in Hlang.
  assert (Hsupported :
    ~ (format a ∉ fst <$> FORMATTERS \/ LANGUAGE_CODES !! src_language a = None)).
  { intros [H | H]; [done |]. rewrite H in Hlang. by destruct Hlang. }
  destruct (int_of (concurrency a)) as [n | e].
  2:{ destruct e; intros [= <- <- <-]; repeat split; try done;
        intros z [= <-]; by right. }
  destruct (generate_subtitles _ _ _ _ _ _ _ _ _ _ _ _ _ _ _ _) as [w1 [dest | e]].
  - intros [= <- <- <-]. repeat split; try done.
    + by exists dest.
    + intros z [= <-]. by left.
  - destruct e; intros [= <- <- <-]; repeat split; try done;
      intros z [= <-]; by right.
Qed.

(** X23. An interrupt of the main process during a stage of the run does not
    leave [main] as an exception: [main] prints nothing of its own and
    returns status 1, with the pool torn down. *)
Theorem interrupted_main_returns_1 (a : args) (w : world) (version : string)
    (workers : Z) (audio : string) (rate : Z) (regions : list region)
    (s : stage) (i : nat) :
  read_version = Return version ->
  list_formats a = false -> list_languages a = false ->
  format a ∈ fst <$> FORMATTERS -> is_Some (LANGUAGE_CODES !! src_language a) ->
  int_of (concurrency a) = Return workers ->
  extract_audio (source a) = Return (audio, rate) ->
  Detector.find_speech_regions rms (wave_open audio) 4096 (1 # 2) 6
  = Return regions ->
  regions <> [] ->
  completion Extraction ≡ₚ seq 0 (length regions) ->
  completion Recognition ≡ₚ seq 0 (length regions) ->
  (i <= length regions)%nat ->
  match s with
  | Extraction =>
      forall j r, (j < i)%nat -> regions !! j = Some r ->
        is_raise (FLACConverter.call (run_ffmpeg audio) (1 # 4) (1 # 4) r) = false
  | Recognition =>
      exists clips,
        mapM (FLACConverter.call (run_ffmpeg audio) (1 # 4) (1 # 4)) regions
        = Return clips
        /\ forall j c, (j < i)%nat -> clips !! j = Some c ->
             is_raise (SpeechRecognizer.call (post (src_language a) rate)
                         json_transcript upper 3 c) = false
  end ->
  exists w',
    run (Some (s, i)) a w = (w', [], Return 1%Z) /\ pool_terminated w' = true.
Proof.
  intros Hv Hf Hl Hfmt Hlang Hint H1 H2 Hne Hp1 Hp2 Hi Hreached.
  destruct (PipelineMore.interrupted_run rms extract_audio wave_open run_ffmpeg
              post json_transcript upper (list_to_map FORMATTERS) splitext
              completion (source a) (src_language a) (format a) (output a) w
              audio rate regions s i H1 H2 Hne Hp1 Hp2 Hi Hreached)
    as (w' & Hrun & Hfiles & Hpool).
  exists w'. split; [| done]. unfold main.
  rewrite Hv, Hf, Hl, (bool_decide_eq_true_2 _ Hfmt),
    (bool_decide_eq_true_2 _ Hlang), Hint. cbn [negb].
  by rewrite Hrun.
Qed.

(** X24. A failure of the conversion tool is not handled anywhere: when the
    tool exits non-zero for a region, [main] ends with [CalledProcessError]
    instead of an exit status, having printed nothing of its own and written
    no file. *)
Theorem tool_failure_leaves_main (a : args) (w : world) (version : string)
    (workers : Z) (audio : string) (rate : Z) (regions : list region)
    (i : nat) (r : region) :
  read_version = Return version ->
  list_formats a = false -> list_languages a = false ->
  format a ∈ fst <$> FORMATTERS -> is_Some (LANGUAGE_CODES !! src_language a) ->
  int_of (concurrency a) = Return workers ->
  extract_audio (source a) = Return (audio, rate) ->
  Detector.find_speech_regions rms (wave_open audio) 4096 (1 # 2) 6
  = Return regions ->
  completion Extraction ≡ₚ seq 0 (length regions) ->
  regions !! i = Some r ->
  run_ffmpeg audio (fst (FLACConverter.interval (1 # 4) (1 # 4) r))
                   (snd (FLACConverter.interval (1 # 4) (1 # 4) r))
  = Raise CalledProcessError ->
  (forall j r', (j < i)%nat -> regions !! j = Some r' ->
     is_raise (FLACConverter.call (run_ffmpeg audio) (1 # 4) (1 # 4) r') = false) ->
  run None a w = (w, [], Raise CalledProcessError).
Proof.
  intros Hv Hf Hl Hfmt Hlang Hint H1 H2 Hp Hr Hfail Hbefore.
  pose proof (PipelineMore.tool_failure_run rms extract_audio wave_open run_ffmpeg
                post json_transcript upper (list_to_map FORMATTERS) splitext
                completion (source a) (src_language a) (format a) (output a) w
                audio rate regions i r H1 H2 Hp Hr Hfail Hbefore) as Hrun.
  unfold main.
  rewrite Hv, Hf, Hl, (bool_decide_eq_true_2 _ Hfmt),
    (bool_decide_eq_true_2 _ Hlang), Hint. cbn [negb].
  by rewrite Hrun.
Qed.

End Facts.

Lemma listings_run_nothing_witness :
  exists items,
    items ≡ₚ map_to_list MoreSamples.LANGUAGE_CODES
    /\ StronglySorted code_le items
    /\ NoDup (fst <$> items)
    /\ MoreSamples.main Samples.ffmpeg_ok None MoreSamples.args_languages
         Samples.world0
       = (Samples.world0, (fun cl => fst cl +:+ tab +:+ snd cl) <$> items,
          Return 0%Z).
Proof.
  apply (listings_run_nothing Samples.rms Samples.extract_audio Samples.wave_open
           Samples.ffmpeg_ok Samples.post Samples.json_transcript Samples.upper
           Samples.splitext Samples.completion MoreSamples.FORMATTERS
           MoreSamples.LANGUAGE_CODES MoreSamples.read_version MoreSamples.int_of
           None MoreSamples.args_languages Samples.world0 "0.1");
    reflexivity.
Defined.

Lemma exit_status_reflects_the_run_witness :
  let result :=
    MoreSamples.main Samples.ffmpeg_ok None MoreSamples.args0 Samples.world0 in
  snd result = Return 0%Z
  /\ exists dest,
       generate_subtitles Samples.rms Samples.extract_audio Samples.wave_open
         Samples.ffmpeg_ok Samples.post Samples.json_transcript Samples.upper
         (list_to_map MoreSamples.FORMATTERS) Samples.splitext Samples.completion
         None "movie.mp4" "en" "srt" None Samples.world0
       = (fst (fst result), Return dest)
       /\ snd (fst result) = ["Subtitles file created at " +:+ dest].
Proof.
  intros result. split; [vm_compute; reflexivity |].
  apply (exit_status_reflects_the_run Samples.rms Samples.extract_audio
           Samples.wave_open Samples.ffmpeg_ok Samples.post
           Samples.json_transcript Samples.upper Samples.splitext
           Samples.completion MoreSamples.FORMATTERS MoreSamples.LANGUAGE_CODES
           MoreSamples.read_version MoreSamples.int_of None MoreSamples.args0
           Samples.world0 (fst (fst result)) (snd (fst result)) (snd result) "0.1").
  - reflexivity.
  - reflexivity.
  - reflexivity.
  - vm_compute. reflexivity.
  - vm_compute. reflexivity.
Defined.

Lemma interrupted_main_returns_1_witness :
  exists w',
    MoreSamples.main Samples.ffmpeg_ok (Some (Recognition, 1%nat)) MoreSamples.args0
      Samples.world0
    = (w', [], Return 1%Z)
    /\ pool_terminated w' = true.
Proof.
  apply (interrupted_main_returns_1 Samples.rms Samples.extract_audio
           Samples.wave_open Samples.ffmpeg_ok Samples.post
           Samples.json_transcript Samples.upper Samples.splitext
           Samples.completion MoreSamples.FORMATTERS MoreSamples.LANGUAGE_CODES
           MoreSamples.read_version MoreSamples.int_of MoreSamples.args0
           Samples.world0 "0.1" 10 "/tmp/audio.wav" 16000 Samples.regions
           Recognition 1%nat).
  - reflexivity.
  - reflexivity.
  - reflexivity.
  - vm_compute. left.
  - by exists "English"%string.
  - reflexivity.
  - reflexivity.
  - vm_compute. reflexivity.
  - discriminate.
  - compute_done.
  - compute_done.
  - vm_compute. lia.
  - exists [Some "flac"%string; Some "flac"%string]. split.
    + vm_compute. reflexivity.
    + intros j c Hj Hc. assert (j = 0%nat) as -> by lia.
      injection Hc as <-. vm_compute. reflexivity.
Defined.

Lemma tool_failure_leaves_main_witness :
  MoreSamples.main Samples.ffmpeg_failing None MoreSamples.args0 Samples.world0
  = (Samples.world0, [], Raise CalledProcessError).
Proof.
  apply (tool_failure_leaves_main Samples.rms Samples.extract_audio
           Samples.wave_open Samples.ffmpeg_failing Samples.post
           Samples.json_transcript Samples.upper Samples.splitext
           Samples.completion MoreSamples.FORMATTERS MoreSamples.LANGUAGE_CODES
           MoreSamples.read_version MoreSamples.int_of MoreSamples.args0
           Samples.world0 "0.1" 10 "/tmp/audio.wav" 16000 Samples.regions 0%nat
           (Detector.advance (inject_Z 4096 / inject_Z 16000) 1 0,
            Detector.advance (inject_Z 4096 / inject_Z 16000) 3 0)).
  - reflexivity.
  - reflexivity.
  - reflexivity.
  - vm_compute. left.
  - by exists "English"%string.
  - reflexivity.
  - reflexivity.
  - vm_compute. reflexivity.
  - compute_done.
  - reflexivity.
  - vm_compute. reflexivity.
  - intros j r' Hj. lia.
Defined.

End MainFacts.
